(** * tsurlfilter: network engine, cosmetic lookup table, rule scanner and
    cookie filtering, embedded in Rocq.

  The development follows the TypeScript sources:
    - [src/utils.ts]                        (fastHash, fastHashBetween,
                                             CookieFiltering, CookieUtils)
    - [src/engine/network-engine.ts]        (NetworkEngine)
    - [cosmetic-lookup-table.ts]            (CosmeticLookupTable)
    - [src/filterlist/scanner/rule-scanner.ts] (RuleScanner)

  Part I gives the embedding, Part II the properties. *)

From Stdlib Require Import ZArith NArith QArith Lia Bool Ascii String Sorted.
From Stdlib Require SpecFloat.
From stdpp Require Import base option list gmap.

Local Open Scope Z_scope.

(* ===================================================================== *)
(** * Part I.  The embedding                                              *)
(* ===================================================================== *)

(** ** JavaScript values used by the sources *)

Module JS.

(** A JavaScript string is a sequence of UTF-16 code units. *)
Abbreviation jsstring := (list N).

(** Literals: every character of a Rocq string literal below is ASCII and
    stands for the code unit of the same value. *)
Definition js (s : string) : jsstring :=
  map N_of_ascii (list_ascii_of_string s).

(** *** Numbers

    A JavaScript number is an IEEE-754 binary64 value.  The sources only
    build numbers from integer literals, string lengths and
    [charCodeAt] results with [+] and [*], so every number that occurs is
    an integer-valued double, an infinity or NaN. *)
Inductive number : Type :=
| Num (z : Z)
| Infinity (negative : bool)
| NaN.

#[global] Instance number_eq_dec : EqDecision number.
Proof. solve_decision. Defined.

#[global] Instance number_countable : Countable number.
Proof.
  refine (inj_countable'
    (fun n => match n with
              | Num z => inl z
              | Infinity b => inr (Some b)
              | NaN => inr None
              end)
    (fun s => match s with
              | inl z => Num z
              | inr (Some b) => Infinity b
              | inr None => NaN
              end) _).
  by intros [].
Defined.

(** Round-to-nearest, ties-to-even, of a non-negative integer to a 53-bit
    significand (exponent range not yet applied). *)
Definition round_nearest_even (m : Z) : Z :=
  if m <? 2 ^ 53 then m
  else
    let e := Z.log2 m - 52 in
    let q := m / 2 ^ e in
    let r := m mod 2 ^ e in
    let half := 2 ^ (e - 1) in
    if r <? half then q * 2 ^ e
    else if half <? r then (q + 1) * 2 ^ e
    else if Z.even q then q * 2 ^ e
    else (q + 1) * 2 ^ e.

(** [2^1024]: what rounds to it or beyond overflows.  (The value is
    computed once, here.) *)
Definition overflow_threshold : Z := Eval vm_compute in 2 ^ 1024.

(** The double nearest to the integer [z]; overflow gives an infinity. *)
Definition round_double (z : Z) : number :=
  let m := round_nearest_even (Z.abs z) in
  if overflow_threshold <=? m then Infinity (z <? 0)
  else Num (Z.sgn z * m).

(** [a * b] *)
Definition mul (a b : number) : number :=
  match a, b with
  | NaN, _ | _, NaN => NaN
  | Num x, Num y => round_double (x * y)
  | Infinity s, Num y | Num y, Infinity s =>
      if y =? 0 then NaN else Infinity (xorb s (y <? 0))
  | Infinity s, Infinity t => Infinity (xorb s t)
  end.

(** [a + b] *)
Definition add (a b : number) : number :=
  match a, b with
  | NaN, _ | _, NaN => NaN
  | Num x, Num y => round_double (x + y)
  | Infinity s, Num _ | Num _, Infinity s => Infinity s
  | Infinity s, Infinity t => if Bool.eqb s t then Infinity s else NaN
  end.

(** *** String primitives *)

(** [str.charCodeAt(idx)]: NaN outside the string. *)
Definition charCodeAt (str : jsstring) (idx : nat) : number :=
  match str !! idx with
  | Some c => Num (Z.of_N c)
  | None => NaN
  end.

(** [str.substring(b, e)] for [0 <= b <= e]; both ends are clamped to the
    length of the string. *)
Definition substring (str : jsstring) (b e : nat) : jsstring :=
  take (e - b) (drop b str).

(** [str.substr(b, n)] for [0 <= b]. *)
Definition substr (str : jsstring) (b n : nat) : jsstring :=
  take n (drop b str).

(** [startsWith p s]: [p] is a prefix of [s]. *)
Fixpoint startsWith (p s : jsstring) : bool :=
  match p, s with
  | [], _ => true
  | _ :: _, [] => false
  | a :: p', b :: s' => (a =? b)%N && startsWith p' s'
  end.

(** [str.indexOf(p)]: position of the first occurrence, or [-1]. *)
Fixpoint indexOf (str p : jsstring) : Z :=
  if startsWith p str then 0
  else match str with
       | [] => -1
       | _ :: str' =>
           let k := indexOf str' p in
           if k <? 0 then -1 else k + 1
       end.

(** [str.split(sep)] for a one-character separator. *)
Fixpoint split (sep : N) (str : jsstring) : list jsstring :=
  match str with
  | [] => [[]]
  | c :: str' =>
      if (c =? sep)%N then [] :: split sep str'
      else match split sep str' with
           | p :: ps => (c :: p) :: ps
           | [] => [[c]]
           end
  end.

(** White space and line terminators removed by [trim()]. *)
Definition isWhiteSpace (c : N) : bool :=
  ((9 <=? c) && (c <=? 13) || (c =? 32) || (c =? 160) || (c =? 5760)
   || (8192 <=? c) && (c <=? 8202) || (c =? 8232) || (c =? 8233)
   || (c =? 8239) || (c =? 8287) || (c =? 12288) || (c =? 65279))%N.

Fixpoint trimStart (s : jsstring) : jsstring :=
  match s with
  | c :: s' => if isWhiteSpace c then trimStart s' else s
  | [] => []
  end.

(** [str.trim()] *)
Definition trim (s : jsstring) : jsstring :=
  rev (trimStart (rev (trimStart s))).

(** [Buffer.from(str).length]: the length of the UTF-8 encoding.  A
    surrogate pair encodes one code point in four bytes; a lone surrogate
    is replaced by U+FFFD, three bytes. *)
Definition isHighSurrogate (c : N) : bool := ((55296 <=? c) && (c <=? 56319))%N.
Definition isLowSurrogate (c : N) : bool := ((56320 <=? c) && (c <=? 57343))%N.

Fixpoint utf8Length (s : jsstring) : nat :=
  match s with
  | [] => 0
  | c :: s' =>
      if (c <? 128)%N then 1 + utf8Length s'
      else if (c <? 2048)%N then 2 + utf8Length s'
      else if isHighSurrogate c then
        match s' with
        | d :: s'' =>
            if isLowSurrogate d then 4 + utf8Length s''
            else 3 + utf8Length s'
        | [] => 3
        end
      else 3 + utf8Length s'
  end%nat.

(** [str.charAt(i)]: the one-unit string at index [i], the empty string
    outside the string. *)
Definition charAt (str : jsstring) (i : Z) : jsstring :=
  if i <? 0 then []
  else match str !! Z.to_nat i with
       | Some c => [c]
       | None => []
       end.

(** *** Binary64 arithmetic and dates *)

(** A number that need not be an integer is a binary64 value, as the
    Standard Library specifies IEEE 754 arithmetic ([prec = 53],
    [emax = 1024]): every operation rounds its exact result to the nearest
    double, ties to even, and overflows to an infinity. *)
Abbreviation double := SpecFloat.spec_float.

(** The double an integer is read as: the nearest one. *)
Definition double_of_Z (z : Z) : double :=
  SpecFloat.binary_normalize 53 1024 z 0 false.

Definition dadd (x y : double) : double := SpecFloat.SFadd 53 1024 x y.
Definition dmul (x y : double) : double := SpecFloat.SFmul 53 1024 x y.
Definition ddiv (x y : double) : double := SpecFloat.SFdiv 53 1024 x y.

(** [x > y]; [false] when one of them is NaN. *)
Definition dgt (x y : double) : bool := SpecFloat.SFltb y x.

(** The double a fraction of two integers is read as: the nearest one,
    when numerator and denominator are doubles themselves. *)
Definition double_of_Q (q : Q) : double :=
  ddiv (double_of_Z (Qnum q)) (double_of_Z (Z.pos (Qden q))).

(** The truthiness of a number: neither [0], [-0] nor [NaN]. *)
Definition truthy (x : double) : bool :=
  match x with
  | SpecFloat.S754_zero _ | SpecFloat.S754_nan => false
  | _ => true
  end.

(** The integer part of a finite number, rounded toward zero. *)
Definition truncate (x : double) : option Z :=
  match x with
  | SpecFloat.S754_zero _ => Some 0
  | SpecFloat.S754_finite s m e =>
      let a := if 0 <=? e then Z.shiftl (Z.pos m) e
               else Z.shiftr (Z.pos m) (- e) in
      Some (if s then - a else a)
  | _ => None
  end.

(** A [Date] object: its time value in milliseconds, or an invalid date. *)
Inductive Date : Type :=
| DateValue (t : Z)
| InvalidDate.

(** [new Date(value)]: the time value is [value] rounded toward zero; the
    date is invalid when [value] is not finite or beyond 8.64e15 in
    magnitude. *)
Definition newDate (value : double) : Date :=
  match truncate value with
  | Some t => if Z.abs t <=? 8640000000000000 then DateValue t
              else InvalidDate
  | None => InvalidDate
  end.

(** [date.getTime()]: [NaN] for an invalid date. *)
Definition getTime (date : Date) : double :=
  match date with
  | DateValue t => double_of_Z t
  | InvalidDate => SpecFloat.S754_nan
  end.

End JS.

(** ** [src/utils.ts] *)

Module Utils.
Import JS.

(** The body of the loop of [fastHashBetween], [n] iterations from [idx]. *)
Fixpoint fastHashBetween_loop (str : jsstring) (idx n : nat) (hash : number)
  : number :=
  match n with
  | O => hash
  | S n' =>
      fastHashBetween_loop str (S idx) n'
        (add (mul (Num 33) hash) (charCodeAt str idx))
  end.

Definition fastHashBetween (str : jsstring) (begin end_ : nat) : number :=
  fastHashBetween_loop str begin (end_ - begin) (Num 5381).

Definition fastHash (str : jsstring) : number :=
  match str with
  | [] => Num 0
  | _ => fastHashBetween str 0 (length str)
  end.

(** The loop of [splitByDelimiterWithEscapeCharacter] over the characters
    still to read; [prev] is the character before the current one ([None]
    at index 0), [sb] the characters collected for the current part. *)
Fixpoint splitByDelimiter_loop (delimiter escapeCharacter : jsstring)
    (preserveAllTokens : bool) (prev : option N) (rest : jsstring)
    (sb : jsstring) (parts : list jsstring) : jsstring * list jsstring :=
  match rest with
  | [] => (sb, parts)
  | c :: rest' =>
      let '(sb', parts') :=
        if bool_decide ([c] = delimiter) then
          match prev with
          | None => (sb, parts)
          | Some p =>
              if bool_decide ([p] = escapeCharacter) then
                (removelast sb ++ [c], parts)
              else if preserveAllTokens || (0 <? length sb)%nat then
                ([], parts ++ [sb])
              else (sb, parts)
          end
        else (sb ++ [c], parts) in
      splitByDelimiter_loop delimiter escapeCharacter preserveAllTokens
                            (Some c) rest' sb' parts'
  end.

Definition splitByDelimiterWithEscapeCharacter (str delimiter
    escapeCharacter : jsstring) (preserveAllTokens : bool) : list jsstring :=
  match str with
  | [] => []
  | _ =>
      let '(sb, parts) :=
        splitByDelimiter_loop delimiter escapeCharacter preserveAllTokens
                              None str [] [] in
      if preserveAllTokens || (0 <? length sb)%nat then parts ++ [sb]
      else parts
  end.

(** The loop of [startsAtIndexWith]: [n] iterations from index [i]. *)
Fixpoint startsAtIndexWith_loop (str : jsstring) (startIndex : Z)
    (substr : jsstring) (i n : nat) : bool :=
  match n with
  | O => true
  | S n' =>
      if bool_decide (charAt str (startIndex + Z.of_nat i)
                      = charAt substr (Z.of_nat i))
      then startsAtIndexWith_loop str startIndex substr (S i) n'
      else false
  end.

Definition startsAtIndexWith (str : jsstring) (startIndex : Z)
    (substr : jsstring) : bool :=
  if Z.of_nat (length str) - startIndex <? Z.of_nat (length substr) then false
  else startsAtIndexWith_loop str startIndex substr 0 (length substr).

(** The loop of [indexOfAny]: [n] iterations from index [i].  [chars] is an
    array of strings, searched for the one-unit string [charAt(i)]. *)
Fixpoint indexOfAny_loop (str : jsstring) (chars : list jsstring) (i : Z)
    (n : nat) : Z :=
  match n with
  | O => -1
  | S n' =>
      if bool_decide (charAt str i ∈ chars) then i
      else indexOfAny_loop str chars (i + 1) n'
  end.

Definition indexOfAny (str : jsstring) (chars : list jsstring) (start : Z)
  : Z :=
  if Z.of_nat (length str) <=? start then -1
  else indexOfAny_loop str chars start (Z.to_nat (Z.of_nat (length str) - start)).

(** The loop of [stringArraysEquals]: [n] iterations from index [i]. *)
Fixpoint stringArraysEquals_loop (l r : list jsstring) (i n : nat) : bool :=
  match n with
  | O => true
  | S n' =>
      if bool_decide (l !! i = r !! i)
      then stringArraysEquals_loop l r (S i) n'
      else false
  end.

(** [null] arrays are [None]. *)
Definition stringArraysEquals (l r : option (list jsstring)) : bool :=
  match l, r with
  | Some l', Some r' =>
      if negb (length l' =? length r')%nat then false
      else stringArraysEquals_loop l' r' 0 (length l')
  | None, None => true
  | _, _ => false
  end.

(** *** Notions the properties are stated with *)

(** Joining the part under construction with what [split] makes of the
    rest. *)
Definition glue (sb : jsstring) (pieces : list jsstring) : list jsstring :=
  match pieces with
  | p :: ps => (sb ++ p) :: ps
  | [] => [sb]
  end.

End Utils.

(** ** Collaborators whose classes are not part of the sources at hand *)

Module Model.
Import JS.

(** [Request]: the fields the engine and the cookie filter read. *)
Record Request : Type := {
  url : jsstring;
  urlLowercase : jsstring;
  sourceHostname : option jsstring;
  requestId : Z
}.

(** [CookieModifier]: the advanced modifier of a [$cookie] rule. *)
Record CookieModifier : Type := {
  matches : jsstring -> bool;
  getSameSite : option jsstring;
  getMaxAge : option Q
}.

(** [NetworkRule]: rule objects are compared by identity
    ([otherRules.includes]); the getters and [match] are the methods the
    engine and the cookie filter call. *)
Class NetworkRuleApi (NetworkRule : Type) : Type := {
  networkRule_eq_dec :: EqDecision NetworkRule;
  getShortcut : NetworkRule -> jsstring;
  getPermittedDomains : NetworkRule -> option (list jsstring);
  rule_match : NetworkRule -> Request -> bool;
  isWhitelist : NetworkRule -> bool;
  getAdvancedModifier : NetworkRule -> CookieModifier
}.

(** [RuleStorage.retrieveNetworkRule]: lookup by storage index; null when
    the index is unknown. *)
Class RuleStorageApi (NetworkRule : Type) : Type := {
  retrieveNetworkRule : Z -> option NetworkRule
}.

End Model.

(** ** [src/engine/network-engine.ts] *)

Module NetworkEngine.
Import JS Utils Model.

Definition SHORTCUT_LENGTH : nat := 5.
Definition MAX_URL_LENGTH : nat := 4 * 1024.

Section Engine.
Context {NetworkRule : Type} `{!NetworkRuleApi NetworkRule}
        `{!RuleStorageApi NetworkRule}.

Record t : Type := {
  rulesCount : Z;
  domainsLookupTable : gmap number (list Z);
  shortcutsLookupTable : gmap number (list Z);
  shortcutsHistogram : gmap number Z;
  otherRules : list NetworkRule
}.

(** The state the constructor starts from, before the storage is scanned. *)
Definition empty : t := {|
  rulesCount := 0;
  domainsLookupTable := ∅;
  shortcutsLookupTable := ∅;
  shortcutsHistogram := ∅;
  otherRules := []
|}.

(** [rulesIndexes.forEach]: retrieve each rule and keep the ones that match. *)
Definition matchIndexes (request : Request) (rulesIndexes : list Z)
  : list NetworkRule :=
  flat_map (fun ruleIdx =>
              match retrieveNetworkRule ruleIdx with
              | Some rule => if rule_match rule request then [rule] else []
              | None => []
              end) rulesIndexes.

Definition matchShortcutsLookupTable (e : t) (request : Request)
  : list NetworkRule :=
  let urlLen := length (urlLowercase request) in
  let urlLen := if (MAX_URL_LENGTH <? urlLen)%nat then MAX_URL_LENGTH else urlLen in
  flat_map (fun i =>
              let hash := fastHashBetween (urlLowercase request) i (i + SHORTCUT_LENGTH) in
              match shortcutsLookupTable e !! hash with
              | Some rulesIndexes => matchIndexes request rulesIndexes
              | None => []
              end)
           (seq 0 (urlLen + 1 - SHORTCUT_LENGTH)).

(** The rule indexes the loops of [matchShortcutsLookupTable] visit, in the
    order they are visited: for every window, the indexes stored under its
    hash. *)
Definition shortcutCandidates (e : t) (urlLowercase : jsstring) : list Z :=
  let urlLen := length urlLowercase in
  let urlLen := if (MAX_URL_LENGTH <? urlLen)%nat then MAX_URL_LENGTH else urlLen in
  flat_map (fun i =>
              let hash := fastHashBetween urlLowercase i (i + SHORTCUT_LENGTH) in
              default [] (shortcutsLookupTable e !! hash))
           (seq 0 (urlLen + 1 - SHORTCUT_LENGTH)).

(** The loop of [getSubdomains]: [i] counts the parts still to visit, the
    part visited is [parts[i - 1]]. *)
Fixpoint getSubdomains_loop (parts : list jsstring) (i : nat)
    (domain : jsstring) (subdomains : list jsstring) : list jsstring :=
  match i with
  | O => subdomains
  | S i' =>
      let part := default [] (parts !! i') in
      let domain' :=
        match domain with
        | [] => part
        | _ => part ++ js "." ++ domain
        end in
      getSubdomains_loop parts i' domain' (subdomains ++ [domain'])
  end.

Definition getSubdomains (hostname : jsstring) : list jsstring :=
  let parts := split 46%N hostname in
  getSubdomains_loop parts (length parts) [] [].

Definition matchDomainsLookupTable (e : t) (request : Request)
  : list NetworkRule :=
  match sourceHostname request with
  | None | Some [] => []
  | Some hostname =>
      flat_map (fun domain =>
                  let hash := fastHash domain in
                  match domainsLookupTable e !! hash with
                  | Some rulesIndexes => matchIndexes request rulesIndexes
                  | None => []
                  end)
               (getSubdomains hostname)
  end.

Definition matchAll (e : t) (request : Request) : list NetworkRule :=
  matchShortcutsLookupTable e request
  ++ matchDomainsLookupTable e request
  ++ filter (fun r => rule_match r request = true) (otherRules e).

Definition isAnyURLShortcut (rule : NetworkRule) : bool :=
  let shortcut := getShortcut rule in
  if (length shortcut <? 6)%nat && (indexOf shortcut (js "ws:") =? 0) then true
  else if (length shortcut <? 7)%nat && (indexOf shortcut (js "|ws") =? 0) then true
  else if (length shortcut <? 9)%nat && (indexOf shortcut (js "http") =? 0) then true
  else (length shortcut <? 10)%nat && (indexOf shortcut (js "|http") =? 0).

Definition getRuleShortcuts (rule : NetworkRule) : option (list jsstring) :=
  let shortcut := getShortcut rule in
  if (length shortcut <? SHORTCUT_LENGTH)%nat then None
  else if isAnyURLShortcut rule then None
  else Some (map (fun i => substring shortcut i (i + SHORTCUT_LENGTH))
                 (seq 0 (length shortcut - SHORTCUT_LENGTH))).

(** The [forEach] of [addRuleToShortcutsTable]: the least used shortcut, as
    the pair [(shortcutHash, minCount)]. *)
Definition leastUsedShortcut (histogram : gmap number Z)
    (shortcuts : list jsstring) : number * Z :=
  fold_left (fun '(shortcutHash, minCount) shortcutToCheck =>
               let hash := fastHash shortcutToCheck in
               let count := default 0 (histogram !! hash) in
               if count <? minCount then (hash, count)
               else (shortcutHash, minCount))
            shortcuts (Num (-1), 2147483647).

Definition addRuleToShortcutsTable (e : t) (rule : NetworkRule)
    (storageIdx : Z) : bool * t :=
  match getRuleShortcuts rule with
  | None => (false, e)
  | Some [] => (false, e)
  | Some shortcuts =>
      let '(shortcutHash, minCount) :=
        leastUsedShortcut (shortcutsHistogram e) shortcuts in
      let rulesIndexes := default [] (shortcutsLookupTable e !! shortcutHash) in
      (true,
       {| rulesCount := rulesCount e;
          domainsLookupTable := domainsLookupTable e;
          shortcutsLookupTable :=
            <[shortcutHash := rulesIndexes ++ [storageIdx]]> (shortcutsLookupTable e);
          shortcutsHistogram :=
            <[shortcutHash := minCount + 1]> (shortcutsHistogram e);
          otherRules := otherRules e |})
  end.

Definition addRuleToDomainsTable (e : t) (rule : NetworkRule)
    (storageIdx : Z) : bool * t :=
  match getPermittedDomains rule with
  | None | Some [] => (false, e)
  | Some permittedDomains =>
      (true,
       {| rulesCount := rulesCount e;
          domainsLookupTable :=
            fold_left (fun table domain =>
                         let hash := fastHash domain in
                         let rulesIndexes := default [] (table !! hash) in
                         <[hash := rulesIndexes ++ [storageIdx]]> table)
                      permittedDomains (domainsLookupTable e);
          shortcutsLookupTable := shortcutsLookupTable e;
          shortcutsHistogram := shortcutsHistogram e;
          otherRules := otherRules e |})
  end.

Definition addRule (e : t) (rule : NetworkRule) (storageIdx : Z) : t :=
  let e1 :=
    let '(added, e') := addRuleToShortcutsTable e rule storageIdx in
    if added then e'
    else
      let '(added, e'') := addRuleToDomainsTable e' rule storageIdx in
      if added then e''
      else if bool_decide (rule ∈ otherRules e'') then e''
      else {| rulesCount := rulesCount e'';
              domainsLookupTable := domainsLookupTable e'';
              shortcutsLookupTable := shortcutsLookupTable e'';
              shortcutsHistogram := shortcutsHistogram e'';
              otherRules := otherRules e'' ++ [rule] |} in
  {| rulesCount := rulesCount e1 + 1;
     domainsLookupTable := domainsLookupTable e1;
     shortcutsLookupTable := shortcutsLookupTable e1;
     shortcutsHistogram := shortcutsHistogram e1;
     otherRules := otherRules e1 |}.

(** The constructor, given the network rules the storage scanner yields
    with their storage indexes, in scan order. *)
Definition constructor (indexedRules : list (NetworkRule * Z)) : t :=
  fold_left (fun e '(rule, index) => addRule e rule index) indexedRules empty.

(** *** Notions the properties are stated with *)

(** The use count the histogram holds for a hash, 0 when it has none. *)
Definition useCount (histogram : gmap number Z) (hash : number) : Z :=
  default 0 (histogram !! hash).

(** The histogram counts what the shortcuts table holds, no list of the
    table is longer than the number of rules added, and [otherRules] holds
    no rule twice. *)
Definition consistent (e : t) : Prop :=
  0 <= rulesCount e
  /\ (forall hash,
      shortcutsHistogram e !! hash
      = (fun l => Z.of_nat (length l)) <$> (shortcutsLookupTable e !! hash))
  /\ (forall hash l, shortcutsLookupTable e !! hash = Some l ->
                     Z.of_nat (length l) <= rulesCount e)
  /\ NoDup (otherRules e).

(** Where [addRule] puts a rule: under the hash of one of its shortcuts,
    or else under the hash of each permitted domain, or else in
    [otherRules]. *)
Definition placed (e : t) (rule : NetworkRule) (storageIdx : Z) : Prop :=
  match getRuleShortcuts rule with
  | Some ((_ :: _) as shortcuts) =>
      exists w, w ∈ shortcuts
                /\ storageIdx ∈ default [] (shortcutsLookupTable e !! fastHash w)
  | _ =>
      match getPermittedDomains rule with
      | Some ((_ :: _) as permittedDomains) =>
          forall d, d ∈ permittedDomains ->
                    storageIdx ∈ default [] (domainsLookupTable e !! fastHash d)
      | _ => rule ∈ otherRules e
      end
  end.

(** What makes a matching rule visible to [matchAll]: its shortcut occurs
    in the first 4096 characters of the URL, or else one of its permitted
    domains is a subdomain suffix of the source hostname. *)
Definition findable (rule : NetworkRule) (request : Request) : Prop :=
  match getRuleShortcuts rule with
  | Some (_ :: _) =>
      exists p : nat,
        (p + length (getShortcut rule)
         <= Nat.min (length (urlLowercase request)) MAX_URL_LENGTH)%nat
        /\ take (length (getShortcut rule)) (drop p (urlLowercase request))
           = getShortcut rule
  | _ =>
      match getPermittedDomains rule with
      | Some ((_ :: _) as permittedDomains) =>
          exists hostname d,
            sourceHostname request = Some hostname /\ hostname <> []
            /\ d ∈ permittedDomains /\ d ∈ getSubdomains hostname
      | _ => True
      end
  end.

(** The request with its URL cut down to the first 4096 code units. *)
Definition truncated (request : Request) : Request :=
  {| url := take MAX_URL_LENGTH (url request);
     urlLowercase := take MAX_URL_LENGTH (urlLowercase request);
     sourceHostname := sourceHostname request;
     requestId := requestId request |}.

(** The domains the loop of [getSubdomains] builds, listed by the part they
    start with: the entry for a part is that part alone when nothing (or
    only the empty string) has been built so far, and the part, a dot and
    the previous domain otherwise. *)
Fixpoint builtDomains (parts : list jsstring) : list jsstring :=
  match parts with
  | [] => []
  | part :: rest =>
      let domains := builtDomains rest in
      match default [] (head domains) with
      | [] => part :: domains
      | domain => (part ++ js "." ++ domain) :: domains
      end
  end.

End Engine.

Arguments t NetworkRule : clear implicits.

End NetworkEngine.

(** ** [cosmetic-lookup-table.ts] *)

Module CosmeticLookupTable.
Import JS.

(** [CosmeticRule] and [DomainModifier.isWildcardDomain] are collaborators:
    the table only calls these methods. *)
Class CosmeticRuleApi (CosmeticRule : Type) : Type := {
  isWhitelist : CosmeticRule -> bool;
  getContent : CosmeticRule -> jsstring;
  isGeneric : CosmeticRule -> bool;
  getPermittedDomains : CosmeticRule -> option (list jsstring);
  rule_match : CosmeticRule -> jsstring -> bool;
  isWildcardDomain : jsstring -> bool
}.

Section Table.
Context {CosmeticRule : Type} `{!CosmeticRuleApi CosmeticRule}.

(** The arrays held by the two maps are JavaScript objects: each one is
    created by [addRule] for one key and is reachable through that key
    only, so [push] on an array obtained from [get] is an update of the
    entry itself. *)
Record t : Type := {
  byHostname : gmap jsstring (list CosmeticRule);
  wildcardRules : list CosmeticRule;
  genericRules : list CosmeticRule;
  whitelist : gmap jsstring (list CosmeticRule)
}.

(** The constructor. *)
Definition new : t := {|
  byHostname := ∅;
  wildcardRules := [];
  genericRules := [];
  whitelist := ∅
|}.

Definition addRule (tbl : t) (rule : CosmeticRule) : t :=
  if isWhitelist rule then
    let ruleContent := getContent rule in
    let existingRules := default [] (whitelist tbl !! ruleContent) in
    {| byHostname := byHostname tbl;
       wildcardRules := wildcardRules tbl;
       genericRules := genericRules tbl;
       whitelist := <[ruleContent := existingRules ++ [rule]]> (whitelist tbl) |}
  else if isGeneric rule then
    {| byHostname := byHostname tbl;
       wildcardRules := wildcardRules tbl;
       genericRules := genericRules tbl ++ [rule];
       whitelist := whitelist tbl |}
  else
    match getPermittedDomains rule with
    | None => tbl
    | Some domains =>
        if existsb isWildcardDomain domains then
          {| byHostname := byHostname tbl;
             wildcardRules := wildcardRules tbl ++ [rule];
             genericRules := genericRules tbl;
             whitelist := whitelist tbl |}
        else
          {| byHostname :=
               fold_left (fun m domain =>
                            let rules := default [] (m !! domain) in
                            <[domain := rules ++ [rule]]> m)
                         domains (byHostname tbl);
             wildcardRules := wildcardRules tbl;
             genericRules := genericRules tbl;
             whitelist := whitelist tbl |}
    end.

(** [findByHostname] returns the rule list and the table as the call leaves
    it: when [byHostname] has an entry for [hostname], [rules] is the array
    stored there and [rules.push] extends it. *)
Definition findByHostname (tbl : t) (hostname : jsstring)
  : list CosmeticRule * t :=
  let matching :=
    filter (fun r => rule_match r hostname = true) (wildcardRules tbl) in
  match byHostname tbl !! hostname with
  | Some stored =>
      let rules := stored ++ matching in
      (filter (fun rule => isWhitelist rule = false) rules,
       {| byHostname := <[hostname := rules]> (byHostname tbl);
          wildcardRules := wildcardRules tbl;
          genericRules := genericRules tbl;
          whitelist := whitelist tbl |})
  | None =>
      let rules := [] ++ matching in
      (filter (fun rule => isWhitelist rule = false) rules, tbl)
  end.

Definition isWhitelisted (tbl : t) (hostname : jsstring) (rule : CosmeticRule)
  : bool :=
  match whitelist tbl !! getContent rule with
  | None => false
  | Some whitelistedRules =>
      existsb (fun whitelistedRule => rule_match whitelistedRule hostname)
              whitelistedRules
  end.

(** Tables built by a sequence of [addRule] calls on a new table. *)
Inductive built : t -> Prop :=
| built_new : built new
| built_addRule tbl rule : built tbl -> built (addRule tbl rule).

(** Tables reached when lookups are interleaved with the insertions. *)
Inductive reachable : t -> Prop :=
| reachable_new : reachable new
| reachable_addRule tbl rule : reachable tbl -> reachable (addRule tbl rule)
| reachable_find tbl hostname :
    reachable tbl -> reachable (snd (findByHostname tbl hostname)).

(** *** Notions the properties are stated with *)

Definition notWhitelist (r : CosmeticRule) : Prop := isWhitelist r = false.

(** The table the given rules build: a new table to which they are added
    in order. *)
Definition fromRules (rules : list CosmeticRule) : t :=
  fold_left addRule rules new.

(** The rules [addRule] appends to [genericRules], and the ones it appends
    to [wildcardRules]. *)
Definition keptGeneric (rule : CosmeticRule) : bool :=
  negb (isWhitelist rule) && isGeneric rule.

Definition keptWildcard (rule : CosmeticRule) : bool :=
  negb (isWhitelist rule) && negb (isGeneric rule)
  && match getPermittedDomains rule with
     | Some domains => existsb isWildcardDomain domains
     | None => false
     end.

(** Where the rules of a table are kept: whitelist rules in [whitelist],
    under their content, and nowhere else. *)
Definition separated (tbl : t) : Prop :=
  (forall hostname rules,
      byHostname tbl !! hostname = Some rules -> Forall notWhitelist rules)
  /\ Forall notWhitelist (wildcardRules tbl)
  /\ Forall notWhitelist (genericRules tbl)
  /\ (forall content rules,
        whitelist tbl !! content = Some rules ->
        Forall (fun r => isWhitelist r = true /\ getContent r = content) rules).

End Table.

Arguments t CosmeticRule : clear implicits.

End CosmeticLookupTable.

(** ** [src/filterlist/scanner/rule-scanner.ts] *)

Module RuleScanner.
Import JS.

(** [RuleBuilder.createRule] and [IRule.isCosmetic] are collaborators. *)
Class RuleBuilderApi (IRule : Type) : Type := {
  createRule : jsstring -> Z -> option IRule;
  isCosmetic : IRule -> bool
}.

Section Scanner.
Context {IRule : Type} `{!RuleBuilderApi IRule}.

(** An [ILineReader] is represented by the lines it has yet to yield:
    [readLine()] hands out the first of them, and [null] when none is
    left. *)
Abbreviation ILineReader := (list jsstring).

Definition readLine (reader : ILineReader) : option jsstring * ILineReader :=
  match reader with
  | [] => (None, [])
  | line :: rest => (Some line, rest)
  end.

Record t : Type := {
  listId : Z;
  ignoreCosmetic : bool;
  reader : ILineReader;
  currentRule : option IRule;
  currentRuleIndex : nat;
  currentPos : nat
}.

(** The constructor. *)
Definition new (r : ILineReader) (id : Z) (ignore : bool) : t := {|
  listId := id;
  ignoreCosmetic := ignore;
  reader := r;
  currentRule := None;
  currentRuleIndex := 0;
  currentPos := 0
|}.

Record IndexedRule : Type := {
  rule : IRule;
  index : nat
}.

Definition isIgnored (s : t) (r : IRule) : bool :=
  if negb (ignoreCosmetic s) then false else isCosmetic r.

(** [readNextLine]: a non-empty line advances [currentPos] by its UTF-8
    length and is returned trimmed; [null] and the empty string are returned
    as they are. *)
Definition readNextLine (s : t) : option jsstring * t :=
  let '(line, reader') := readLine (reader s) in
  let s' := {| listId := listId s; ignoreCosmetic := ignoreCosmetic s;
               reader := reader'; currentRule := currentRule s;
               currentRuleIndex := currentRuleIndex s;
               currentPos := currentPos s |} in
  match line with
  | Some ((_ :: _) as l) =>
      (Some (trim l),
       {| listId := listId s'; ignoreCosmetic := ignoreCosmetic s';
          reader := reader s'; currentRule := currentRule s';
          currentRuleIndex := currentRuleIndex s';
          currentPos := currentPos s' + utf8Length l |})
  | _ => (line, s')
  end.

(** The [while (true)] loop of [scan], run for at most [fuel] iterations;
    [None] stands for an exhausted [fuel]. *)
Fixpoint scan_loop (fuel : nat) (s : t) : option (bool * t) :=
  match fuel with
  | O => None
  | S fuel' =>
      let lineIndex := currentPos s in
      let '(line, s1) := readNextLine s in
      match line with
      | None => Some (false, s1)
      | Some [] => scan_loop fuel' s1
      | Some l =>
          match createRule l (listId s1) with
          | Some r =>
              if negb (isIgnored s1 r) then
                Some (true,
                      {| listId := listId s1; ignoreCosmetic := ignoreCosmetic s1;
                         reader := reader s1; currentRule := Some r;
                         currentRuleIndex := lineIndex;
                         currentPos := currentPos s1 |})
              else scan_loop fuel' s1
          | None => scan_loop fuel' s1
          end
      end
  end.

(** Every iteration that does not return consumes one line of the reader,
    so one more iteration than there are lines is enough. *)
Definition scan (s : t) : option (bool * t) :=
  scan_loop (S (length (reader s))) s.

Definition getRule (s : t) : option IndexedRule :=
  match currentRule s with
  | Some r => Some {| rule := r; index := currentRuleIndex s |}
  | None => None
  end.

(** [n] successive calls of [scan()], each followed by [getRule()], up to
    the first call that returns [false]. *)
Fixpoint scanMany (n : nat) (s : t) : list IndexedRule :=
  match n with
  | O => []
  | S n' =>
      match scan s with
      | Some (true, s') =>
          match getRule s' with
          | Some ir => ir :: scanMany n' s'
          | None => scanMany n' s'
          end
      | _ => []
      end
  end.

(** A reader over physical lines: every line but the last ends with the
    newline it was cut at, and no line is empty. *)
Definition endsWithNewline (l : jsstring) : Prop := last l = Some 10%N.

Fixpoint physicalLines (lines : list jsstring) : Prop :=
  match lines with
  | [] => True
  | [l] => l <> []
  | l :: rest => endsWithNewline l /\ physicalLines rest
  end.

(** The scanner after [readLine()] handed out [line]. *)
Definition advance (s : t) (line : jsstring) (rest : list jsstring) : t :=
  {| listId := listId s; ignoreCosmetic := ignoreCosmetic s; reader := rest;
     currentRule := currentRule s; currentRuleIndex := currentRuleIndex s;
     currentPos := currentPos s + utf8Length line |}.

(** The rule a line yields, if any: the line and its trimmed text are not
    empty, [createRule] builds a rule from the trimmed text, and the scanner
    does not ignore that rule. *)
Definition ruleOfLine (id : Z) (ignore : bool) (line : jsstring)
  : option IRule :=
  match line with
  | [] => None
  | _ =>
      match trim line with
      | [] => None
      | text =>
          match createRule text id with
          | Some r => if ignore && isCosmetic r then None else Some r
          | None => None
          end
      end
  end.

(** The rules of a list of lines, each with the number of bytes of the
    lines before its own, counted from [pos]. *)
Fixpoint rulesOf (id : Z) (ignore : bool) (pos : nat)
    (lines : list jsstring) : list IndexedRule :=
  match lines with
  | [] => []
  | line :: rest =>
      match ruleOfLine id ignore line with
      | Some r => [{| rule := r; index := pos |}]
      | None => []
      end ++ rulesOf id ignore (pos + utf8Length line) rest
  end.

End Scanner.

Arguments t IRule : clear implicits.
Arguments IndexedRule IRule : clear implicits.

End RuleScanner.

(** ** [CookieUtils] and [CookieFiltering] (in [src/utils.ts]) *)

Module CookieUtils.
Import JS.

Record Cookie : Type := {
  name : jsstring;
  value : jsstring
}.

(** [cookieValue.split(/; */)]: a separator is a semicolon with the spaces
    that follow it; [skipping] is set while those spaces are consumed. *)
Fixpoint splitPairs (skipping : bool) (s : jsstring) : list jsstring :=
  match s with
  | [] => [[]]
  | c :: s' =>
      if skipping && (c =? 32)%N then splitPairs true s'
      else if (c =? 59)%N then [] :: splitPairs true s'
      else match splitPairs false s' with
           | p :: ps => (c :: p) :: ps
           | [] => [[c]]
           end
  end.

Definition parseCookie (cookieValue : jsstring) : list Cookie :=
  let pairs := splitPairs false cookieValue in
  flat_map (fun pair =>
              let eqIdx := indexOf pair (js "=") in
              if eqIdx <? 0 then []
              else
                let key := trim (substr pair 0 (Z.to_nat eqIdx)) in
                let value := trim (substr pair (Z.to_nat (eqIdx + 1)) (length pair)) in
                [{| name := key; value := value |}])
           pairs.

(** *** Notions the properties are stated with *)

(** A cookie as a header can carry it: name and value are trimmed and hold
    no semicolon, and the name holds no equals sign. *)
Definition clean (c : Cookie) : Prop :=
  trim (name c) = name c /\ trim (value c) = value c
  /\ (59%N ∉ name c) /\ (59%N ∉ value c) /\ (61%N ∉ name c).

End CookieUtils.

Module CookieFiltering.
Import JS Model.

(** [String.prototype.toLowerCase] follows the Unicode case mappings of the
    runtime; it is taken as given. *)
Class StringApi : Type := {
  toLowerCase : jsstring -> jsstring
}.

Record Header : Type := {
  name : jsstring;
  value : jsstring
}.

(** [BrowserCookie]: the fields the filter reads and writes; an absent
    field is [None]. *)
Record BrowserCookie : Type := {
  sameSite : option jsstring;
  maxAge : option double;
  expires : option Date
}.

(** [updateSetCookieMaxAge]; [now] is the value of [Date.now()], an integer
    number of milliseconds.  All the arithmetic is binary64, as in the
    source: the divisions by 1000, the two sums, the comparison and the
    product by 1000; [new Date] then drops the fraction of a
    millisecond. *)
Definition updateSetCookieMaxAge (now : Z) (setCookie : BrowserCookie)
    (maxAge' : double) : bool * BrowserCookie :=
  let currentTimeSec := ddiv (double_of_Z now) (double_of_Z 1000) in
  let cookieExpiresTimeSec : option double :=
    match maxAge setCookie with
    | Some m =>
        if truthy m then Some (dadd currentTimeSec m)
        else match expires setCookie with
             | Some d => Some (ddiv (getTime d) (double_of_Z 1000))
             | None => None
             end
    | None =>
        match expires setCookie with
        | Some d => Some (ddiv (getTime d) (double_of_Z 1000))
        | None => None
        end
    end in
  let newCookieExpiresTimeSec := dadd currentTimeSec maxAge' in
  let change :=
    match cookieExpiresTimeSec with
    | None => true
    | Some t => dgt t newCookieExpiresTimeSec
    end in
  if change then
    match expires setCookie with
    | Some _ =>
        (true,
         {| sameSite := sameSite setCookie;
            maxAge := maxAge setCookie;
            expires :=
              Some (newDate (dmul newCookieExpiresTimeSec
                                  (double_of_Z 1000))) |})
    | None =>
        (true,
         {| sameSite := sameSite setCookie;
            maxAge := Some maxAge';
            expires := expires setCookie |})
    end
  else (false, setCookie).

Section Filter.
Context {NetworkRule : Type} `{!NetworkRuleApi NetworkRule} `{!StringApi}.

(** An entry of [cookiesMap]. *)
Record Entry : Type := {
  remove : bool;
  cookie_name : jsstring;
  cookie_url : jsstring;
  rules : list NetworkRule
}.

Definition isModifyingRule (rule : NetworkRule) : bool :=
  let cookieModifier := getAdvancedModifier rule in
  match getSameSite cookieModifier with
  | Some _ => true
  | None =>
      match getMaxAge cookieModifier with
      | Some m => negb (Qle_bool m 0)
      | None => false
      end
  end.

Fixpoint lookupNotModifyingRule (cookieName : jsstring)
    (rules : list NetworkRule) : option NetworkRule :=
  match rules with
  | [] => None
  | rule :: rest =>
      let cookieModifier := getAdvancedModifier rule in
      if matches cookieModifier cookieName && negb (isModifyingRule rule)
      then Some rule
      else lookupNotModifyingRule cookieName rest
  end.

(** The loop of [lookupModifyingRules], with [result] as accumulated so
    far. *)
Fixpoint lookupModifyingRules_loop (cookieName : jsstring)
    (rules : list NetworkRule) (result : list NetworkRule)
  : list NetworkRule :=
  match rules with
  | [] => result
  | rule :: rest =>
      let cookieModifier := getAdvancedModifier rule in
      if negb (matches cookieModifier cookieName) then
        lookupModifyingRules_loop cookieName rest result
      else if negb (isModifyingRule rule) then []
      else lookupModifyingRules_loop cookieName rest (result ++ [rule])
  end.

Definition lookupModifyingRules (cookieName : jsstring)
    (rules : list NetworkRule) : list NetworkRule :=
  lookupModifyingRules_loop cookieName rules [].

(** [findHeaderByName] returns the header object itself; its position in the
    array stands for that identity. *)
Fixpoint findHeaderByName_from (i : nat) (headers : list Header)
    (headerName : jsstring) : option (nat * Header) :=
  match headers with
  | [] => None
  | header :: rest =>
      if bool_decide (toLowerCase (name header) = toLowerCase headerName)
      then Some (i, header)
      else findHeaderByName_from (S i) rest headerName
  end.

Definition findHeaderByName (headers : list Header) (headerName : jsstring)
  : option (nat * Header) :=
  findHeaderByName_from 0 headers headerName.

Definition scheduleProcessingCookie (cookiesMap : gmap Z (list Entry))
    (requestId : Z) (name url : jsstring) (rules : list NetworkRule)
    (remove : bool) : gmap Z (list Entry) :=
  let values := default [] (cookiesMap !! requestId) in
  <[requestId := values ++ [{| remove := remove; cookie_name := name;
                               cookie_url := url; rules := rules |}]]> cookiesMap.

(** The [while (iCookies > 0)] loop of [processRequestHeaders].  [None]
    stands for the [TypeError] that reading [cookie.name] raises when
    [cookies[iCookies]] is [undefined]. *)
Fixpoint processCookies (requestId : Z) (url : jsstring)
    (cookieRules : list NetworkRule) (iCookies : nat)
    (cookies : list CookieUtils.Cookie) (cookieHeaderModified : bool)
    (cookiesMap : gmap Z (list Entry))
  : option (list CookieUtils.Cookie * bool * gmap Z (list Entry)) :=
  match iCookies with
  | O => Some (cookies, cookieHeaderModified, cookiesMap)
  | S i =>
      match cookies !! i with
      | None => None
      | Some cookie =>
          let cookieName := CookieUtils.name cookie in
          let '(cookies1, modified1, map1) :=
            match lookupNotModifyingRule cookieName cookieRules with
            | Some bRule =>
                let '(cookies', modified') :=
                  if negb (isWhitelist bRule) then (delete i cookies, true)
                  else (cookies, cookieHeaderModified) in
                (cookies', modified',
                 scheduleProcessingCookie cookiesMap requestId cookieName url
                                          [bRule] true)
            | None => (cookies, cookieHeaderModified, cookiesMap)
            end in
          let mRules := lookupModifyingRules cookieName cookieRules in
          let map2 :=
            match mRules with
            | [] => map1
            | _ => scheduleProcessingCookie map1 requestId cookieName url
                                            mRules false
            end in
          processCookies requestId url cookieRules i cookies1 modified1 map2
      end
  end.

(** [cookies.map((c) => `${c.name}=${c.value}`).join('; ')] *)
Fixpoint joinCookies (cookies : list CookieUtils.Cookie) : jsstring :=
  match cookies with
  | [] => []
  | [c] => CookieUtils.name c ++ js "=" ++ CookieUtils.value c
  | c :: rest =>
      CookieUtils.name c ++ js "=" ++ CookieUtils.value c ++ js "; "
      ++ joinCookies rest
  end.

(** [processRequestHeaders]: the result, the request headers and the
    schedule map as the call leaves them; [None] when the call throws. *)
Definition processRequestHeaders (cookiesMap : gmap Z (list Entry))
    (request : Request) (requestHeaders : list Header)
    (cookieRules : list NetworkRule)
  : option (bool * list Header * gmap Z (list Entry)) :=
  match cookieRules with
  | [] => Some (false, requestHeaders, cookiesMap)
  | _ =>
      match findHeaderByName requestHeaders (js "Cookie") with
      | None => Some (false, requestHeaders, cookiesMap)
      | Some (pos, cookieHeader) =>
          let cookies := CookieUtils.parseCookie (value cookieHeader) in
          match cookies with
          | [] => Some (false, requestHeaders, cookiesMap)
          | _ =>
              match processCookies (requestId request) (url request) cookieRules
                                   (length cookies) cookies false cookiesMap with
              | None => None
              | Some (cookies', cookieHeaderModified, cookiesMap') =>
                  let requestHeaders' :=
                    if cookieHeaderModified then
                      <[pos := {| name := name cookieHeader;
                                  value := joinCookies cookies' |}]> requestHeaders
                    else requestHeaders in
                  Some (cookieHeaderModified, requestHeaders', cookiesMap')
              end
          end
      end
  end.

(** *** Notions the properties are stated with *)

(** A rule applies to a cookie when its modifier matches the name. *)
Definition appliesTo (cookieName : jsstring) (rule : NetworkRule) : bool :=
  matches (getAdvancedModifier rule) cookieName.

(** The entries scheduled for a request. *)
Definition entriesOf (cookiesMap : gmap Z (list Entry))
    (requestId : Z) : list Entry :=
  default [] (cookiesMap !! requestId).

(** A cookie is blocked when the first rule that applies to its name and
    is not modifying is not a whitelist rule. *)
Definition blocked (cookieRules : list NetworkRule) (cookieName : jsstring)
  : bool :=
  match lookupNotModifyingRule cookieName cookieRules with
  | Some bRule => negb (isWhitelist bRule)
  | None => false
  end.

(** The entries one cookie of the header gets scheduled. *)
Definition entriesFor (url : jsstring) (cookieRules : list NetworkRule)
    (cookieName : jsstring) : list Entry :=
  match lookupNotModifyingRule cookieName cookieRules with
  | Some bRule => [{| remove := true; cookie_name := cookieName;
                      cookie_url := url; rules := [bRule] |}]
  | None => []
  end
  ++ match lookupModifyingRules cookieName cookieRules with
     | [] => []
     | mRules => [{| remove := false; cookie_name := cookieName;
                     cookie_url := url; rules := mRules |}]
     end.

(** What a [remove: false] entry scheduled for [cookieRules] looks like. *)
Definition modifyEntryOk (cookieRules : list NetworkRule)
    (e : Entry) : Prop :=
  remove e = false ->
  rules e <> []
  /\ rules e = lookupModifyingRules (cookie_name e) cookieRules
  /\ forall r, r ∈ cookieRules -> appliesTo (cookie_name e) r = true ->
               isModifyingRule r = true.

(** [cookiesMap'] is [cookiesMap] with further entries scheduled for
    [requestId], every [remove: false] one of them as described above. *)
Definition extends (cookieRules : list NetworkRule) (requestId : Z)
    (cookiesMap cookiesMap' : gmap Z (list Entry)) : Prop :=
  (exists scheduled,
      entriesOf cookiesMap' requestId = entriesOf cookiesMap requestId ++ scheduled
      /\ Forall (modifyEntryOk cookieRules) scheduled)
  /\ forall other, other <> requestId -> cookiesMap' !! other = cookiesMap !! other.

End Filter.

Arguments Entry NetworkRule : clear implicits.

(** [CookieApi], the interface of the cookie manager: [World] is the state
    of the browser's cookie store, which [removeCookie] and [modifyCookie]
    change and [getCookies] reads. *)
Module CookieManager.

Class CookieApi (World : Type) : Type := {
  removeCookie : World -> jsstring -> jsstring -> World;
  modifyCookie : World -> BrowserCookie -> jsstring -> World;
  getCookies : World -> jsstring -> jsstring -> list BrowserCookie
}.

End CookieManager.

Section Browser.
Context {NetworkRule : Type} `{!NetworkRuleApi NetworkRule}.
Context {World : Type} `{!CookieManager.CookieApi World}.

(** [dateNow k] is the value of the [k]-th reading of [Date.now()]; the
    number of readings made so far is threaded through the calls. *)
Variable dateNow : nat -> Z.

(** The loop of [applyRuleToBrowserCookie]: the applied rules, the cookie
    as the rules leave it, and the number of clock readings.  The modifier
    gives the value of its [maxAge] as a rational; it is handed to
    [updateSetCookieMaxAge] as the double of that value. *)
Fixpoint applyRuleToBrowserCookie_loop (reads : nat) (cookie : BrowserCookie)
    (rules appliedRules : list NetworkRule)
  : list NetworkRule * BrowserCookie * nat :=
  match rules with
  | [] => (appliedRules, cookie, reads)
  | rule :: rest =>
      let cookieModifier := getAdvancedModifier rule in
      let '(cookie1, modified1) :=
        match getSameSite cookieModifier with
        | Some ((_ :: _) as sameSite') =>
            if bool_decide (sameSite cookie <> Some sameSite') then
              ({| sameSite := Some sameSite'; maxAge := maxAge cookie;
                  expires := expires cookie |}, true)
            else (cookie, false)
        | _ => (cookie, false)
        end in
      let '(cookie2, modified2, reads2) :=
        match getMaxAge cookieModifier with
        | Some maxAge' =>
            if Qeq_bool maxAge' 0 then (cookie1, modified1, reads)
            else
              let '(changed, cookie') :=
                updateSetCookieMaxAge (dateNow reads) cookie1
                                      (double_of_Q maxAge') in
              (cookie', if changed then true else modified1, S reads)
        | None => (cookie1, modified1, reads)
        end in
      applyRuleToBrowserCookie_loop reads2 cookie2 rest
        (if modified2 then appliedRules ++ [rule] else appliedRules)
  end.

Definition applyRuleToBrowserCookie (reads : nat) (cookie : BrowserCookie)
    (rules : list NetworkRule) : list NetworkRule * BrowserCookie * nat :=
  applyRuleToBrowserCookie_loop reads cookie rules [].

(** [modifyCookie]: every cookie [getCookies] returns is run through the
    rules and written back when some rule was applied. *)
Definition modifyCookie (world : World) (reads : nat) (name url : jsstring)
    (rules : list NetworkRule) : World * nat :=
  let cookies := CookieManager.getCookies world name url in
  fold_left (fun '(world, reads) cookie =>
               let '(mRules, cookie', reads') :=
                 applyRuleToBrowserCookie reads cookie rules in
               match mRules with
               | [] => (world, reads')
               | _ => (CookieManager.modifyCookie world cookie' url, reads')
               end)
            cookies (world, reads).

(** [modifyCookies]: the function has no [await], so it runs to its end
    when it is called. *)
Definition modifyCookies (cookiesMap : gmap Z (list (Entry NetworkRule)))
    (world : World) (reads : nat) (requestId : Z)
  : gmap Z (list (Entry NetworkRule)) * World * nat :=
  match cookiesMap !! requestId with
  | None | Some [] => (cookiesMap, world, reads)
  | Some values =>
      let '(world', reads') :=
        fold_left (fun '(world, reads) value =>
                     if remove value then
                       (CookieManager.removeCookie world (cookie_name value)
                                                   (cookie_url value), reads)
                     else
                       modifyCookie world reads (cookie_name value)
                                    (cookie_url value) (rules value))
                  values (world, reads) in
      (delete requestId cookiesMap, world', reads')
  end.

End Browser.

End CookieFiltering.

(** ** Reference definitions the properties are stated against *)

Module Spec.
Import JS.

(** djb2 over exact integers: [h0 = 5381], [h_{i+1} = 33 * h_i + c_i]. *)
Definition djb2_from (codes : jsstring) (h : Z) : Z :=
  fold_left (fun h c => 33 * h + Z.of_N c) codes h.

Definition djb2 (codes : jsstring) : Z := djb2_from codes 5381.

(** The same fold with every product and sum rounded to a double. *)
Definition djb2_step (h : number) (c : N) : number :=
  add (mul (Num 33) h) (Num (Z.of_N c)).

Definition djb2_number (codes : jsstring) : number :=
  fold_left djb2_step codes (Num 5381).

(** All windows of [n] consecutive code units, from left to right. *)
Definition windows (n : nat) (s : jsstring) : list jsstring :=
  map (fun i => take n (drop i s)) (seq 0 (length s + 1 - n)).

(** The suffixes of a hostname that start at a label, the most specific
    (the hostname itself) first and the last label (the TLD) last. *)
Fixpoint afterDots (h : jsstring) : list jsstring :=
  match h with
  | [] => []
  | c :: h' => if (c =? 46)%N then h' :: afterDots h' else afterDots h'
  end.

Definition dotSuffixes (h : jsstring) : list jsstring := h :: afterDots h.

(** The rational number a finite double is. *)
Definition valueOf (x : double) : option Q :=
  match x with
  | SpecFloat.S754_zero _ => Some 0%Q
  | SpecFloat.S754_finite s m e =>
      let v := if 0 <=? e then inject_Z (Z.shiftl (Z.pos m) e)
               else Qmake (Z.pos m) (Pos.pow 2 (Z.to_pos (- e))) in
      Some (if s then - v else v)%Q
  | _ => None
  end.

(** The expiry time of a browser cookie in seconds since the epoch, in
    exact arithmetic: a [maxAge] that is set counts from [now] and takes
    precedence over [expires]; a cookie with neither has no expiry. *)
Definition expiryTimeSec (now : Z) (c : CookieFiltering.BrowserCookie)
  : option Q :=
  match CookieFiltering.maxAge c with
  | Some m =>
      match valueOf m with
      | Some v => Some (inject_Z now / 1000 + v)%Q
      | None => None
      end
  | None =>
      match CookieFiltering.expires c with
      | Some (DateValue d) => Some (inject_Z d / 1000)%Q
      | _ => None
      end
  end.

End Spec.

(** ** Sample collaborators, used to run the embedding on concrete inputs *)

Module Sample.
Import JS Model.

(** A network rule given by the values its getters return.  [match] is the
    plain containment test of the shortcut in the lower-cased URL, and the
    [$cookie] modifier matches the cookie of the same name (every cookie
    when the name is empty). *)
Record NetworkRule : Type := {
  text : jsstring;
  shortcut : jsstring;
  permittedDomains : option (list jsstring);
  whitelist : bool;
  cookieName : jsstring;
  cookieSameSite : option jsstring;
  cookieMaxAge : option Z
}.

#[global] Instance sampleRule_eq_dec : EqDecision NetworkRule.
Proof. solve_decision. Defined.

Definition contains (s p : jsstring) : bool := 0 <=? indexOf s p.

#[global] Instance sampleRuleApi : NetworkRuleApi NetworkRule := {|
  getShortcut := shortcut;
  getPermittedDomains := permittedDomains;
  rule_match := fun r request => contains (urlLowercase request) (shortcut r);
  isWhitelist := whitelist;
  getAdvancedModifier := fun r =>
    {| matches := fun n =>
         match cookieName r with
         | [] => true
         | _ => bool_decide (cookieName r = n)
         end;
       getSameSite := cookieSameSite r;
       getMaxAge := inject_Z <$> cookieMaxAge r |}
|}.

(** A storage that holds the given rules at the indexes [0, 1, ...]. *)
Definition storageOf (rs : list NetworkRule) : RuleStorageApi NetworkRule :=
  {| retrieveNetworkRule := fun idx =>
       if idx <? 0 then None else rs !! Z.to_nat idx |}.

(** ASCII lower-casing, the restriction of [toLowerCase] to ASCII names. *)
Definition asciiLower (c : N) : N :=
  if ((65 <=? c) && (c <=? 90))%N then (c + 32)%N else c.

#[global] Instance sampleStringApi : CookieFiltering.StringApi :=
  {| CookieFiltering.toLowerCase := map asciiLower |}.

(** A cosmetic rule given by the values its getters return; [hosts] lists
    the hostnames [match] accepts. *)
Record CosmeticRule : Type := {
  content : jsstring;
  exception : bool;
  domains : option (list jsstring);
  hosts : list jsstring
}.

#[global] Instance sampleCosmeticApi
  : CosmeticLookupTable.CosmeticRuleApi CosmeticRule := {|
  CosmeticLookupTable.isWhitelist := exception;
  CosmeticLookupTable.getContent := content;
  CosmeticLookupTable.isGeneric := fun r =>
    match domains r with
    | None | Some [] => true
    | _ => false
    end;
  CosmeticLookupTable.getPermittedDomains := domains;
  CosmeticLookupTable.rule_match := fun r hostname =>
    bool_decide (hostname ∈ hosts r);
  CosmeticLookupTable.isWildcardDomain := fun d => 0 <=? indexOf d (js "*")
|}.

(** A rule builder that skips comment lines (first character [!]) and turns
    every other line into a rule holding its text; a rule is cosmetic when
    its text contains [##]. *)
#[global] Instance sampleRuleBuilder : RuleScanner.RuleBuilderApi jsstring := {|
  RuleScanner.createRule := fun line _ =>
    if startsWith (js "!") line then None else Some line;
  RuleScanner.isCosmetic := fun r => 0 <=? indexOf r (js "##")
|}.

(** A cookie store that keeps named cookies in a jar and records the
    calls that change it. *)
Inductive Call : Type :=
| RemoveCookie (name url : jsstring)
| ModifyCookie (cookie : CookieFiltering.BrowserCookie) (url : jsstring).

Record Browser : Type := {
  jar : list (jsstring * CookieFiltering.BrowserCookie);
  calls : list Call
}.

#[global] Instance sampleCookieApi
  : CookieFiltering.CookieManager.CookieApi Browser := {|
  CookieFiltering.CookieManager.removeCookie := fun w name url =>
    {| jar := filter (fun p => fst p <> name) (jar w);
       calls := calls w ++ [RemoveCookie name url] |};
  CookieFiltering.CookieManager.modifyCookie := fun w cookie url =>
    {| jar := jar w; calls := calls w ++ [ModifyCookie cookie url] |};
  CookieFiltering.CookieManager.getCookies := fun w name url =>
    map snd (filter (fun p => fst p = name) (jar w))
|}.

End Sample.

(** ** Sample rules, tables and requests *)

Module Samples.
Import JS Model.

(** The rule [abcde]: its shortcut is the whole pattern. *)
Definition rule_abcde : Sample.NetworkRule := {|
  Sample.text := js "abcde";
  Sample.shortcut := js "abcde";
  Sample.permittedDomains := None;
  Sample.whitelist := false;
  Sample.cookieName := [];
  Sample.cookieSameSite := None;
  Sample.cookieMaxAge := None
|}.

(** The rule [||example.org^]: its shortcut is [example.org]. *)
Definition rule_example_org : Sample.NetworkRule := {|
  Sample.text := js "||example.org^";
  Sample.shortcut := js "example.org";
  Sample.permittedDomains := None;
  Sample.whitelist := false;
  Sample.cookieName := [];
  Sample.cookieSameSite := None;
  Sample.cookieMaxAge := None
|}.

(** The engine holding [||example.org^] at storage index 0. *)
Definition engine_example : NetworkEngine.t Sample.NetworkRule :=
  NetworkEngine.addRule NetworkEngine.empty rule_example_org 0.

(** A request for [https://aaa...a.example.org/] with [n] letters [a]. *)
Definition request_long (n : nat) : Request :=
  let u := js "https://" ++ replicate n 97%N ++ js ".example.org/" in
  {| url := u; urlLowercase := u; sourceHostname := None; requestId := 2 |}.

Section CosmeticSamples.
Import CosmeticLookupTable.

(** [example.org##.banner] *)
Definition rule_banner : Sample.CosmeticRule := {|
  Sample.content := js ".banner";
  Sample.exception := false;
  Sample.domains := Some [js "example.org"];
  Sample.hosts := [js "example.org"]
|}.

(** [example.*##.ad], a rule with a wildcard domain. *)
Definition rule_ad : Sample.CosmeticRule := {|
  Sample.content := js ".ad";
  Sample.exception := false;
  Sample.domains := Some [js "example.*"];
  Sample.hosts := [js "example.org"; js "example.com"]
|}.

(** [example.org#@#.banner], the exception to the first rule. *)
Definition rule_banner_exception : Sample.CosmeticRule := {|
  Sample.content := js ".banner";
  Sample.exception := true;
  Sample.domains := Some [js "example.org"];
  Sample.hosts := [js "example.org"]
|}.

Definition table_example : t Sample.CosmeticRule :=
  addRule (addRule (addRule new rule_banner) rule_ad) rule_banner_exception.

End CosmeticSamples.

(** The three lines of [||example.org\n! test\n##banner]. *)
Definition lines_example : list jsstring :=
  [js "||example.org" ++ [10%N]; js "! test" ++ [10%N]; js "##banner"].

Section CookieSamples.
Import CookieFiltering.

(** [||site.com^$cookie=tracker]: blocks the cookie [tracker]. *)
Definition rule_tracker : Sample.NetworkRule := {|
  Sample.text := js "||site.com^$cookie=tracker";
  Sample.shortcut := js "site.com";
  Sample.permittedDomains := None;
  Sample.whitelist := false;
  Sample.cookieName := js "tracker";
  Sample.cookieSameSite := None;
  Sample.cookieMaxAge := None
|}.

(** [||site.com^$cookie=tracker;maxAge=60]: limits its lifetime. *)
Definition rule_tracker_maxAge : Sample.NetworkRule := {|
  Sample.text := js "||site.com^$cookie=tracker;maxAge=60";
  Sample.shortcut := js "site.com";
  Sample.permittedDomains := None;
  Sample.whitelist := false;
  Sample.cookieName := js "tracker";
  Sample.cookieSameSite := None;
  Sample.cookieMaxAge := Some 60
|}.

(** [||site.com^$cookie=JSESSIONID;sameSite=lax] *)
Definition rule_session_lax : Sample.NetworkRule := {|
  Sample.text := js "||site.com^$cookie=JSESSIONID;sameSite=lax";
  Sample.shortcut := js "site.com";
  Sample.permittedDomains := None;
  Sample.whitelist := false;
  Sample.cookieName := js "JSESSIONID";
  Sample.cookieSameSite := Some (js "lax");
  Sample.cookieMaxAge := None
|}.

(** [@@||site.com^$cookie=tracker]: the exception for the cookie
    [tracker]. *)
Definition rule_tracker_exception : Sample.NetworkRule := {|
  Sample.text := js "@@||site.com^$cookie=tracker";
  Sample.shortcut := js "site.com";
  Sample.permittedDomains := None;
  Sample.whitelist := true;
  Sample.cookieName := js "tracker";
  Sample.cookieSameSite := None;
  Sample.cookieMaxAge := None
|}.

(** A browser that holds the session cookie [tracker] and one [JSESSIONID]
    cookie that expires at the time 2000000 ms. *)
Definition browser_site : Sample.Browser := {|
  Sample.jar :=
    [ (js "tracker",
       {| sameSite := None; maxAge := None; expires := None |});
      (js "JSESSIONID",
       {| sameSite := Some (js "strict"); maxAge := None;
          expires := Some (DateValue 2000000) |}) ];
  Sample.calls := []
|}.

Definition request_site : Request := {|
  url := js "https://site.com/";
  urlLowercase := js "https://site.com/";
  sourceHostname := None;
  requestId := 1
|}.

Definition headers_with_cookie : list Header :=
  [ {| name := js "Accept"; value := js "*/*" |};
    {| name := js "cookie"; value := js "tracker=1; JSESSIONID=x" |} ].

Definition headers_without_cookie : list Header :=
  [ {| name := js "Accept"; value := js "*/*" |} ].

End CookieSamples.

End Samples.

(* ===================================================================== *)
(** * Part II.  Properties                                                *)
(* ===================================================================== *)

(** ** Numbers and hashing ([fastHash], [fastHashBetween]) *)

Section Hashing.
Import JS Utils Spec.

Lemma round_double_exact (z : Z) :
  0 <= z < 2 ^ 53 -> round_double z = Num z.
Proof.
  intros [Hlo Hhi].
  assert (Hpow : 2 ^ 53 < overflow_threshold) by reflexivity.
  unfold round_double, round_nearest_even.
  rewrite (Z.abs_eq z Hlo).
  destruct (Z.ltb_spec z (2 ^ 53)) as [_ | Hge]; [| lia].
  destruct (Z.leb_spec overflow_threshold z) as [Hbig | _]; [lia |].
  f_equal. destruct (Z.eq_dec z 0) as [-> | Hnz]; [reflexivity |].
  rewrite Z.sgn_pos by lia. lia.
Qed.

Lemma djb2_from_lower (codes : jsstring) (h : Z) :
  0 <= h -> h <= djb2_from codes h.
Proof.
  revert h. induction codes as [| c cs IH]; intros h Hh; simpl.
  - lia.
  - specialize (IH (33 * h + Z.of_N c)). unfold djb2_from in *. lia.
Qed.

(** While the exact fold stays below [2^53], no step rounds. *)
Lemma djb2_number_exact_from (codes : jsstring) (h : Z) :
  0 <= h -> djb2_from codes h < 2 ^ 53 ->
  fold_left djb2_step codes (Num h) = Num (djb2_from codes h).
Proof.
  revert h. induction codes as [| c cs IH]; intros h Hh Hbound.
  - reflexivity.
  - change (djb2_from (c :: cs) h) with (djb2_from cs (33 * h + Z.of_N c)) in *.
    pose proof (djb2_from_lower cs (33 * h + Z.of_N c)) as Hlow.
    simpl fold_left. unfold djb2_step at 2. unfold mul, add.
    rewrite (round_double_exact (33 * h)) by lia.
    rewrite (round_double_exact (33 * h + Z.of_N c)) by lia.
    apply IH; lia.
Qed.

Lemma charCodeAt_lookup (str : jsstring) (idx : nat) (c : N) :
  str !! idx = Some c -> charCodeAt str idx = Num (Z.of_N c).
Proof. unfold charCodeAt. by intros ->. Qed.

(** The loop of [fastHashBetween] is the fold over the code units it
    visits. *)
Lemma fastHashBetween_loop_fold (str : jsstring) (n idx : nat) (h : number) :
  (idx + n <= length str)%nat ->
  fastHashBetween_loop str idx n h
  = fold_left djb2_step (take n (drop idx str)) h.
Proof.
  revert idx h. induction n as [| n IH]; intros idx h Hlen.
  - by rewrite take_0.
  - destruct (lookup_lt_is_Some_2 str idx ltac:(lia)) as [c Hc].
    rewrite (drop_S _ _ _ Hc). simpl.
    rewrite (charCodeAt_lookup _ _ _ Hc).
    rewrite IH by lia. reflexivity.
Qed.

Lemma fastHashBetween_fold (str : jsstring) (b e : nat) :
  (b <= e <= length str)%nat ->
  fastHashBetween str b e = djb2_number (substring str b e).
Proof.
  intros Hbe. unfold fastHashBetween, djb2_number, substring.
  apply fastHashBetween_loop_fold. lia.
Qed.

(** The loop only reads the code units between [b] and [e]. *)
Lemma fastHashBetween_take (str : jsstring) (b e k : nat) :
  (b <= e <= k)%nat ->
  fastHashBetween (take k str) b e = fastHashBetween str b e.
Proof.
  intros Hbe. unfold fastHashBetween.
  generalize (Num 5381) as h.
  assert (Hidx : (b + (e - b) <= k)%nat) by lia.
  revert Hidx. generalize (e - b)%nat as n. clear e Hbe.
  intros n. revert b. induction n as [| n IH]; intros b Hidx h.
  - reflexivity.
  - simpl. rewrite IH by lia. f_equal. f_equal.
    unfold charCodeAt. rewrite lookup_take_lt by lia. reflexivity.
Qed.

End Hashing.

Section HashingClaims.
Import JS Utils Spec.

(** C8 (as amended).  [fastHash] of the empty string is [0].  For every
    non-empty string [s], [fastHash s] is the djb2 fold (seed 5381,
    multiplier 33) over the code units of [s] with each product and sum
    taken in JavaScript number arithmetic, and it is the exact integer fold
    whenever that value is below [2^53].  [fastHashBetween s b e] is the same
    fold over the code units in [[b, e)], for [b <= e <= length s]. *)
Theorem fastHash_is_djb2 (s : jsstring) :
  fastHash [] = Num 0
  /\ (s <> [] ->
      fastHash s = djb2_number s
      /\ (djb2 s < 2 ^ 53 -> fastHash s = Num (djb2 s)))
  /\ (forall b e : nat, (b <= e <= length s)%nat ->
      fastHashBetween s b e = djb2_number (substring s b e)
      /\ (djb2 (substring s b e) < 2 ^ 53 ->
          fastHashBetween s b e = Num (djb2 (substring s b e)))).
Proof.
  split; [reflexivity |]. split.
  - intros Hne.
    assert (Hfold : fastHash s = djb2_number s).
    { destruct s as [| c cs]; [congruence |].
      unfold fastHash. rewrite fastHashBetween_fold by lia.
      unfold substring. rewrite drop_0, Nat.sub_0_r, firstn_all. reflexivity. }
    split; [exact Hfold |].
    intros Hbound. rewrite Hfold. unfold djb2_number, djb2.
    apply djb2_number_exact_from; [lia | exact Hbound].
  - intros b e Hbe.
    pose proof (fastHashBetween_fold s b e Hbe) as Hfold.
    split; [exact Hfold |].
    intros Hbound. rewrite Hfold. unfold djb2_number, djb2.
    apply djb2_number_exact_from; [lia | exact Hbound].
Qed.

Lemma fastHash_is_djb2_witness :
  fastHash (js "abcde") = Num 210706217108
  /\ fastHashBetween (js "https://abcde.org/") 8 13 = Num 210706217108.
Proof.
  destruct (fastHash_is_djb2 (js "abcde")) as (_ & Hhash & _).
  destruct (fastHash_is_djb2 (js "https://abcde.org/")) as (_ & _ & Hbetween).
  split.
  - destruct Hhash as [_ Hexact]; [discriminate |].
    rewrite Hexact; [reflexivity | vm_compute; reflexivity].
  - destruct (Hbetween 8%nat 13%nat) as [_ Hexact]; [simpl; lia |].
    rewrite Hexact; [reflexivity | vm_compute; reflexivity].
Defined.

(** C8 as stated fails: the fold over the empty string is 5381 but
    [fastHash] returns 0 for it, and on a string long enough for the fold to
    pass [2^53] the result is a rounded double, not the integer fold. *)
Lemma fastHash_not_exact_djb2 :
  djb2 (js "") = 5381
  /\ fastHash (js "") <> Num (djb2 (js ""))
  /\ fastHash (js "www.example.org") <> Num (djb2 (js "www.example.org")).
Proof.
  split; [reflexivity |]. split.
  - vm_compute. discriminate.
  - vm_compute. intros H. inversion H.
Qed.

End HashingClaims.

(** ** The network engine *)

Section ShortcutPlacement.
Import JS Utils Model Spec NetworkEngine.
Context {NetworkRule : Type} `{!NetworkRuleApi NetworkRule}
        `{!RuleStorageApi NetworkRule}.

Lemma substring_window (s : jsstring) (i n : nat) :
  substring s i (i + n) = take n (drop i s).
Proof. unfold substring. by rewrite Nat.add_sub'. Qed.

(** What [getRuleShortcuts] returns once both guards are passed. *)
Lemma getRuleShortcuts_passed (rule : NetworkRule) :
  (SHORTCUT_LENGTH <= length (getShortcut rule))%nat ->
  isAnyURLShortcut rule = false ->
  getRuleShortcuts rule
  = Some (map (fun i => take SHORTCUT_LENGTH (drop i (getShortcut rule)))
              (seq 0 (length (getShortcut rule) - SHORTCUT_LENGTH))).
Proof.
  intros Hlen Hany. unfold getRuleShortcuts.
  destruct (Nat.ltb_spec (length (getShortcut rule)) SHORTCUT_LENGTH); [lia |].
  rewrite Hany. f_equal. apply map_ext. intros i. apply substring_window.
Qed.

Lemma windows_snoc (s : jsstring) (n : nat) :
  (n <= length s)%nat ->
  windows n s
  = map (fun i => take n (drop i s)) (seq 0 (length s - n))
    ++ [drop (length s - n) s].
Proof.
  intros Hn. unfold windows.
  replace (length s + 1 - n)%nat with (S (length s - n)) by lia.
  rewrite seq_S, map_app. simpl. f_equal. f_equal.
  apply take_ge. rewrite length_drop. lia.
Qed.

Lemma addRuleToShortcutsTable_no_shortcuts (e : t NetworkRule)
    (rule : NetworkRule) (storageIdx : Z) :
  getRuleShortcuts rule = Some [] ->
  addRuleToShortcutsTable e rule storageIdx = (false, e).
Proof. intros H. unfold addRuleToShortcutsTable. by rewrite H. Qed.

(** C1 (what the code does).  For a rule whose shortcut has length at least
    5 and is not a catches-everything shortcut, [getRuleShortcuts] returns
    the length-5 windows at the positions [0 .. len - 6] only: [len - 5] of
    the [len - 4] windows, the final one being left out.  For a shortcut of
    length exactly 5 the list is empty, and [addRuleToShortcutsTable] then
    returns [false] and leaves every table as it was. *)
Theorem getRuleShortcuts_drops_last_window (rule : NetworkRule) :
  (5 <= length (getShortcut rule))%nat ->
  isAnyURLShortcut rule = false ->
  exists shortcuts : list jsstring,
    getRuleShortcuts rule = Some shortcuts
    /\ windows 5 (getShortcut rule)
       = shortcuts ++ [drop (length (getShortcut rule) - 5) (getShortcut rule)]
    /\ length shortcuts = (length (getShortcut rule) - 5)%nat
    /\ (length (getShortcut rule) = 5%nat ->
        shortcuts = []
        /\ forall (e : t NetworkRule) (storageIdx : Z),
             addRuleToShortcutsTable e rule storageIdx = (false, e)).
Proof.
  intros Hlen Hany.
  pose proof (getRuleShortcuts_passed rule Hlen Hany) as Hget.
  eexists. split; [exact Hget |]. split; [| split].
  - apply (windows_snoc (getShortcut rule) 5 Hlen).
  - by rewrite length_map, length_seq.
  - intros Hfive.
    assert (Hnil : map (fun i => take SHORTCUT_LENGTH (drop i (getShortcut rule)))
                       (seq 0 (length (getShortcut rule) - SHORTCUT_LENGTH)) = []).
    { unfold SHORTCUT_LENGTH. by rewrite Hfive. }
    split; [exact Hnil |].
    intros e storageIdx. apply addRuleToShortcutsTable_no_shortcuts.
    by rewrite Hget, Hnil.
Qed.

End ShortcutPlacement.

Section ShortcutPlacementExamples.
Import JS Utils Model Spec NetworkEngine Samples.

(** The rule [abcde] gets no shortcut at all although [abcde] is a window of
    length 5, and it ends up in [otherRules], not in the shortcuts table. *)
Lemma getRuleShortcuts_drops_last_window_witness :
  getRuleShortcuts rule_abcde = Some []
  /\ windows 5 (js "abcde") = [js "abcde"]
  /\ addRuleToShortcutsTable empty rule_abcde 0
     = (false, empty)
  /\ otherRules (addRule empty rule_abcde 0)
     = [rule_abcde].
Proof.
  destruct (getRuleShortcuts_drops_last_window rule_abcde)
    as (shortcuts & Hget & Hwin & _ & Hfive);
    [simpl; lia | reflexivity |].
  destruct Hfive as [-> Hadd]; [reflexivity |].
  split; [exact Hget |]. split; [exact Hwin |].
  split; [apply Hadd | reflexivity].
Defined.

(** A longer shortcut loses its last window only. *)
Example getRuleShortcuts_example_org :
  getRuleShortcuts rule_example_org
  = Some [js "examp"; js "xampl"; js "ample"; js "mple."; js "ple.o"; js "le.or"].
Proof. reflexivity. Qed.

End ShortcutPlacementExamples.

Section ShortcutMatching.
Import JS Utils Model Spec NetworkEngine.
Context {NetworkRule : Type} `{!NetworkRuleApi NetworkRule}
        `{!RuleStorageApi NetworkRule}.

Lemma matchIndexes_app (request : Request) (xs ys : list Z) :
  matchIndexes request (xs ++ ys)
  = matchIndexes request xs ++ matchIndexes request ys.
Proof. unfold matchIndexes. apply flat_map_app. Qed.

Lemma matchIndexes_flat_map {A : Type} (request : Request)
    (f : A -> list Z) (l : list A) :
  matchIndexes request (flat_map f l)
  = flat_map (fun x => matchIndexes request (f x)) l.
Proof.
  induction l as [| x l IH]; simpl.
  - reflexivity.
  - by rewrite matchIndexes_app, IH.
Qed.

(** The capped length is the minimum of the length and MAX_URL_LENGTH. *)
Lemma capped_length (u : jsstring) :
  (if (MAX_URL_LENGTH <? length u)%nat then MAX_URL_LENGTH else length u)
  = Nat.min (length u) MAX_URL_LENGTH.
Proof.
  destruct (Nat.ltb_spec MAX_URL_LENGTH (length u)); lia.
Qed.

(** The shortcut phase retrieves and matches exactly the candidates. *)
Lemma matchShortcutsLookupTable_candidates (e : t NetworkRule)
    (request : Request) :
  matchShortcutsLookupTable e request
  = matchIndexes request (shortcutCandidates e (urlLowercase request)).
Proof.
  unfold matchShortcutsLookupTable, shortcutCandidates.
  rewrite matchIndexes_flat_map. apply flat_map_ext. intros i.
  cbv zeta. by destruct (shortcutsLookupTable e !! _).
Qed.

Lemma shortcutCandidates_positions (e : t NetworkRule) (u : jsstring) :
  shortcutCandidates e u
  = flat_map (fun i => default [] (shortcutsLookupTable e
                                     !! fastHashBetween u i (i + 5)))
             (seq 0 (Nat.min (length u) MAX_URL_LENGTH + 1 - 5)).
Proof. unfold shortcutCandidates. cbv zeta. by rewrite capped_length. Qed.

Lemma window_of_prefix (u : jsstring) (i k : nat) :
  (i + 5 <= k)%nat -> take 5 (drop i (take k u)) = take 5 (drop i u).
Proof.
  intros Hi. rewrite skipn_firstn_comm, take_take.
  f_equal. lia.
Qed.

Lemma shortcutCandidates_windows (e : t NetworkRule) (u : jsstring) :
  shortcutCandidates e u
  = flat_map (fun w => default [] (shortcutsLookupTable e !! djb2_number w))
             (windows 5 (take MAX_URL_LENGTH u)).
Proof.
  rewrite shortcutCandidates_positions. unfold windows.
  rewrite flat_map_concat_map, (flat_map_concat_map _ (map _ _)), map_map.
  rewrite length_take, (Nat.min_comm MAX_URL_LENGTH). f_equal.
  apply map_ext_in. intros i Hi. apply in_seq in Hi.
  rewrite window_of_prefix by lia.
  rewrite fastHashBetween_fold by lia.
  by rewrite substring_window.
Qed.

(** The candidates of a URL are those of its first 4096 code units. *)
Lemma shortcutCandidates_take (e : t NetworkRule) (u : jsstring) :
  shortcutCandidates e u = shortcutCandidates e (take MAX_URL_LENGTH u).
Proof.
  rewrite (shortcutCandidates_windows e u).
  rewrite (shortcutCandidates_windows e (take MAX_URL_LENGTH u)).
  by rewrite take_take, Nat.min_id.
Qed.

(** C6 (as amended).  The shortcut phase of [matchAll] retrieves the rule
    indexes stored under the hashes of the windows [[i, i+5)] of
    [urlLowercase] for [0 <= i <= min(len, 4096) - 5], and no others; these
    are the length-5 windows of the first 4096 code units, so the candidate
    indexes of a URL and of its first 4096 code units are the same.  Each
    candidate is then matched against the whole request, not against the
    truncated URL. *)
Theorem shortcut_phase_url_cap (e : t NetworkRule) (request : Request) :
  let u := urlLowercase request in
  matchShortcutsLookupTable e request
  = matchIndexes request (shortcutCandidates e u)
  /\ shortcutCandidates e u
     = flat_map (fun i => default [] (shortcutsLookupTable e
                                        !! fastHashBetween u i (i + 5)))
                (seq 0 (Nat.min (length u) MAX_URL_LENGTH + 1 - 5))
  /\ shortcutCandidates e u
     = flat_map (fun w => default [] (shortcutsLookupTable e !! djb2_number w))
                (windows 5 (take MAX_URL_LENGTH u))
  /\ shortcutCandidates e u = shortcutCandidates e (take MAX_URL_LENGTH u)
  /\ matchShortcutsLookupTable e request
     = matchIndexes request
         (shortcutCandidates e (urlLowercase (truncated request))).
Proof.
  intros u.
  split; [apply matchShortcutsLookupTable_candidates |].
  split; [apply shortcutCandidates_positions |].
  split; [apply shortcutCandidates_windows |].
  split; [apply shortcutCandidates_take |].
  rewrite matchShortcutsLookupTable_candidates.
  change (urlLowercase (truncated request)) with (take MAX_URL_LENGTH u).
  by rewrite <- shortcutCandidates_take.
Qed.

End ShortcutMatching.

Section Subdomains.
Import JS Utils Model Spec NetworkEngine.

Lemma builtDomains_length (parts : list jsstring) :
  length (builtDomains parts) = length parts.
Proof.
  induction parts as [| p ps IH]; simpl; [reflexivity |].
  destruct (default [] (head (builtDomains ps))); simpl; by rewrite IH.
Qed.

Lemma builtDomains_drop (parts : list jsstring) (i : nat) :
  drop i (builtDomains parts) = builtDomains (drop i parts).
Proof.
  revert i. induction parts as [| p ps IH]; intros [| i]; try reflexivity.
  simpl builtDomains.
  destruct (default [] (head (builtDomains ps))); simpl; apply IH.
Qed.

(** One step of the loop extends the suffix of built domains by one. *)
Lemma builtDomains_step (parts : list jsstring) (i : nat) (part : jsstring) :
  parts !! i = Some part ->
  drop i (builtDomains parts)
  = match default [] (head (drop (S i) (builtDomains parts))) with
    | [] => part
    | domain => part ++ js "." ++ domain
    end :: drop (S i) (builtDomains parts).
Proof.
  intros Hpart.
  rewrite !builtDomains_drop, (drop_S _ _ _ Hpart). simpl.
  by destruct (default [] (head (builtDomains (drop (S i) parts)))).
Qed.

Lemma getSubdomains_loop_builtDomains (parts : list jsstring) (i : nat) :
  (i <= length parts)%nat ->
  getSubdomains_loop parts i
    (default [] (head (drop i (builtDomains parts))))
    (rev (drop i (builtDomains parts)))
  = rev (builtDomains parts).
Proof.
  induction i as [| i IH]; intros Hi.
  - reflexivity.
  - destruct (lookup_lt_is_Some_2 parts i ltac:(lia)) as [part Hpart].
    simpl. rewrite Hpart. simpl.
    rewrite <- IH by lia.
    rewrite (builtDomains_step parts i part Hpart).
    by destruct (default [] (head (drop (S i) (builtDomains parts)))).
Qed.

Lemma getSubdomains_builtDomains (hostname : jsstring) :
  getSubdomains hostname = rev (builtDomains (split 46 hostname)).
Proof.
  unfold getSubdomains.
  pose proof (getSubdomains_loop_builtDomains (split 46 hostname)
                (length (split 46 hostname)) ltac:(lia)) as H.
  rewrite drop_ge in H by (rewrite builtDomains_length; lia).
  exact H.
Qed.

Lemma split_nonempty (sep : N) (s : jsstring) : split sep s <> [].
Proof.
  destruct s as [| c s]; simpl; [discriminate |].
  destruct (c =? sep)%N; [discriminate |].
  destruct (split sep s); discriminate.
Qed.

Lemma last_cons_nonempty {A : Type} (c : A) (s : list A) :
  s <> [] -> last (c :: s) = last s.
Proof. destruct s; [congruence | reflexivity]. Qed.

Lemma split_cons_sep (sep : N) (s : jsstring) :
  split sep (sep :: s) = [] :: split sep s.
Proof. simpl. by rewrite N.eqb_refl. Qed.

Lemma split_cons_other (sep c : N) (s : jsstring) :
  c <> sep ->
  exists p ps, split sep s = p :: ps /\ split sep (c :: s) = (c :: p) :: ps.
Proof.
  intros Hc. simpl. destruct (N.eqb_spec c sep) as [? | _]; [done |].
  destruct (split sep s) as [| p ps] eqn:Hsplit;
    [by destruct (split_nonempty sep s) |].
  by exists p, ps.
Qed.

Lemma builtDomains_cons (part : jsstring) (rest : list jsstring) :
  builtDomains (part :: rest)
  = match default [] (head (builtDomains rest)) with
    | [] => part
    | domain => part ++ js "." ++ domain
    end :: builtDomains rest.
Proof. simpl. by destruct (default [] (head (builtDomains rest))). Qed.

(** For a hostname that does not end with a dot the built domains are its
    label suffixes. *)
Lemma builtDomains_dotSuffixes (hostname : jsstring) :
  last hostname <> Some 46%N ->
  builtDomains (split 46 hostname) = dotSuffixes hostname.
Proof.
  induction hostname as [| c h IH]; intros Hlast.
  - reflexivity.
  - assert (Hh : last h <> Some 46%N).
    { destruct h as [| d h']; [discriminate |].
      by rewrite last_cons_nonempty in Hlast. }
    specialize (IH Hh). unfold dotSuffixes in *.
    destruct (N.eq_dec c 46%N) as [-> | Hc].
    + rewrite split_cons_sep, builtDomains_cons, IH.
      destruct h as [| d h']; [by destruct Hlast |].
      reflexivity.
    + destruct (split_cons_other 46 c h Hc) as (p & ps & Hsplit & ->).
      rewrite Hsplit, builtDomains_cons in IH.
      rewrite builtDomains_cons.
      injection IH as Hhead Htail. rewrite Htail.
      simpl afterDots. destruct (N.eqb_spec c 46%N) as [? | _]; [done |].
      f_equal. rewrite Htail in Hhead.
      destruct (default [] (head (afterDots h))); by rewrite <- Hhead.
Qed.

Lemma rev_is_reverse {A : Type} (l : list A) : rev l = reverse l.
Proof. unfold reverse. apply rev_alt. Qed.

Lemma builtDomains_last (parts : list jsstring) :
  last (builtDomains parts) = last parts.
Proof.
  induction parts as [| p ps IH]; [reflexivity |].
  rewrite builtDomains_cons.
  destruct ps as [| q qs]; [reflexivity |].
  rewrite last_cons_nonempty.
  - rewrite IH. reflexivity.
  - intros Hnil. apply (f_equal length) in Hnil.
    rewrite builtDomains_length in Hnil. discriminate.
Qed.

End Subdomains.

Section DomainPhase.
Import JS Utils Model Spec NetworkEngine.
Context {NetworkRule : Type} `{!NetworkRuleApi NetworkRule}
        `{!RuleStorageApi NetworkRule}.

(** C3 (as amended).  For a hostname that does not end with a dot,
    [getSubdomains] returns its dot-separated suffixes ordered least
    specific first: the bare last label (the TLD) comes first and the full
    hostname last.  The domain phase of [matchAll] looks the suffixes up in
    that order. *)
Theorem getSubdomains_least_specific_first (hostname : jsstring) :
  last hostname <> Some 46%N ->
  getSubdomains hostname = rev (dotSuffixes hostname)
  /\ head (getSubdomains hostname) = last (split 46 hostname)
  /\ last (getSubdomains hostname) = Some hostname
  /\ forall (e : t NetworkRule) (request : Request),
       sourceHostname request = Some hostname -> hostname <> [] ->
       matchDomainsLookupTable e request
       = flat_map (fun domain =>
                     match domainsLookupTable e !! fastHash domain with
                     | Some rulesIndexes => matchIndexes request rulesIndexes
                     | None => []
                     end)
                  (rev (dotSuffixes hostname)).
Proof.
  intros Hlast.
  assert (Hsub : getSubdomains hostname = rev (dotSuffixes hostname)).
  { rewrite getSubdomains_builtDomains.
    by rewrite (builtDomains_dotSuffixes hostname Hlast). }
  split; [exact Hsub |]. split; [| split].
  - rewrite getSubdomains_builtDomains, rev_is_reverse, head_reverse.
    apply builtDomains_last.
  - rewrite Hsub, rev_is_reverse, last_reverse. reflexivity.
  - intros e request Hsource Hne. unfold matchDomainsLookupTable.
    rewrite Hsource, Hsub.
    destruct hostname; [congruence | reflexivity].
Qed.

End DomainPhase.

Section DomainPhaseExamples.
Import JS Utils Model Spec NetworkEngine.

Lemma getSubdomains_least_specific_first_witness :
  getSubdomains (js "www.example.org")
  = [js "org"; js "example.org"; js "www.example.org"]
  /\ last (getSubdomains (js "www.example.org")) = Some (js "www.example.org").
Proof.
  destruct (getSubdomains_least_specific_first
              (NetworkRule := Sample.NetworkRule)
              (RuleStorageApi0 := Sample.storageOf [])
              (js "www.example.org"))
    as (Hsub & _ & Hlast & _); [discriminate |].
  split; [rewrite Hsub; reflexivity | exact Hlast].
Defined.

(** C3 as stated fails: the list starts with the TLD, it is not the list of
    suffixes from the most specific one down. *)
Lemma getSubdomains_not_most_specific_first :
  head (getSubdomains (js "www.example.org")) = Some (js "org")
  /\ getSubdomains (js "www.example.org") <> dotSuffixes (js "www.example.org").
Proof. split; [reflexivity | discriminate]. Qed.

End DomainPhaseExamples.

(** ** The cosmetic lookup table *)

Section Cosmetic.
Import JS CosmeticLookupTable.
Context {CosmeticRule : Type} `{!CosmeticRuleApi CosmeticRule}.

Lemma filter_notWhitelist (rules : list CosmeticRule) :
  Forall notWhitelist (filter (fun rule => isWhitelist rule = false) rules).
Proof.
  apply Forall_forall. intros r Hr.
  apply list_elem_of_filter in Hr. by destruct Hr.
Qed.

Lemma matching_notWhitelist (rules : list CosmeticRule) (hostname : jsstring) :
  Forall notWhitelist rules ->
  Forall notWhitelist (filter (fun r => rule_match r hostname = true) rules).
Proof.
  rewrite !Forall_forall. intros Hall r Hr. apply Hall.
  apply list_elem_of_filter in Hr. by destruct Hr.
Qed.

Lemma byHostname_fold_notWhitelist (rule : CosmeticRule)
    (domains : list jsstring) (m : gmap jsstring (list CosmeticRule)) :
  notWhitelist rule ->
  (forall hostname rules, m !! hostname = Some rules -> Forall notWhitelist rules) ->
  forall hostname rules,
    fold_left (fun m domain =>
                 let rules := default [] (m !! domain) in
                 <[domain := rules ++ [rule]]> m) domains m !! hostname
    = Some rules ->
    Forall notWhitelist rules.
Proof.
  intros Hrule. revert m.
  induction domains as [| d ds IH]; intros m Hm hostname rules; simpl.
  - apply Hm.
  - apply IH. clear hostname rules. intros hostname rules.
    rewrite lookup_insert. case_decide as Heq.
    + intros [= <-]. apply Forall_app_2; [| by constructor].
      destruct (m !! d) as [stored |] eqn:Hd; simpl; [by eapply Hm | constructor].
    + apply Hm.
Qed.

Lemma separated_new : separated (new (CosmeticRule := CosmeticRule)).
Proof.
  unfold separated, new. simpl.
  repeat split; try apply Forall_nil_2; intros ? ?; by rewrite lookup_empty.
Qed.

Lemma separated_addRule (tbl : t CosmeticRule) (rule : CosmeticRule) :
  separated tbl -> separated (addRule tbl rule).
Proof.
  intros (Hby & Hwild & Hgen & Hwl). unfold addRule.
  destruct (isWhitelist rule) eqn:Hw.
  - repeat split; simpl; try assumption.
    intros content rules. rewrite lookup_insert. case_decide as Heq.
    + intros [= <-]. subst content.
      apply Forall_app_2; [| by repeat constructor].
      destruct (whitelist tbl !! getContent rule) eqn:Hc; simpl;
        [by eapply Hwl | constructor].
    + apply Hwl.
  - destruct (isGeneric rule).
    { repeat split; simpl; try assumption.
      apply Forall_app_2; [assumption | by constructor]. }
    destruct (getPermittedDomains rule) as [domains |]; [| by repeat split].
    destruct (existsb isWildcardDomain domains).
    + repeat split; simpl; try assumption.
      apply Forall_app_2; [assumption | by constructor].
    + repeat split; simpl; try assumption.
      by apply byHostname_fold_notWhitelist.
Qed.

Lemma separated_findByHostname (tbl : t CosmeticRule) (hostname : jsstring) :
  separated tbl -> separated (snd (findByHostname tbl hostname)).
Proof.
  intros (Hby & Hwild & Hgen & Hwl). unfold findByHostname.
  destruct (byHostname tbl !! hostname) as [stored |] eqn:Hstored; simpl;
    [| by repeat split].
  repeat split; simpl; try assumption.
  intros h rules. rewrite lookup_insert. case_decide as Heq.
  - intros [= <-]. apply Forall_app_2; [by eapply Hby |].
    by apply matching_notWhitelist.
  - apply Hby.
Qed.

Lemma reachable_separated (tbl : t CosmeticRule) :
  reachable tbl -> separated tbl.
Proof.
  induction 1 as [| tbl rule _ IH | tbl hostname _ IH].
  - apply separated_new.
  - by apply separated_addRule.
  - by apply separated_findByHostname.
Qed.

Lemma built_reachable (tbl : t CosmeticRule) : built tbl -> reachable tbl.
Proof. induction 1; by constructor. Qed.

(** C10.  For every table built by a sequence of [addRule] calls (lookups
    may come in between) and every hostname, no rule returned by
    [findByHostname] has its whitelist flag set; whitelist rules are held in
    the [whitelist] map only, each under its own content. *)
Theorem findByHostname_returns_no_whitelist (tbl : t CosmeticRule)
    (hostname : jsstring) :
  reachable tbl ->
  Forall (fun r => isWhitelist r = false) (fst (findByHostname tbl hostname))
  /\ (forall h rules, byHostname tbl !! h = Some rules ->
        Forall (fun r => isWhitelist r = false) rules)
  /\ Forall (fun r => isWhitelist r = false) (wildcardRules tbl)
  /\ Forall (fun r => isWhitelist r = false) (genericRules tbl)
  /\ (forall content rules, whitelist tbl !! content = Some rules ->
        Forall (fun r => isWhitelist r = true /\ getContent r = content) rules).
Proof.
  intros Hreach. split; [| exact (reachable_separated tbl Hreach)].
  unfold findByHostname.
  destruct (byHostname tbl !! hostname); simpl; apply filter_notWhitelist.
Qed.

(** C2 (what the code does).  When [byHostname] has an entry for the
    hostname, [findByHostname] appends the matching wildcard rules to that
    entry: the table it leaves behind holds the longer list, and the next
    call for the same hostname returns the matching wildcard rules once
    more, a different list as soon as one of them is not a whitelist rule.
    The other three collections are never touched. *)
Theorem findByHostname_extends_entry (tbl : t CosmeticRule)
    (hostname : jsstring) (stored : list CosmeticRule) :
  byHostname tbl !! hostname = Some stored ->
  let matching :=
    filter (fun r => rule_match r hostname = true) (wildcardRules tbl) in
  let first := findByHostname tbl hostname in
  let second := findByHostname (snd first) hostname in
  fst first = filter (fun r => isWhitelist r = false) (stored ++ matching)
  /\ byHostname (snd first) = <[hostname := stored ++ matching]> (byHostname tbl)
  /\ fst second
     = filter (fun r => isWhitelist r = false) ((stored ++ matching) ++ matching)
  /\ (filter (fun r => isWhitelist r = false) matching <> [] ->
      fst second <> fst first)
  /\ wildcardRules (snd first) = wildcardRules tbl
  /\ genericRules (snd first) = genericRules tbl
  /\ whitelist (snd first) = whitelist tbl.
Proof.
  intros Hstored matching first second.
  assert (Hfirst : first
    = (filter (fun r => isWhitelist r = false) (stored ++ matching),
       {| byHostname := <[hostname := stored ++ matching]> (byHostname tbl);
          wildcardRules := wildcardRules tbl;
          genericRules := genericRules tbl;
          whitelist := whitelist tbl |})).
  { subst first. unfold findByHostname. by rewrite Hstored. }
  assert (Hsecond : fst second
    = filter (fun r => isWhitelist r = false) ((stored ++ matching) ++ matching)).
  { subst second. rewrite Hfirst. unfold findByHostname. simpl.
    by rewrite lookup_insert_eq. }
  rewrite Hsecond, Hfirst. simpl.
  split; [reflexivity |]. split; [reflexivity |]. split; [reflexivity |].
  split; [| by repeat split].
  intros Hmatching Heq. apply Hmatching.
  rewrite (filter_app _ (stored ++ matching) matching) in Heq.
  rewrite <- (app_nil_r (filter _ (stored ++ matching))) in Heq at 2.
  by apply app_inv_head in Heq.
Qed.

(** Without an entry for the hostname the lookup leaves the table alone. *)
Lemma findByHostname_no_entry (tbl : t CosmeticRule) (hostname : jsstring) :
  byHostname tbl !! hostname = None ->
  snd (findByHostname tbl hostname) = tbl
  /\ fst (findByHostname (snd (findByHostname tbl hostname)) hostname)
     = fst (findByHostname tbl hostname).
Proof.
  intros Hnone. unfold findByHostname. rewrite Hnone. simpl.
  by rewrite Hnone.
Qed.

End Cosmetic.

Section CosmeticExamples.
Import JS CosmeticLookupTable Samples.

Lemma table_example_reachable : reachable table_example.
Proof. unfold table_example. repeat constructor. Qed.

Lemma findByHostname_returns_no_whitelist_witness :
  fst (findByHostname table_example (js "example.org")) = [rule_banner; rule_ad]
  /\ Forall (fun r => Sample.exception r = false)
            (fst (findByHostname table_example (js "example.org")))
  /\ whitelist table_example !! js ".banner" = Some [rule_banner_exception].
Proof.
  destruct (findByHostname_returns_no_whitelist table_example
              (js "example.org") table_example_reachable) as (Hres & _).
  split; [vm_compute; reflexivity |].
  split; [exact Hres | vm_compute; reflexivity].
Defined.

(** Two lookups in a row for [example.org]: the second one returns the
    wildcard rule twice, and the entry of [byHostname] has grown. *)
Lemma findByHostname_extends_entry_witness :
  let first := findByHostname table_example (js "example.org") in
  let second := findByHostname (snd first) (js "example.org") in
  byHostname table_example !! js "example.org" = Some [rule_banner]
  /\ fst first = [rule_banner; rule_ad]
  /\ fst second = [rule_banner; rule_ad; rule_ad]
  /\ byHostname (snd first) !! js "example.org" = Some [rule_banner; rule_ad]
  /\ fst first <> fst second
  /\ byHostname (snd first) <> byHostname table_example.
Proof.
  assert (Hstored : byHostname table_example !! js "example.org"
                    = Some [rule_banner]) by (vm_compute; reflexivity).
  destruct (findByHostname_extends_entry table_example (js "example.org")
              [rule_banner] Hstored) as (Hfirst & Hby & Hsecond & Hdiffer & _).
  cbv zeta.
  split; [exact Hstored |].
  split; [rewrite Hfirst; vm_compute; reflexivity |].
  split; [rewrite Hsecond; vm_compute; reflexivity |].
  split; [rewrite Hby; vm_compute; reflexivity |].
  split.
  - intros Heq. apply Hdiffer; [vm_compute; discriminate | by symmetry].
  - intros Heq.
    assert (Hlook : byHostname (snd (findByHostname table_example (js "example.org")))
                      !! js "example.org" = Some [rule_banner])
      by (rewrite Heq; exact Hstored).
    rewrite Hby in Hlook. vm_compute in Hlook. discriminate.
Defined.

End CosmeticExamples.

(** ** The rule scanner *)

Section ScannerProps.
Import JS RuleScanner.
Context {IRule : Type} `{!RuleBuilderApi IRule}.

Lemma utf8Length_cons_pos (c : N) (s : jsstring) : (0 < utf8Length (c :: s))%nat.
Proof.
  simpl. destruct (c <? 128)%N; [lia |]. destruct (c <? 2048)%N; [lia |].
  destruct (isHighSurrogate c); [| lia].
  destruct s as [| d s']; [lia |]. destruct (isLowSurrogate d); lia.
Qed.

Lemma utf8Length_pos (s : jsstring) : s <> [] -> (0 < utf8Length s)%nat.
Proof. destruct s; [congruence | intros _; apply utf8Length_cons_pos]. Qed.

Lemma utf8Length_app_bounded (n : nat) (a b : jsstring) :
  (length a <= n)%nat ->
  (forall c, last a = Some c -> isHighSurrogate c = false) ->
  utf8Length (a ++ b) = (utf8Length a + utf8Length b)%nat.
Proof.
  revert a. induction n as [| n IH]; intros a Hlen Hlast.
  - destruct a; [reflexivity | simpl in Hlen; lia].
  - destruct a as [| c a']; [reflexivity |].
    assert (Htail : forall x, last a' = Some x -> isHighSurrogate x = false).
    { intros x Hx. apply Hlast. destruct a'; [discriminate | exact Hx]. }
    assert (IHa' : utf8Length (a' ++ b) = (utf8Length a' + utf8Length b)%nat)
      by (apply IH; [simpl in Hlen; lia | exact Htail]).
    change ((c :: a') ++ b) with (c :: (a' ++ b)).
    cbn [utf8Length].
    destruct (c <? 128)%N; [rewrite IHa'; lia |].
    destruct (c <? 2048)%N; [rewrite IHa'; lia |].
    destruct (isHighSurrogate c) eqn:Hhigh; [| rewrite IHa'; lia].
    destruct a' as [| d a'']; [by rewrite (Hlast c eq_refl) in Hhigh |].
    change ((d :: a'') ++ b) with (d :: (a'' ++ b)) in *.
    cbv beta iota.
    destruct (isLowSurrogate d); [| rewrite IHa'; apply Nat.add_assoc].
    rewrite (IH a''); [apply Nat.add_assoc | simpl in Hlen; lia |].
    intros x Hx. apply Htail. destruct a''; [discriminate | exact Hx].
Qed.

Lemma utf8Length_app_newline (a b : jsstring) :
  endsWithNewline a ->
  utf8Length (a ++ b) = (utf8Length a + utf8Length b)%nat.
Proof.
  intros Hnl. apply (utf8Length_app_bounded (length a)); [lia |].
  intros c Hc. unfold endsWithNewline in Hnl. rewrite Hnl in Hc.
  by injection Hc as <-.
Qed.

Lemma sum_list_append (xs ys : list nat) :
  sum_list (xs ++ ys) = (sum_list xs + sum_list ys)%nat.
Proof.
  induction xs as [| x xs IH]; simpl; [reflexivity |].
  rewrite IH. apply Nat.add_assoc.
Qed.

Lemma utf8Length_concat (ls : list jsstring) :
  Forall endsWithNewline ls ->
  utf8Length (concat ls) = sum_list (map utf8Length ls).
Proof.
  induction 1 as [| l ls Hl _ IH]; [reflexivity |].
  simpl. by rewrite utf8Length_app_newline, IH.
Qed.

Lemma physicalLines_before (before : list jsstring) (line : jsstring)
    (after : list jsstring) :
  physicalLines (before ++ line :: after) -> Forall endsWithNewline before.
Proof.
  induction before as [| l before IH]; intros Hphys; [constructor |].
  change ((l :: before) ++ line :: after)
    with (l :: (before ++ line :: after)) in Hphys.
  destruct (before ++ line :: after) as [| x xs] eqn:Hrest;
    [by destruct before |].
  destruct Hphys as [Hl Hphys]. constructor; [exact Hl | by apply IH].
Qed.


Lemma readNextLine_eof (s : t IRule) :
  reader s = [] -> readNextLine s = (None, s).
Proof. destruct s. simpl. by intros ->. Qed.

Lemma readNextLine_line (s : t IRule) (line : jsstring) (rest : list jsstring) :
  reader s = line :: rest ->
  readNextLine s
  = (Some (match line with [] => [] | _ => trim line end), advance s line rest).
Proof.
  destruct s as [id ign rd cur idx pos]. simpl. intros ->.
  unfold readNextLine, advance.
  destruct line as [| c l]; cbn -[utf8Length trim]; [| reflexivity].
  by rewrite Nat.add_0_r.
Qed.

(** One more iteration than the reader has lines always suffices. *)
Lemma scan_loop_total (fuel : nat) (s : t IRule) :
  (length (reader s) < fuel)%nat -> is_Some (scan_loop fuel s).
Proof.
  revert s. induction fuel as [| fuel IH]; intros s Hfuel; [lia |].
  cbn [scan_loop].
  destruct (reader s) as [| line rest] eqn:Hreader.
  - rewrite (readNextLine_eof s Hreader). by eexists.
  - rewrite (readNextLine_line s line rest Hreader).
    assert (Hrec : is_Some (scan_loop fuel (advance s line rest)))
      by (apply IH; simpl in *; lia).
    destruct (match line with [] => [] | _ => trim line end); [exact Hrec |].
    destruct (createRule _ _); [| exact Hrec].
    destruct (negb _); [by eexists | exact Hrec].
Qed.

(** What a successful [scan] has done: it skipped some lines, stopped at a
    non-empty one that builds a rule, and recorded where that line starts. *)
Lemma scan_loop_true (fuel : nat) (s s' : t IRule) :
  scan_loop fuel s = Some (true, s') ->
  exists (skipped : list jsstring) (line : jsstring) (r : IRule),
    reader s = skipped ++ line :: reader s'
    /\ line <> []
    /\ createRule (trim line) (listId s) = Some r
    /\ currentRule s' = Some r
    /\ currentRuleIndex s'
       = (currentPos s + sum_list (map utf8Length skipped))%nat
    /\ currentPos s' = (currentRuleIndex s' + utf8Length line)%nat
    /\ listId s' = listId s.
Proof.
  revert s. induction fuel as [| fuel IH]; intros s Hscan; [discriminate |].
  cbn [scan_loop] in Hscan.
  destruct (reader s) as [| line rest] eqn:Hreader.
  { rewrite (readNextLine_eof s Hreader) in Hscan. discriminate. }
  rewrite (readNextLine_line s line rest Hreader) in Hscan.
  assert (Hskip : scan_loop fuel (advance s line rest) = Some (true, s') ->
    exists skipped line0 r,
      line :: rest = skipped ++ line0 :: reader s'
      /\ line0 <> []
      /\ createRule (trim line0) (listId s) = Some r
      /\ currentRule s' = Some r
      /\ currentRuleIndex s'
         = (currentPos s + sum_list (map utf8Length skipped))%nat
      /\ currentPos s' = (currentRuleIndex s' + utf8Length line0)%nat
      /\ listId s' = listId s).
  { intros Hrec.
    destruct (IH _ Hrec) as (skipped & line0 & r & Hrd & Hne & Hcr & Hcur & Hidx & Hpos & Hid).
    exists (line :: skipped), line0, r. simpl in *.
    repeat split; try assumption.
    - by rewrite Hrd.
    - rewrite Hidx. apply eq_sym, Nat.add_assoc. }
  destruct line as [| c l]; [exact (Hskip Hscan) |].
  destruct (trim (c :: l)) as [| c' l'] eqn:Htrim; [exact (Hskip Hscan) |].
  destruct (createRule (c' :: l') (listId (advance s (c :: l) rest)))
    as [r |] eqn:Hcreate; [| exact (Hskip Hscan)].
  destruct (negb (isIgnored (advance s (c :: l) rest) r));
    [| exact (Hskip Hscan)].
  injection Hscan as <-. simpl.
  exists [], (c :: l), r. simpl.
  repeat split; try done.
  by rewrite Htrim.
Qed.

Lemma scan_total (s : t IRule) : is_Some (scan s).
Proof. apply scan_loop_total. lia. Qed.

Lemma getRule_after_scan (s s' : t IRule) :
  scan s = Some (true, s') ->
  exists r, getRule s' = Some {| rule := r; index := currentRuleIndex s' |}
            /\ currentRule s' = Some r.
Proof.
  intros Hscan.
  destruct (scan_loop_true _ _ _ Hscan) as (_ & _ & r & _ & _ & _ & Hcur & _).
  exists r. unfold getRule. by rewrite Hcur.
Qed.

(** Every rule found later starts at or after the current position. *)
Lemma scanMany_from_currentPos (n : nat) (s : t IRule) :
  Forall (fun ir => (currentPos s <= index ir)%nat) (scanMany n s).
Proof.
  revert s. induction n as [| n IH]; intros s; [constructor |].
  cbn [scanMany].
  destruct (scan s) as [[[|] s'] |] eqn:Hscan; try constructor.
  destruct (getRule_after_scan s s' Hscan) as (r & -> & _).
  destruct (scan_loop_true _ _ _ Hscan)
    as (skipped & line & _ & _ & _ & _ & _ & Hidx & Hpos & _).
  constructor.
  - simpl. rewrite Hidx. apply Nat.le_add_r.
  - eapply Forall_impl; [apply IH |].
    intros ir Hir. simpl in Hir. rewrite Hpos, Hidx in Hir.
    etrans; [| exact Hir]. rewrite <- Nat.add_assoc. apply Nat.le_add_r.
Qed.

Lemma scanMany_increasing (n : nat) (s : t IRule) :
  StronglySorted lt (map index (scanMany n s)).
Proof.
  revert s. induction n as [| n IH]; intros s; [constructor |].
  cbn [scanMany].
  destruct (scan s) as [[[|] s'] |] eqn:Hscan; try constructor.
  destruct (getRule_after_scan s s' Hscan) as (r & -> & _).
  destruct (scan_loop_true _ _ _ Hscan)
    as (_ & line & _ & _ & Hne & _ & _ & _ & Hpos & _).
  simpl. constructor; [apply IH |].
  apply List.Forall_map.
  eapply Forall_impl; [apply (scanMany_from_currentPos n s') |].
  intros ir Hir. simpl in *. rewrite Hpos in Hir.
  pose proof (utf8Length_pos line Hne) as Hlen.
  eapply Nat.lt_le_trans; [| exact Hir].
  apply Nat.lt_add_pos_r. exact Hlen.
Qed.

(** The rules found are built from lines of the input, and the index of
    each is the number of bytes of the lines before its own. *)
Lemma scanMany_offsets (n : nat) (s : t IRule) (lines consumed : list jsstring) :
  lines = consumed ++ reader s ->
  currentPos s = sum_list (map utf8Length consumed) ->
  Forall (fun ir =>
            exists before line after,
              lines = before ++ line :: after
              /\ index ir = sum_list (map utf8Length before)
              /\ createRule (trim line) (listId s) = Some (rule ir))
         (scanMany n s).
Proof.
  revert s consumed. induction n as [| n IH]; intros s consumed Hlines Hpos;
    [constructor |].
  cbn [scanMany].
  destruct (scan s) as [[[|] s'] |] eqn:Hscan; try constructor.
  destruct (getRule_after_scan s s' Hscan) as (r & -> & Hr).
  destruct (scan_loop_true _ _ _ Hscan)
    as (skipped & line & r' & Hrd & _ & Hcr & Hcur & Hidx & Hpos' & Hid).
  assert (r' = r) as -> by congruence.
  constructor.
  - exists (consumed ++ skipped), line, (reader s'). simpl.
    split; [by rewrite Hlines, Hrd, <- app_assoc |].
    split; [| exact Hcr].
    by rewrite Hidx, Hpos, map_app, sum_list_append.
  - rewrite <- Hid.
    apply (IH s' (consumed ++ skipped ++ [line])).
    + rewrite Hlines, Hrd. by rewrite <- !app_assoc.
    + rewrite Hpos', Hidx, Hpos, !map_app, !sum_list_append. simpl.
      rewrite Nat.add_0_r. apply eq_sym, Nat.add_assoc.
Qed.


(** C4.  For a reader over physical lines and any number of successive
    [scan()] calls that return [true], the indexes of the rules returned by
    [getRule()] are strictly increasing, and each index is the byte offset
    of the rule's line: the UTF-8 length of the input before that line (so
    it is 0 for a rule on the first line).  [scan] always returns. *)
Theorem scan_indexes_strictly_increasing (lines : list jsstring) (id : Z)
    (ignore : bool) (n : nat) :
  physicalLines lines ->
  let found := scanMany n (new lines id ignore) in
  StronglySorted lt (map index found)
  /\ Forall (fun ir =>
               exists before line after,
                 lines = before ++ line :: after
                 /\ index ir = utf8Length (concat before)
                 /\ createRule (trim line) id = Some (rule ir))
            found
  /\ (forall s : t IRule, is_Some (scan s)).
Proof.
  intros Hphys found. split; [apply scanMany_increasing |].
  split; [| apply scan_total].
  pose proof (scanMany_offsets n (new lines id ignore) lines [] eq_refl eq_refl)
    as Hoff.
  eapply Forall_impl; [exact Hoff |].
  intros ir (before & line & after & Hlines & Hidx & Hcreate).
  exists before, line, after.
  split; [exact Hlines |]. split; [| exact Hcreate].
  rewrite Hidx. apply eq_sym, utf8Length_concat.
  apply (physicalLines_before before line after). by rewrite <- Hlines.
Qed.

End ScannerProps.

Section ScannerExamples.
Import JS RuleScanner Samples.

Lemma scan_indexes_strictly_increasing_witness :
  scanMany 3 (new lines_example 1 false)
  = [ {| rule := js "||example.org"; index := 0 |};
      {| rule := js "##banner"; index := 21 |} ]
  /\ StronglySorted lt (map index (scanMany 3 (new lines_example 1 false)))
  /\ scan (new [] 1 false) = Some (false, new [] 1 false).
Proof.
  destruct (scan_indexes_strictly_increasing lines_example 1 false 3)
    as (Hsorted & _ & _);
    [by repeat split |].
  split; [vm_compute; reflexivity |].
  split; [exact Hsorted | reflexivity].
Defined.

End ScannerExamples.

(** ** Cookie filtering *)

Section Cookies.
Import JS Model CookieFiltering.
Context {NetworkRule : Type} `{!NetworkRuleApi NetworkRule} `{!StringApi}.

Lemma lookupModifyingRules_loop_spec (cookieName : jsstring)
    (rules result : list NetworkRule) :
  lookupModifyingRules_loop cookieName rules result
  = if existsb (fun r => appliesTo cookieName r && negb (isModifyingRule r)) rules
    then []
    else result
         ++ List.filter (fun r => appliesTo cookieName r && isModifyingRule r) rules.
Proof.
  revert result. induction rules as [| rule rest IH]; intros result; simpl.
  - by rewrite app_nil_r.
  - unfold appliesTo at 1 3.
    destruct (matches (getAdvancedModifier rule) cookieName); simpl;
      [| apply IH].
    destruct (isModifyingRule rule); simpl; [| reflexivity].
    rewrite IH. destruct (existsb _ rest); [reflexivity |].
    by rewrite <- app_assoc.
Qed.

Lemma lookupNotModifyingRule_None (cookieName : jsstring)
    (rules : list NetworkRule) :
  lookupNotModifyingRule cookieName rules = None
  <-> existsb (fun r => appliesTo cookieName r && negb (isModifyingRule r)) rules
      = false.
Proof.
  induction rules as [| rule rest IH]; simpl; [done |].
  unfold appliesTo at 1.
  destruct (matches (getAdvancedModifier rule) cookieName && negb (isModifyingRule rule));
    simpl; [split; discriminate | exact IH].
Qed.

Lemma scheduleProcessingCookie_entries (cookiesMap : gmap Z (list (Entry NetworkRule)))
    (requestId : Z) (name url : jsstring) (rules : list NetworkRule)
    (remove : bool) :
  entriesOf (scheduleProcessingCookie cookiesMap requestId name url rules remove)
            requestId
  = entriesOf cookiesMap requestId
    ++ [{| remove := remove; cookie_name := name; cookie_url := url;
           rules := rules |}].
Proof.
  unfold entriesOf, scheduleProcessingCookie. by rewrite lookup_insert_eq.
Qed.

Lemma scheduleProcessingCookie_other (cookiesMap : gmap Z (list (Entry NetworkRule)))
    (requestId other : Z) (name url : jsstring) (rules : list NetworkRule)
    (remove : bool) :
  other <> requestId ->
  scheduleProcessingCookie cookiesMap requestId name url rules remove !! other
  = cookiesMap !! other.
Proof.
  intros Hne. unfold scheduleProcessingCookie. by rewrite lookup_insert_ne.
Qed.

Lemma lookupModifyingRules_nonempty (cookieName : jsstring)
    (rules : list NetworkRule) :
  lookupModifyingRules cookieName rules <> [] ->
  forall r, r ∈ rules -> appliesTo cookieName r = true ->
            isModifyingRule r = true.
Proof.
  unfold lookupModifyingRules. rewrite lookupModifyingRules_loop_spec.
  destruct (existsb _ rules) eqn:Hex; [congruence |].
  intros _ r Hr Happ.
  destruct (isModifyingRule r) eqn:Hmod; [reflexivity |].
  assert (existsb (fun r => appliesTo cookieName r && negb (isModifyingRule r)) rules = true).
  { apply existsb_exists. exists r. split; [by apply list_elem_of_In |].
    by rewrite Happ, Hmod. }
  congruence.
Qed.

Lemma extends_refl (cookieRules : list NetworkRule) (requestId : Z)
    (cookiesMap : gmap Z (list (Entry NetworkRule))) :
  extends cookieRules requestId cookiesMap cookiesMap.
Proof. split; [exists []; by rewrite app_nil_r | done]. Qed.

Lemma extends_trans (cookieRules : list NetworkRule) (requestId : Z)
    (m1 m2 m3 : gmap Z (list (Entry NetworkRule))) :
  extends cookieRules requestId m1 m2 ->
  extends cookieRules requestId m2 m3 ->
  extends cookieRules requestId m1 m3.
Proof.
  intros [(s12 & H12 & Hok12) Ho12] [(s23 & H23 & Hok23) Ho23]. split.
  - exists (s12 ++ s23). split; [by rewrite H23, H12, app_assoc |].
    by apply Forall_app_2.
  - intros other Hne. by rewrite Ho23, Ho12.
Qed.

Lemma extends_schedule (cookieRules : list NetworkRule) (requestId : Z)
    (cookiesMap : gmap Z (list (Entry NetworkRule))) (name url : jsstring)
    (rules : list NetworkRule) (remove : bool) :
  modifyEntryOk cookieRules
    {| remove := remove; cookie_name := name; cookie_url := url; rules := rules |} ->
  extends cookieRules requestId cookiesMap
    (scheduleProcessingCookie cookiesMap requestId name url rules remove).
Proof.
  intros Hok. split.
  - eexists. split; [apply scheduleProcessingCookie_entries |].
    constructor; [exact Hok | constructor].
  - intros other Hne. by apply scheduleProcessingCookie_other.
Qed.

(** The loop never reads past the end of [cookies], and all it does to the
    schedule is to add entries for the request. *)
Lemma processCookies_extends (requestId : Z) (url : jsstring)
    (cookieRules : list NetworkRule) (iCookies : nat)
    (cookies : list CookieUtils.Cookie) (modified : bool)
    (cookiesMap : gmap Z (list (Entry NetworkRule))) :
  (iCookies <= length cookies)%nat ->
  exists cookies' modified' cookiesMap',
    processCookies requestId url cookieRules iCookies cookies modified cookiesMap
    = Some (cookies', modified', cookiesMap')
    /\ extends cookieRules requestId cookiesMap cookiesMap'.
Proof.
  revert cookies modified cookiesMap.
  induction iCookies as [| i IH]; intros cookies modified cookiesMap Hlen.
  - do 3 eexists. split; [reflexivity | apply extends_refl].
  - cbn [processCookies].
    destruct (lookup_lt_is_Some_2 cookies i ltac:(lia)) as [cookie Hcookie].
    rewrite Hcookie.
    set (cookieName := CookieUtils.name cookie).
    assert (Hm : forall m,
      extends cookieRules requestId m
        match lookupModifyingRules cookieName cookieRules with
        | [] => m
        | _ :: _ =>
            scheduleProcessingCookie m requestId cookieName url
              (lookupModifyingRules cookieName cookieRules) false
        end).
    { intros m.
      destruct (lookupModifyingRules cookieName cookieRules) as [| r rs] eqn:Hl;
        [apply extends_refl |].
      apply extends_schedule. intros _. simpl. rewrite Hl.
      split; [discriminate |]. split; [reflexivity |].
      apply lookupModifyingRules_nonempty. by rewrite Hl. }
    assert (Hdel : (i <= length (delete i cookies))%nat).
    { rewrite length_delete by (by eexists). lia. }
    destruct (lookupNotModifyingRule cookieName cookieRules) as [bRule |].
    + destruct (negb (isWhitelist bRule)).
      * edestruct IH as (cs & md & mp & -> & Hext); [exact Hdel |].
        do 3 eexists. split; [reflexivity |].
        eapply extends_trans; [| exact Hext].
        eapply extends_trans; [| apply Hm].
        apply extends_schedule. intros ?; discriminate.
      * edestruct IH as (cs & md & mp & -> & Hext); [lia |].
        do 3 eexists. split; [reflexivity |].
        eapply extends_trans; [| exact Hext].
        eapply extends_trans; [| apply Hm].
        apply extends_schedule. intros ?; discriminate.
    + edestruct IH as (cs & md & mp & -> & Hext); [lia |].
      do 3 eexists. split; [reflexivity |].
      eapply extends_trans; [| exact Hext]. apply Hm.
Qed.

(** [processRequestHeaders] always returns, and all it does to the schedule
    is to add entries for the request. *)
Lemma processRequestHeaders_extends
    (cookiesMap : gmap Z (list (Entry NetworkRule))) (request : Request)
    (requestHeaders : list Header) (cookieRules : list NetworkRule) :
  exists modified requestHeaders' cookiesMap',
    processRequestHeaders cookiesMap request requestHeaders cookieRules
    = Some (modified, requestHeaders', cookiesMap')
    /\ extends cookieRules (requestId request) cookiesMap cookiesMap'.
Proof.
  unfold processRequestHeaders.
  destruct cookieRules as [| r0 rs];
    [do 3 eexists; split; [reflexivity | apply extends_refl] |].
  destruct (findHeaderByName requestHeaders (js "Cookie")) as [[pos h] |];
    [| do 3 eexists; split; [reflexivity | apply extends_refl]].
  destruct (CookieUtils.parseCookie (value h)) as [| c cs] eqn:Hparse;
    [do 3 eexists; split; [reflexivity | apply extends_refl] |].
  destruct (processCookies_extends (requestId request) (url request)
              (r0 :: rs) (length (c :: cs)) (c :: cs) false cookiesMap)
    as (cookies' & modified' & map' & -> & Hext); [lia |].
  do 3 eexists. split; [reflexivity | exact Hext].
Qed.

Lemma isModifyingRule_false (rule : NetworkRule) :
  isModifyingRule rule = false
  <-> getSameSite (getAdvancedModifier rule) = None
      /\ (getMaxAge (getAdvancedModifier rule) = None
          \/ exists m, getMaxAge (getAdvancedModifier rule) = Some m /\ (m <= 0)%Q).
Proof.
  unfold isModifyingRule.
  destruct (getSameSite (getAdvancedModifier rule)) as [ss |].
  { split; [discriminate | by intros [? _]]. }
  destruct (getMaxAge (getAdvancedModifier rule)) as [m |].
  - rewrite negb_false_iff, Qle_bool_iff. split.
    + intros Hle. split; [reflexivity |]. right. by exists m.
    + intros [_ [? | (m' & [= <-] & Hle)]]; done.
  - split; [intros _; split; [reflexivity | by left] | reflexivity].
Qed.

(** C5.  [lookupModifyingRules] returns the empty list as soon as some rule
    of the list applies to the cookie name and is not modifying (its
    modifier has no [sameSite] and no [maxAge] greater than 0); otherwise it
    returns the rules that apply and are modifying, in list order.  So every
    [remove: false] entry [processRequestHeaders] schedules is for a cookie
    to which no non-modifying rule applies. *)
Theorem lookupModifyingRules_all_or_nothing (cookieName : jsstring)
    (cookieRules : list NetworkRule) :
  ((exists r, r ∈ cookieRules /\ appliesTo cookieName r = true
              /\ isModifyingRule r = false) ->
   lookupModifyingRules cookieName cookieRules = [])
  /\ ((forall r, r ∈ cookieRules -> appliesTo cookieName r = true ->
                 isModifyingRule r = true) ->
      lookupModifyingRules cookieName cookieRules
      = List.filter (fun r => appliesTo cookieName r && isModifyingRule r)
                    cookieRules)
  /\ (forall r, isModifyingRule r = false
        <-> getSameSite (getAdvancedModifier r) = None
            /\ (getMaxAge (getAdvancedModifier r) = None
                \/ exists m, getMaxAge (getAdvancedModifier r) = Some m
                             /\ (m <= 0)%Q))
  /\ forall (cookiesMap : gmap Z (list (Entry NetworkRule))) (request : Request)
            (requestHeaders : list Header),
      exists modified requestHeaders' cookiesMap' scheduled,
        processRequestHeaders cookiesMap request requestHeaders cookieRules
        = Some (modified, requestHeaders', cookiesMap')
        /\ entriesOf cookiesMap' (requestId request)
           = entriesOf cookiesMap (requestId request) ++ scheduled
        /\ Forall (fun e =>
                     remove e = false ->
                     forall r, r ∈ cookieRules ->
                               appliesTo (cookie_name e) r = true ->
                               isModifyingRule r = true)
                  scheduled.
Proof.
  unfold lookupModifyingRules. rewrite lookupModifyingRules_loop_spec.
  split; [| split; [| split; [exact isModifyingRule_false |]]].
  - intros (r & Hin & Happ & Hmod).
    assert (Hex : existsb (fun r => appliesTo cookieName r
                                    && negb (isModifyingRule r)) cookieRules
                  = true).
    { apply existsb_exists. exists r.
      split; [by apply list_elem_of_In | by rewrite Happ, Hmod]. }
    by rewrite Hex.
  - intros Hall.
    destruct (existsb _ cookieRules) eqn:Hex; [| reflexivity].
    apply existsb_exists in Hex as (r & Hin & Hr).
    apply andb_true_iff in Hr as [Happ Hmod].
    apply list_elem_of_In in Hin.
    rewrite (Hall r Hin Happ) in Hmod. discriminate.
  - intros cookiesMap request requestHeaders.
    destruct (processRequestHeaders_extends cookiesMap request requestHeaders
                cookieRules)
      as (modified & headers' & map' & Hres & (scheduled & Hent & Hok) & _).
    exists modified, headers', map', scheduled.
    split; [exact Hres |]. split; [exact Hent |].
    eapply Forall_impl; [exact Hok |].
    intros e He Hremove. by destruct (He Hremove) as (_ & _ & Hall).
Qed.

Lemma findHeaderByName_from_None (i : nat) (headers : list Header)
    (headerName : jsstring) :
  Forall (fun h => toLowerCase (name h) <> toLowerCase headerName) headers ->
  findHeaderByName_from i headers headerName = None.
Proof.
  intros Hall. revert i. induction Hall as [| h hs Hh _ IH]; intros i; simpl.
  - reflexivity.
  - rewrite bool_decide_eq_false_2 by exact Hh. apply IH.
Qed.

(** [findHeaderByName] finds the first header of that name. *)
Lemma findHeaderByName_from_first (i pos : nat) (headers : list Header)
    (headerName : jsstring) (header : Header) :
  headers !! pos = Some header ->
  toLowerCase (name header) = toLowerCase headerName ->
  Forall (fun h => toLowerCase (name h) <> toLowerCase headerName)
         (take pos headers) ->
  findHeaderByName_from i headers headerName = Some ((i + pos)%nat, header).
Proof.
  revert i headers. induction pos as [| pos IH]; intros i headers Hpos Hname Hbefore.
  - destruct headers as [| h hs]; [discriminate |].
    injection Hpos as ->. simpl.
    rewrite bool_decide_eq_true_2 by exact Hname. by rewrite Nat.add_0_r.
  - destruct headers as [| h hs]; [discriminate |].
    simpl in Hpos, Hbefore. apply Forall_cons in Hbefore as [Hh Hbefore].
    simpl. rewrite bool_decide_eq_false_2 by exact Hh.
    rewrite (IH (S i) hs Hpos Hname Hbefore). do 2 f_equal. lia.
Qed.

(** C9.  When there are no cookie rules, or no header is named [Cookie] up
    to case, or the (first) [Cookie] header parses to no cookie at all,
    [processRequestHeaders] returns [false] and leaves both the request
    headers and the schedule map as they were. *)
Theorem processRequestHeaders_nothing_to_apply
    (cookiesMap : gmap Z (list (Entry NetworkRule))) (request : Request)
    (requestHeaders : list Header) (cookieRules : list NetworkRule) :
  cookieRules = []
  \/ Forall (fun h => toLowerCase (name h) <> toLowerCase (js "Cookie"))
            requestHeaders
  \/ (exists pos cookieHeader,
        requestHeaders !! pos = Some cookieHeader
        /\ toLowerCase (name cookieHeader) = toLowerCase (js "Cookie")
        /\ Forall (fun h => toLowerCase (name h) <> toLowerCase (js "Cookie"))
                  (take pos requestHeaders)
        /\ CookieUtils.parseCookie (value cookieHeader) = []) ->
  processRequestHeaders cookiesMap request requestHeaders cookieRules
  = Some (false, requestHeaders, cookiesMap).
Proof.
  intros [-> | [Hnone | (pos & cookieHeader & Hpos & Hname & Hfirst & Hparse)]].
  - reflexivity.
  - unfold processRequestHeaders, findHeaderByName.
    rewrite (findHeaderByName_from_None 0 _ _ Hnone).
    by destruct cookieRules.
  - unfold processRequestHeaders, findHeaderByName.
    rewrite (findHeaderByName_from_first 0 pos _ _ _ Hpos Hname Hfirst).
    rewrite Hparse. by destruct cookieRules.
Qed.

End Cookies.

Section CookieExamples.
Import JS Model CookieFiltering Samples.

Lemma lookupModifyingRules_all_or_nothing_witness :
  lookupModifyingRules (js "tracker") [rule_tracker_maxAge; rule_tracker] = []
  /\ lookupModifyingRules (js "tracker") [rule_session_lax; rule_tracker_maxAge]
     = [rule_tracker_maxAge].
Proof.
  split.
  - destruct (lookupModifyingRules_all_or_nothing (js "tracker")
                [rule_tracker_maxAge; rule_tracker]) as (Hnone & _).
    apply Hnone. exists rule_tracker.
    split; [apply list_elem_of_In; simpl; tauto |].
    split; reflexivity.
  - destruct (lookupModifyingRules_all_or_nothing (js "tracker")
                [rule_session_lax; rule_tracker_maxAge]) as (_ & Hall & _).
    rewrite Hall; [reflexivity |].
    intros r Hr _. apply list_elem_of_In in Hr. simpl in Hr.
    destruct Hr as [<- | [<- | []]]; reflexivity.
Defined.

(** The blocking rule removes [tracker] from the header and schedules its
    removal; the modifying rule leaves the header alone and schedules the
    modification. *)
Example processRequestHeaders_tracker :
  processRequestHeaders ∅ request_site headers_with_cookie [rule_tracker]
  = Some (true,
          [ {| name := js "Accept"; value := js "*/*" |};
            {| name := js "cookie"; value := js "JSESSIONID=x" |} ],
          {[ 1 := [ {| remove := true; cookie_name := js "tracker";
                       cookie_url := js "https://site.com/";
                       rules := [rule_tracker] |} ] ]})
  /\ processRequestHeaders ∅ request_site headers_with_cookie
                           [rule_tracker_maxAge]
     = Some (false, headers_with_cookie,
             {[ 1 := [ {| remove := false; cookie_name := js "tracker";
                          cookie_url := js "https://site.com/";
                          rules := [rule_tracker_maxAge] |} ] ]}).
Proof. split; vm_compute; reflexivity. Qed.

Lemma processRequestHeaders_nothing_to_apply_witness :
  processRequestHeaders ∅ request_site headers_without_cookie [rule_tracker]
  = Some (false, headers_without_cookie, ∅)
  /\ processRequestHeaders ∅ request_site
       [ {| name := js "COOKIE"; value := js "; ;" |} ] [rule_tracker]
     = Some (false, [ {| name := js "COOKIE"; value := js "; ;" |} ], ∅).
Proof.
  split.
  - apply processRequestHeaders_nothing_to_apply. right. left.
    repeat constructor. discriminate.
  - apply processRequestHeaders_nothing_to_apply. right. right.
    exists 0%nat, {| name := js "COOKIE"; value := js "; ;" |}.
    repeat split. constructor.
Defined.

End CookieExamples.

Section MaxAge.
Import JS Model CookieFiltering Spec.

(** No number is greater than itself. *)
Lemma dgt_irrefl (x : double) : dgt x x = false.
Proof.
  unfold dgt, SpecFloat.SFltb, SpecFloat.SFcompare.
  destruct x as [s | s | | s m e]; [by destruct s.. | done |].
  rewrite Z.compare_refl.
  change (PosDef.Pos.compare_cont Eq m m) with (Pos.compare m m).
  rewrite Pos.compare_refl. by destruct s.
Qed.

(** C7 (what the code does).  For a rule's [maxAge'] greater than 0: a
    cookie whose own [maxAge] is 0 and that has no [expires] is treated as
    having no expiry, so its [maxAge] becomes [maxAge'] and its lifetime
    grows from [now] to [now + maxAge']; and for a cookie with both a
    [maxAge] and an [expires], when the expiry the code computes from the
    cookie's [maxAge] is greater than the one it computes from [maxAge'],
    only [expires] is rewritten, so the call returns [true] while the
    expiry given by the cookie's [maxAge] stays what it was. *)
Theorem updateSetCookieMaxAge_not_only_tightening (now : Z)
    (setCookie : BrowserCookie) (maxAge' : double) (v : Q) :
  valueOf maxAge' = Some v -> (0 < v)%Q ->
  (maxAge setCookie = Some (double_of_Z 0) -> expires setCookie = None ->
   exists updated,
     updateSetCookieMaxAge now setCookie maxAge' = (true, updated)
     /\ maxAge updated = Some maxAge'
     /\ expiryTimeSec now setCookie = Some (inject_Z now / 1000 + 0)%Q
     /\ expiryTimeSec now updated = Some (inject_Z now / 1000 + v)%Q
     /\ (inject_Z now / 1000 + 0 < inject_Z now / 1000 + v)%Q)
  /\ (forall (a : double) (d : Date),
        maxAge setCookie = Some a -> truthy a = true ->
        expires setCookie = Some d ->
        let currentTimeSec := ddiv (double_of_Z now) (double_of_Z 1000) in
        dgt (dadd currentTimeSec a) (dadd currentTimeSec maxAge') = true ->
        exists updated,
          updateSetCookieMaxAge now setCookie maxAge' = (true, updated)
          /\ maxAge updated = Some a
          /\ expires updated
             = Some (newDate (dmul (dadd currentTimeSec maxAge')
                                   (double_of_Z 1000)))
          /\ expiryTimeSec now updated = expiryTimeSec now setCookie).
Proof.
  intros Hv Hpos. split.
  - intros Hmax Hexp.
    exists {| sameSite := sameSite setCookie; maxAge := Some maxAge';
              expires := expires setCookie |}.
    unfold updateSetCookieMaxAge, expiryTimeSec. rewrite Hmax, Hexp.
    cbn [truthy double_of_Z SpecFloat.binary_normalize maxAge expires
         valueOf].
    rewrite Hv. repeat split. rewrite Qplus_lt_r. exact Hpos.
  - intros a d Hmax Htruthy Hexp currentTimeSec Hgt.
    exists {| sameSite := sameSite setCookie; maxAge := maxAge setCookie;
              expires := Some (newDate (dmul (dadd currentTimeSec maxAge')
                                             (double_of_Z 1000))) |}.
    unfold updateSetCookieMaxAge, expiryTimeSec. rewrite Hmax, Hexp, Htruthy.
    fold currentTimeSec. rewrite Hgt. cbn [maxAge expires]. by repeat split.
Qed.

End MaxAge.

Section MaxAgeExamples.
Import JS Model CookieFiltering Spec.

(** The cookie of [Set-Cookie: id=1; Max-Age=0], and a rule with
    [maxAge = 60], at [Date.now() = 1000000]; and the cookie with
    [maxAge = 100] and an [expires] of 1100000 ms under the same rule. *)
Lemma updateSetCookieMaxAge_not_only_tightening_witness :
  updateSetCookieMaxAge 1000000
    {| sameSite := None; maxAge := Some (double_of_Z 0); expires := None |}
    (double_of_Z 60)
  = (true, {| sameSite := None; maxAge := Some (double_of_Z 60);
              expires := None |})
  /\ updateSetCookieMaxAge 1000000
       {| sameSite := None; maxAge := Some (double_of_Z 100);
          expires := Some (DateValue 1100000) |}
       (double_of_Z 60)
     = (true, {| sameSite := None; maxAge := Some (double_of_Z 100);
                 expires := Some (DateValue 1060000) |}).
Proof.
  edestruct (updateSetCookieMaxAge_not_only_tightening 1000000
               {| sameSite := None; maxAge := Some (double_of_Z 0);
                  expires := None |}
               (double_of_Z 60))
    as [Hzero _]; [reflexivity | reflexivity |].
  edestruct (updateSetCookieMaxAge_not_only_tightening 1000000
               {| sameSite := None; maxAge := Some (double_of_Z 100);
                  expires := Some (DateValue 1100000) |}
               (double_of_Z 60))
    as [_ Hboth]; [reflexivity | reflexivity |].
  destruct (Hzero eq_refl eq_refl) as (u1 & Hu1 & _).
  destruct (Hboth (double_of_Z 100) (DateValue 1100000) eq_refl eq_refl eq_refl
              eq_refl) as (u2 & Hu2 & _).
  split; vm_compute; reflexivity.
Defined.

(** The rounding of the arithmetic shows in the result.  At
    [Date.now() = 1000006] a cookie that expires at 1060006 ms, which is
    60 s from now exactly, is found to expire later than the rule's 60 s
    and is rewritten, to 1060005 ms; and at [Date.now() = 1.7e12] a cookie
    with [maxAge = 60.0000001] is left alone by a rule with
    [maxAge = 60]. *)
Example updateSetCookieMaxAge_rounding :
  (inject_Z 1060006 / 1000 == inject_Z 1000006 / 1000 + 60)%Q
  /\ updateSetCookieMaxAge 1000006
       {| sameSite := None; maxAge := None;
          expires := Some (DateValue 1060006) |}
       (double_of_Z 60)
     = (true, {| sameSite := None; maxAge := None;
                 expires := Some (DateValue 1060005) |})
  /\ updateSetCookieMaxAge 1000006
       {| sameSite := None; maxAge := None;
          expires := Some (DateValue 2000000) |}
       (double_of_Z 60)
     = (true, {| sameSite := None; maxAge := None;
                 expires := Some (DateValue 1060005) |})
  /\ fst (updateSetCookieMaxAge 1700000000000
            {| sameSite := None;
               maxAge := Some (double_of_Q (600000001 # 10000000));
               expires := None |}
            (double_of_Z 60))
     = false.
Proof.
  split; [reflexivity |]. split; [| split]; vm_compute; reflexivity.
Qed.

End MaxAgeExamples.

Section UrlCapExamples.
Import JS Utils Model NetworkEngine Samples.

(** With the rule [||example.org^] in the shortcuts table: a request whose
    URL has [example.org] within the first 4096 code units finds the rule;
    when the only occurrence lies beyond them the rule is no candidate,
    although its own [match] accepts the request. *)
Example matchAll_beyond_cap :
  matchAll (RuleStorageApi0 := Sample.storageOf [rule_example_org])
           engine_example (request_long 100) = [rule_example_org]
  /\ matchAll (RuleStorageApi0 := Sample.storageOf [rule_example_org])
              engine_example (request_long 5000) = []
  /\ rule_match rule_example_org (request_long 5000) = true.
Proof. split; [| split]; vm_compute; reflexivity. Qed.

(** C6 as stated fails: a URL is not matched as if it were truncated.  The
    URL of [request_long 4081] has [example.org] at the positions 4090 to
    4100: the window [examp] lies within the first 4096 code units, so the
    rule is a candidate, and [match] accepts the whole request; on the
    request truncated to 4096 code units the rule is a candidate too, but
    [match] rejects it. *)
Lemma shortcut_phase_not_as_truncated :
  matchShortcutsLookupTable (RuleStorageApi0 := Sample.storageOf [rule_example_org])
    engine_example (request_long 4081) = [rule_example_org]
  /\ matchShortcutsLookupTable
       (RuleStorageApi0 := Sample.storageOf [rule_example_org])
       engine_example (truncated (request_long 4081)) = []
  /\ matchShortcutsLookupTable
       (RuleStorageApi0 := Sample.storageOf [rule_example_org])
       engine_example (request_long 4081)
     <> matchShortcutsLookupTable
          (RuleStorageApi0 := Sample.storageOf [rule_example_org])
          engine_example (truncated (request_long 4081)).
Proof.
  assert (Hcandidates :
    shortcutCandidates engine_example (urlLowercase (request_long 4081))
    = [0]) by (vm_compute; reflexivity).
  assert (Hwhole :
    matchShortcutsLookupTable
      (RuleStorageApi0 := Sample.storageOf [rule_example_org])
      engine_example (request_long 4081) = [rule_example_org]).
  { rewrite matchShortcutsLookupTable_candidates, Hcandidates.
    vm_compute. reflexivity. }
  assert (Hcut :
    matchShortcutsLookupTable
      (RuleStorageApi0 := Sample.storageOf [rule_example_org])
      engine_example (truncated (request_long 4081)) = []).
  { rewrite matchShortcutsLookupTable_candidates.
    change (urlLowercase (truncated (request_long 4081)))
      with (take MAX_URL_LENGTH (urlLowercase (request_long 4081))).
    rewrite <- shortcutCandidates_take, Hcandidates.
    vm_compute. reflexivity. }
  split; [exact Hwhole |]. split; [exact Hcut |].
  rewrite Hwhole, Hcut. discriminate.
Qed.

End UrlCapExamples.

(* ===================================================================== *)
(** * Part III.  Further properties                                       *)
(* ===================================================================== *)

(** ** Further functions of [utils.ts] *)

Section StringUtils.
Import JS Utils.

Lemma charAt_in_range (str : jsstring) (i : nat) (c : N) :
  str !! i = Some c -> charAt str (Z.of_nat i) = [c].
Proof.
  intros Hc. unfold charAt.
  destruct (Z.ltb_spec (Z.of_nat i) 0); [lia |]. by rewrite Nat2Z.id, Hc.
Qed.

Lemma charAt_negative (str : jsstring) (i : Z) : i < 0 -> charAt str i = [].
Proof. intros Hi. unfold charAt. by destruct (Z.ltb_spec i 0); [| lia]. Qed.

Lemma charAt_beyond (str : jsstring) (i : Z) :
  Z.of_nat (length str) <= i -> charAt str i = [].
Proof.
  intros Hi. unfold charAt. destruct (Z.ltb_spec i 0); [reflexivity |].
  rewrite lookup_ge_None_2; [reflexivity | lia].
Qed.

Lemma startsAtIndexWith_loop_true (str : jsstring) (k : Z) (substr : jsstring)
    (n i : nat) :
  startsAtIndexWith_loop str k substr i n = true
  <-> forall j : nat, (i <= j < i + n)%nat ->
        charAt str (k + Z.of_nat j) = charAt substr (Z.of_nat j).
Proof.
  revert i. induction n as [| n IH]; intros i; simpl.
  - split; [intros _ j Hj; lia | reflexivity].
  - case_bool_decide as Heq.
    + rewrite IH. split.
      * intros Hall j Hj. destruct (decide (j = i)) as [-> | Hne];
          [exact Heq | apply Hall; lia].
      * intros Hall j Hj. apply Hall. lia.
    + split; [discriminate |]. intros Hall. destruct Heq. apply Hall. lia.
Qed.

(** X1.  [startsAtIndexWith] holds exactly when [substr] occurs in [str] at
    [startIndex]; for a negative [startIndex] only the empty [substr] is
    accepted, and an empty [substr] is rejected past the end of [str]. *)
Theorem startsAtIndexWith_occurs (str : jsstring) (startIndex : Z)
    (substr : jsstring) :
  startsAtIndexWith str startIndex substr = true
  <-> (0 <= startIndex
       /\ startIndex + Z.of_nat (length substr) <= Z.of_nat (length str)
       /\ take (length substr) (drop (Z.to_nat startIndex) str) = substr)
      \/ (startIndex < 0 /\ substr = []).
Proof.
  unfold startsAtIndexWith.
  destruct (Z.ltb_spec (Z.of_nat (length str) - startIndex)
                       (Z.of_nat (length substr))) as [Hshort | Hfits].
  - split; [discriminate |].
    intros [(Hk & Hlen & _) | (Hk & ->)]; simpl in *; lia.
  - rewrite startsAtIndexWith_loop_true.
    destruct (Z.ltb_spec startIndex 0) as [Hneg | Hpos].
    + split.
      * intros Hall. right. split; [exact Hneg |].
        destruct substr as [| c cs]; [reflexivity |].
        specialize (Hall 0%nat ltac:(simpl; lia)).
        rewrite charAt_negative in Hall by lia. discriminate.
      * intros [(Hk & _) | (_ & ->)]; [lia |]. intros j Hj. simpl in Hj. lia.
    + split.
      * intros Hall. left. split; [exact Hpos |]. split; [lia |].
        apply list_eq. intros j.
        destruct (decide (j < length substr)%nat) as [Hj | Hj].
        -- rewrite lookup_take_lt, lookup_drop by lia.
           specialize (Hall j ltac:(lia)).
           destruct (lookup_lt_is_Some_2 substr j Hj) as [c Hc].
           destruct (lookup_lt_is_Some_2 str (Z.to_nat startIndex + j)
                       ltac:(lia)) as [d Hd].
           rewrite (charAt_in_range substr j c Hc) in Hall.
           replace (startIndex + Z.of_nat j)
             with (Z.of_nat (Z.to_nat startIndex + j)) in Hall by lia.
           rewrite (charAt_in_range str _ d Hd) in Hall.
           rewrite Hc, Hd. congruence.
        -- rewrite lookup_take_ge by lia.
           symmetry. apply lookup_ge_None_2. lia.
      * intros [(_ & Hlen & Htake) | (Hk & _)]; [| lia].
        intros j Hj.
        destruct (lookup_lt_is_Some_2 substr j ltac:(lia)) as [c Hc].
        rewrite (charAt_in_range substr j c Hc).
        replace (startIndex + Z.of_nat j)
          with (Z.of_nat (Z.to_nat startIndex + j)) by lia.
        apply charAt_in_range.
        rewrite <- Htake in Hc.
        rewrite lookup_take_lt, lookup_drop in Hc by lia. exact Hc.
Qed.

Lemma indexOfAny_loop_spec (str : jsstring) (chars : list jsstring) (n : nat)
    (i : Z) :
  let r := indexOfAny_loop str chars i n in
  (r = -1 /\ forall j, i <= j < i + Z.of_nat n -> charAt str j ∉ chars)
  \/ (i <= r < i + Z.of_nat n /\ charAt str r ∈ chars
      /\ forall j, i <= j < r -> charAt str j ∉ chars).
Proof.
  revert i. induction n as [| n IH]; intros i; simpl.
  - left. split; [reflexivity | intros j Hj; lia].
  - case_bool_decide as Hin.
    + right. split; [lia |]. split; [exact Hin | intros j Hj; lia].
    + destruct (IH (i + 1)) as [[Hr Hnone] | (Hr & Hfound & Hnone)].
      * left. split; [exact Hr |]. intros j Hj.
        destruct (decide (j = i)) as [-> | Hne]; [exact Hin | apply Hnone; lia].
      * right. split; [lia |]. split; [exact Hfound |]. intros j Hj.
        destruct (decide (j = i)) as [-> | Hne]; [exact Hin | apply Hnone; lia].
Qed.

(** X2.  [indexOfAny] returns the first index from [start] on whose
    character is one of [chars], and [-1] when there is none before the end
    of [str]. *)
Theorem indexOfAny_first (str : jsstring) (chars : list jsstring) (start : Z) :
  let r := indexOfAny str chars start in
  (r = -1
   /\ forall j, start <= j < Z.of_nat (length str) -> charAt str j ∉ chars)
  \/ (start <= r < Z.of_nat (length str) /\ charAt str r ∈ chars
      /\ forall j, start <= j < r -> charAt str j ∉ chars).
Proof.
  unfold indexOfAny.
  destruct (Z.leb_spec (Z.of_nat (length str)) start) as [Hpast | Hin].
  - left. split; [reflexivity | intros j Hj; lia].
  - pose proof (indexOfAny_loop_spec str chars
                  (Z.to_nat (Z.of_nat (length str) - start)) start) as Hloop.
    rewrite Z2Nat.id in Hloop by lia.
    replace (start + (Z.of_nat (length str) - start))
      with (Z.of_nat (length str)) in Hloop by lia.
    exact Hloop.
Qed.

Lemma stringArraysEquals_loop_true (l r : list jsstring) (n i : nat) :
  stringArraysEquals_loop l r i n = true
  <-> forall j, (i <= j < i + n)%nat -> l !! j = r !! j.
Proof.
  revert i. induction n as [| n IH]; intros i; simpl.
  - split; [intros _ j Hj; lia | reflexivity].
  - case_bool_decide as Heq.
    + rewrite IH. split.
      * intros Hall j Hj. destruct (decide (j = i)) as [-> | Hne];
          [exact Heq | apply Hall; lia].
      * intros Hall j Hj. apply Hall. lia.
    + split; [discriminate |]. intros Hall. destruct Heq. apply Hall. lia.
Qed.

(** X3.  [stringArraysEquals] decides equality of two arrays of strings,
    [null] being equal to [null] only. *)
Theorem stringArraysEquals_eq (l r : option (list jsstring)) :
  stringArraysEquals l r = true <-> l = r.
Proof.
  destruct l as [l |], r as [r |]; simpl; try (split; congruence).
  destruct (Nat.eqb_spec (length l) (length r)) as [Hlen | Hlen]; simpl.
  - rewrite stringArraysEquals_loop_true. split.
    + intros Hall. f_equal. apply list_eq. intros j.
      destruct (decide (j < length l)%nat) as [Hj | Hj]; [apply Hall; lia |].
      rewrite !lookup_ge_None_2 by lia. reflexivity.
    + intros [= ->] j _. reflexivity.
  - split; [discriminate | intros [= ->]; lia].
Qed.

End StringUtils.

Section SplitWithEscape.
Import JS Utils.

Lemma splitByDelimiter_loop_nonempty (delimiter escapeCharacter : jsstring)
    (rest : jsstring) (prev : option N) (sb : jsstring) (parts : list jsstring) :
  Forall (fun p => p <> []) parts ->
  Forall (fun p => p <> [])
         (snd (splitByDelimiter_loop delimiter escapeCharacter false prev rest
                                     sb parts)).
Proof.
  revert prev sb parts.
  induction rest as [| c rest IH]; intros prev sb parts Hparts; [exact Hparts |].
  cbn [splitByDelimiter_loop].
  case_bool_decide; [| by apply IH].
  destruct prev as [p |]; [| by apply IH].
  case_bool_decide; [by apply IH |].
  cbn [orb]. destruct (Nat.ltb_spec 0 (length sb)) as [Hsb | Hsb]; [| by apply IH].
  apply IH. apply Forall_app_2; [exact Hparts |].
  constructor; [| constructor]. intros ->. simpl in Hsb. lia.
Qed.

(** X4.  Without [preserveAllTokens] no part returned is empty. *)
Theorem splitByDelimiter_no_empty_part (str delimiter escapeCharacter : jsstring) :
  Forall (fun part => part <> [])
         (splitByDelimiterWithEscapeCharacter str delimiter escapeCharacter false).
Proof.
  unfold splitByDelimiterWithEscapeCharacter.
  destruct str as [| c str]; [constructor |].
  pose proof (splitByDelimiter_loop_nonempty delimiter escapeCharacter
                (c :: str) None [] [] ltac:(constructor)) as Hparts.
  destruct (splitByDelimiter_loop _ _ _ _ _ _ _) as [sb parts].
  simpl in Hparts. cbn [orb].
  destruct (Nat.ltb_spec 0 (length sb)) as [Hsb | Hsb]; [| exact Hparts].
  apply Forall_app_2; [exact Hparts |].
  constructor; [| constructor]. intros ->. simpl in Hsb. lia.
Qed.

Lemma splitByDelimiter_loop_preserving (d : N) (escapeCharacter : jsstring)
    (rest : jsstring) (p : N) (sb : jsstring) (parts : list jsstring) :
  [p] <> escapeCharacter ->
  Forall (fun c => [c] <> escapeCharacter) rest ->
  let '(sb', parts') :=
    splitByDelimiter_loop [d] escapeCharacter true (Some p) rest sb parts in
  parts' ++ [sb'] = parts ++ glue sb (split d rest).
Proof.
  revert p sb parts.
  induction rest as [| c rest IH]; intros p sb parts Hp Hrest.
  - simpl. by rewrite app_nil_r.
  - apply Forall_cons in Hrest as [Hc Hrest].
    cbn [splitByDelimiter_loop].
    rewrite (bool_decide_eq_false_2 _ Hp). cbn [orb].
    case_bool_decide as Hd.
    + injection Hd as ->. rewrite split_cons_sep.
      specialize (IH d [] (parts ++ [sb]) Hc Hrest).
      destruct (splitByDelimiter_loop _ _ _ _ _ _ _) as [sb' parts'].
      rewrite IH, <- app_assoc. simpl. rewrite app_nil_r.
      destruct (split d rest) eqn:Hsplit; [by destruct (split_nonempty d rest) |].
      reflexivity.
    + assert (Hne : c <> d) by congruence.
      destruct (split_cons_other d c rest Hne) as (q & qs & Hq & ->).
      specialize (IH c (sb ++ [c]) parts Hc Hrest).
      destruct (splitByDelimiter_loop _ _ _ _ _ _ _) as [sb' parts'].
      rewrite IH, Hq. simpl. by rewrite <- app_assoc.
Qed.

Lemma splitByDelimiter_loop_dropping (d : N) (escapeCharacter : jsstring)
    (rest : jsstring) (p : N) (sb : jsstring) (parts : list jsstring) :
  [p] <> escapeCharacter ->
  Forall (fun c => [c] <> escapeCharacter) rest ->
  let '(sb', parts') :=
    splitByDelimiter_loop [d] escapeCharacter false (Some p) rest sb parts in
  parts' ++ filter (fun q => q <> []) [sb']
  = parts ++ filter (fun q => q <> []) (glue sb (split d rest)).
Proof.
  revert p sb parts.
  induction rest as [| c rest IH]; intros p sb parts Hp Hrest.
  - simpl. by rewrite app_nil_r.
  - apply Forall_cons in Hrest as [Hc Hrest].
    cbn [splitByDelimiter_loop].
    rewrite (bool_decide_eq_false_2 _ Hp). cbn [orb].
    case_bool_decide as Hd.
    + injection Hd as ->. rewrite split_cons_sep.
      assert (Hfilter : forall qs,
        filter (fun q : jsstring => q <> []) (glue sb ([] :: qs))
        = filter (fun q : jsstring => q <> []) [sb]
          ++ filter (fun q : jsstring => q <> []) qs).
      { intros qs. simpl. rewrite app_nil_r.
        rewrite (filter_cons _ sb qs), (filter_cons _ sb []).
        by destruct (decide (sb <> [])). }
      destruct (Nat.ltb_spec 0 (length sb)) as [Hsb | Hsb].
      * specialize (IH d [] (parts ++ [sb]) Hc Hrest).
        destruct (splitByDelimiter_loop _ _ _ _ _ _ _) as [sb' parts'].
        rewrite IH, Hfilter, <- !app_assoc. f_equal.
        assert (sb <> []) by (intros ->; simpl in Hsb; lia).
        rewrite (filter_cons_True _ sb []) by done. simpl.
        destruct (split d rest) eqn:Hsplit; [by destruct (split_nonempty d rest) |].
        reflexivity.
      * assert (sb = []) as -> by (destruct sb; [done | simpl in Hsb; lia]).
        specialize (IH d [] parts Hc Hrest).
        destruct (splitByDelimiter_loop _ _ _ _ _ _ _) as [sb' parts'].
        rewrite IH, Hfilter. simpl.
        destruct (split d rest) eqn:Hsplit; [by destruct (split_nonempty d rest) |].
        reflexivity.
    + assert (Hne : c <> d) by congruence.
      destruct (split_cons_other d c rest Hne) as (q & qs & Hq & ->).
      specialize (IH c (sb ++ [c]) parts Hc Hrest).
      destruct (splitByDelimiter_loop _ _ _ _ _ _ _) as [sb' parts'].
      rewrite IH, Hq. simpl. by rewrite <- app_assoc.
Qed.


Lemma filter_nonempty_singleton (sb : jsstring) :
  filter (fun q : jsstring => q <> []) [sb]
  = if (0 <? length sb)%nat then [sb] else [].
Proof. by destruct sb. Qed.

(** X5.  On a string without the escape character and with
    [preserveAllTokens]: the empty string gives no part at all, where
    [split] gives one empty part; a string that starts with the delimiter
    gives what [split] on the delimiter gives without its first, empty
    part, the delimiter at index 0 being ignored; any other string gives
    what [split] gives.  Without [preserveAllTokens] every such string gives
    what [split] gives without the empty parts. *)
Theorem splitByDelimiter_without_escapes (str : jsstring) (d : N)
    (escapeCharacter : jsstring) :
  Forall (fun c => [c] <> escapeCharacter) str ->
  splitByDelimiterWithEscapeCharacter str [d] escapeCharacter true
  = match str with
    | [] => []
    | c :: _ => if (c =? d)%N then tail (split d str) else split d str
    end
  /\ splitByDelimiterWithEscapeCharacter str [d] escapeCharacter false
     = filter (fun q => q <> []) (split d str).
Proof.
  intros Hstr. unfold splitByDelimiterWithEscapeCharacter.
  destruct str as [| c rest]; [split; reflexivity |].
  apply Forall_cons in Hstr as [Hc Hrest].
  cbn [splitByDelimiter_loop orb].
  destruct (N.eqb_spec c d) as [-> | Hne].
  - rewrite bool_decide_eq_true_2 by reflexivity. rewrite split_cons_sep.
    split.
    + pose proof (splitByDelimiter_loop_preserving d escapeCharacter rest d
                    [] [] Hc Hrest) as Hloop.
      destruct (splitByDelimiter_loop _ _ _ _ _ _ _) as [sb parts].
      rewrite Hloop. simpl.
      destruct (split d rest) eqn:Hsplit; [by destruct (split_nonempty d rest) |].
      reflexivity.
    + pose proof (splitByDelimiter_loop_dropping d escapeCharacter rest d
                    [] [] Hc Hrest) as Hloop.
      destruct (splitByDelimiter_loop _ _ _ _ _ _ _) as [sb parts].
      rewrite filter_nonempty_singleton in Hloop.
      rewrite (filter_cons_False _ [] (split d rest)) by (intros H; by apply H).
      destruct (0 <? length sb)%nat; [| rewrite app_nil_r in Hloop];
        rewrite Hloop; simpl;
        (destruct (split d rest) eqn:Hsplit;
           [by destruct (split_nonempty d rest) | reflexivity]).
  - rewrite bool_decide_eq_false_2 by congruence.
    destruct (split_cons_other d c rest Hne) as (q & qs & Hq & ->).
    split.
    + pose proof (splitByDelimiter_loop_preserving d escapeCharacter rest c
                    ([] ++ [c]) [] Hc Hrest) as Hloop.
      destruct (splitByDelimiter_loop _ _ _ _ _ _ _) as [sb parts].
      rewrite Hloop, Hq. reflexivity.
    + pose proof (splitByDelimiter_loop_dropping d escapeCharacter rest c
                    ([] ++ [c]) [] Hc Hrest) as Hloop.
      destruct (splitByDelimiter_loop _ _ _ _ _ _ _) as [sb parts].
      rewrite filter_nonempty_singleton in Hloop.
      destruct (0 <? length sb)%nat; [| rewrite app_nil_r in Hloop];
        rewrite Hloop, Hq; reflexivity.
Qed.

Lemma splitByDelimiter_without_escapes_witness :
  splitByDelimiterWithEscapeCharacter (js ",a,,b") (js ",") (js "~") true
  = [js "a"; js ""; js "b"]
  /\ splitByDelimiterWithEscapeCharacter (js ",a,,b") (js ",") (js "~") false
     = [js "a"; js "b"].
Proof.
  destruct (splitByDelimiter_without_escapes (js ",a,,b") 44%N (js "~"))
    as [Hkeep Hdrop]; [by repeat constructor |].
  split; [exact Hkeep | exact Hdrop].
Defined.

(** The empty string has no part, with [preserveAllTokens] too. *)
Example splitByDelimiter_empty_string :
  splitByDelimiterWithEscapeCharacter (js "") (js ",") (js "~") true = []
  /\ split 44 (js "") = [js ""].
Proof. split; reflexivity. Qed.

(** An escaped delimiter stays in its part, without the escape character. *)
Example splitByDelimiter_escaped :
  splitByDelimiterWithEscapeCharacter (js "a~,b,c") (js ",") (js "~") false
  = [js "a,b"; js "c"].
Proof. reflexivity. Qed.

End SplitWithEscape.

(** ** The network engine: building and matching *)

Section EngineMatching.
Import JS Utils Model Spec NetworkEngine.
Context {NetworkRule : Type} `{!NetworkRuleApi NetworkRule}
        `{!RuleStorageApi NetworkRule}.

Lemma elem_of_flat_map {A B : Type} (f : A -> list B) (l : list A) (y : B) :
  y ∈ flat_map f l <-> exists x, x ∈ l /\ y ∈ f x.
Proof.
  rewrite list_elem_of_In, in_flat_map. split.
  - intros (x & Hx & Hy). exists x. by rewrite !list_elem_of_In.
  - intros (x & Hx & Hy). exists x. by rewrite <- !list_elem_of_In.
Qed.

Lemma elem_of_matchIndexes (request : Request) (rulesIndexes : list Z)
    (r : NetworkRule) :
  r ∈ matchIndexes request rulesIndexes
  <-> exists idx, idx ∈ rulesIndexes /\ retrieveNetworkRule idx = Some r
                  /\ rule_match r request = true.
Proof.
  unfold matchIndexes. rewrite elem_of_flat_map. split.
  - intros (idx & Hidx & Hr). exists idx. split; [exact Hidx |].
    destruct (retrieveNetworkRule idx) as [r' |]; [| by apply elem_of_nil in Hr].
    destruct (rule_match r' request) eqn:Hm; [| by apply elem_of_nil in Hr].
    apply list_elem_of_singleton in Hr as ->. by split.
  - intros (idx & Hidx & Hret & Hm). exists idx. split; [exact Hidx |].
    rewrite Hret, Hm. by apply list_elem_of_singleton.
Qed.

(** X6.  [matchAll] returns matching rules only: each one matches the
    request, and is a rule of [otherRules] or the rule the storage holds at
    an index found in one of the two lookup tables. *)
Theorem matchAll_sound (e : t NetworkRule) (request : Request)
    (r : NetworkRule) :
  r ∈ matchAll e request ->
  rule_match r request = true
  /\ (r ∈ otherRules e
      \/ exists idx hash,
           retrieveNetworkRule idx = Some r
           /\ (idx ∈ default [] (shortcutsLookupTable e !! hash)
               \/ idx ∈ default [] (domainsLookupTable e !! hash))).
Proof.
  unfold matchAll. rewrite !elem_of_app.
  intros [Hshort | [Hdom | Hother]].
  - unfold matchShortcutsLookupTable in Hshort.
    apply elem_of_flat_map in Hshort as (i & _ & Hr). cbv zeta in Hr.
    destruct (shortcutsLookupTable e !! _) as [l |] eqn:Hl;
      [| by apply elem_of_nil in Hr].
    apply elem_of_matchIndexes in Hr as (idx & Hidx & Hret & Hm).
    split; [exact Hm |]. right. eexists idx, _. split; [exact Hret |].
    left. by rewrite Hl.
  - unfold matchDomainsLookupTable in Hdom.
    destruct (sourceHostname request) as [[| c h] |];
      try by apply elem_of_nil in Hdom.
    apply elem_of_flat_map in Hdom as (d & _ & Hr). cbv zeta in Hr.
    destruct (domainsLookupTable e !! _) as [l |] eqn:Hl;
      [| by apply elem_of_nil in Hr].
    apply elem_of_matchIndexes in Hr as (idx & Hidx & Hret & Hm).
    split; [exact Hm |]. right. eexists idx, _. split; [exact Hret |].
    right. by rewrite Hl.
  - apply list_elem_of_filter in Hother as [Hm Hin]. split; [exact Hm | by left].
Qed.

(** The fold of [leastUsedShortcut], from any current best. *)
Lemma leastUsedShortcut_fold (histogram : gmap number Z)
    (shortcuts : list jsstring) (hash0 : number) (min0 : Z) :
  let '(hash, minCount) :=
    fold_left (fun '(shortcutHash, minCount) shortcutToCheck =>
                 let hash := fastHash shortcutToCheck in
                 let count := default 0 (histogram !! hash) in
                 if count <? minCount then (hash, count)
                 else (shortcutHash, minCount))
              shortcuts (hash0, min0) in
  (hash = hash0 /\ minCount = min0
   /\ forall s, s ∈ shortcuts -> min0 <= useCount histogram (fastHash s))
  \/ (exists pre w post,
        shortcuts = pre ++ w :: post
        /\ hash = fastHash w /\ minCount = useCount histogram (fastHash w)
        /\ minCount < min0
        /\ (forall s, s ∈ pre -> minCount < useCount histogram (fastHash s))
        /\ (forall s, s ∈ post -> minCount <= useCount histogram (fastHash s))).
Proof.
  revert hash0 min0. induction shortcuts as [| s l IH]; intros hash0 min0.
  - simpl. left. repeat split. intros s Hs. by apply elem_of_nil in Hs.
  - cbn [fold_left]. cbv zeta. fold (useCount histogram (fastHash s)).
    destruct (Z.ltb_spec (useCount histogram (fastHash s)) min0) as [Hlt | Hge].
    + specialize (IH (fastHash s) (useCount histogram (fastHash s))).
      destruct (fold_left _ l _) as [hash m].
      right. destruct IH as [(-> & -> & Hall) | (pre & w & post & -> & -> & -> & Hm & Hpre & Hpost)].
      * exists [], s, l. repeat split; try done.
        intros x Hx. by apply elem_of_nil in Hx.
      * exists (s :: pre), w, post. repeat split; try done; [lia |].
        intros x Hx. apply elem_of_cons in Hx as [-> | Hx]; [lia | by apply Hpre].
    + specialize (IH hash0 min0).
      destruct (fold_left _ l _) as [hash m].
      destruct IH as [(-> & -> & Hall) | (pre & w & post & -> & -> & -> & Hm & Hpre & Hpost)].
      * left. repeat split.
        intros x Hx. apply elem_of_cons in Hx as [-> | Hx]; [lia | by apply Hall].
      * right. exists (s :: pre), w, post. repeat split; try done.
        intros x Hx. apply elem_of_cons in Hx as [-> | Hx]; [lia | by apply Hpre].
Qed.

(** [leastUsedShortcut] picks the least used shortcut, the first one among
    equally used ones, as long as the use counts are below the initial
    [minCount], the largest 32-bit integer. *)
Lemma leastUsedShortcut_first_minimum (histogram : gmap number Z)
    (shortcuts : list jsstring) :
  shortcuts <> [] ->
  (forall s, s ∈ shortcuts -> useCount histogram (fastHash s) < 2147483647) ->
  exists pre w post,
    shortcuts = pre ++ w :: post
    /\ leastUsedShortcut histogram shortcuts
       = (fastHash w, useCount histogram (fastHash w))
    /\ (forall s, s ∈ pre ->
          useCount histogram (fastHash w) < useCount histogram (fastHash s))
    /\ (forall s, s ∈ post ->
          useCount histogram (fastHash w) <= useCount histogram (fastHash s)).
Proof.
  intros Hne Hbound. unfold leastUsedShortcut.
  pose proof (leastUsedShortcut_fold histogram shortcuts (Num (-1)) 2147483647)
    as Hfold.
  destruct (fold_left _ shortcuts _) as [hash m].
  destruct Hfold as [(_ & _ & Hall) | (pre & w & post & -> & -> & -> & _ & Hpre & Hpost)].
  - destruct shortcuts as [| s l]; [done |].
    specialize (Hall s ltac:(left)). specialize (Hbound s ltac:(left)). lia.
  - by exists pre, w, post.
Qed.


(** *** Building the engine *)

Lemma push_index_kept (m : gmap number (list Z)) (h k : number) (x y : Z) :
  y ∈ default [] (m !! k) ->
  y ∈ default [] (<[h := default [] (m !! h) ++ [x]]> m !! k).
Proof.
  intros Hy. destruct (decide (h = k)) as [-> | Hne].
  - rewrite lookup_insert_eq. simpl. apply elem_of_app. by left.
  - by rewrite lookup_insert_ne.
Qed.

Lemma push_index_added (m : gmap number (list Z)) (h : number) (x : Z) :
  x ∈ default [] (<[h := default [] (m !! h) ++ [x]]> m !! h).
Proof.
  rewrite lookup_insert_eq. simpl. apply elem_of_app. right. by left.
Qed.

Lemma push_domains_kept (domains : list jsstring) (m : gmap number (list Z))
    (k : number) (x y : Z) :
  y ∈ default [] (m !! k) ->
  y ∈ default []
        (fold_left (fun table domain =>
                      let hash := fastHash domain in
                      let rulesIndexes := default [] (table !! hash) in
                      <[hash := rulesIndexes ++ [x]]> table) domains m !! k).
Proof.
  revert m. induction domains as [| d l IH]; intros m Hy; [exact Hy |].
  cbn [fold_left]. apply IH. cbv zeta. by apply push_index_kept.
Qed.

Lemma push_domains_added (domains : list jsstring) (m : gmap number (list Z))
    (d : jsstring) (x : Z) :
  d ∈ domains ->
  x ∈ default []
        (fold_left (fun table domain =>
                      let hash := fastHash domain in
                      let rulesIndexes := default [] (table !! hash) in
                      <[hash := rulesIndexes ++ [x]]> table) domains m
         !! fastHash d).
Proof.
  revert m. induction domains as [| d' l IH]; intros m Hd.
  - by apply elem_of_nil in Hd.
  - cbn [fold_left]. apply elem_of_cons in Hd as [-> | Hd].
    + apply push_domains_kept. cbv zeta. apply push_index_added.
    + by apply IH.
Qed.

Lemma addRule_rulesCount (e : t NetworkRule) (rule : NetworkRule)
    (storageIdx : Z) :
  rulesCount (addRule e rule storageIdx) = rulesCount e + 1.
Proof.
  unfold addRule, addRuleToShortcutsTable, addRuleToDomainsTable.
  destruct (getRuleShortcuts rule) as [[| s l] |];
    [| destruct (leastUsedShortcut _ _); reflexivity |];
    (destruct (getPermittedDomains rule) as [[| d ds] |]; [| reflexivity |];
     case_bool_decide; reflexivity).
Qed.

Lemma useCount_consistent (e : t NetworkRule) (hash : number) :
  consistent e -> rulesCount e < 2147483647 ->
  useCount (shortcutsHistogram e) hash
  = Z.of_nat (length (default [] (shortcutsLookupTable e !! hash)))
  /\ useCount (shortcutsHistogram e) hash < 2147483647.
Proof.
  intros (_ & Hhist & Hlen & _) Hcount. unfold useCount. rewrite Hhist.
  destruct (shortcutsLookupTable e !! hash) as [l |] eqn:Hl; simpl.
  - split; [reflexivity |]. specialize (Hlen hash l Hl). lia.
  - split; [reflexivity | lia].
Qed.

(** What [addRuleToShortcutsTable] does for a rule with shortcuts, in an
    engine that is consistent and holds fewer than [2^31 - 1] rules: the
    index goes under the hash of the least used shortcut, and the count of
    that hash goes up by one. *)
Lemma addRuleToShortcutsTable_least_used (e : t NetworkRule)
    (rule : NetworkRule) (storageIdx : Z) (shortcuts : list jsstring) :
  consistent e -> rulesCount e < 2147483647 ->
  getRuleShortcuts rule = Some shortcuts -> shortcuts <> [] ->
  exists w,
    w ∈ shortcuts
    /\ (forall s, s ∈ shortcuts ->
          useCount (shortcutsHistogram e) (fastHash w)
          <= useCount (shortcutsHistogram e) (fastHash s))
    /\ addRuleToShortcutsTable e rule storageIdx
       = (true,
          {| rulesCount := rulesCount e;
             domainsLookupTable := domainsLookupTable e;
             shortcutsLookupTable :=
               <[fastHash w :=
                   default [] (shortcutsLookupTable e !! fastHash w)
                   ++ [storageIdx]]> (shortcutsLookupTable e);
             shortcutsHistogram :=
               <[fastHash w :=
                   useCount (shortcutsHistogram e) (fastHash w) + 1]>
                 (shortcutsHistogram e);
             otherRules := otherRules e |}).
Proof.
  intros Hcons Hcount Hshort Hne.
  destruct (leastUsedShortcut_first_minimum (shortcutsHistogram e) shortcuts Hne)
    as (pre & w & post & Heq & Hleast & Hpre & Hpost).
  { intros s _. by apply useCount_consistent. }
  exists w. split; [| split].
  - rewrite Heq. apply elem_of_app. right. by left.
  - intros s Hs. rewrite Heq in Hs.
    apply elem_of_app in Hs as [Hs | Hs]; [specialize (Hpre s Hs); lia |].
    apply elem_of_cons in Hs as [-> | Hs]; [lia | by apply Hpost].
  - unfold addRuleToShortcutsTable. rewrite Hshort.
    destruct shortcuts as [| s l]; [done |]. by rewrite Hleast.
Qed.

Lemma addRule_consistent (e : t NetworkRule) (rule : NetworkRule)
    (storageIdx : Z) :
  consistent e -> rulesCount e < 2147483647 ->
  consistent (addRule e rule storageIdx).
Proof.
  intros Hcons Hcount.
  destruct (getRuleShortcuts rule) as [[| s l] |] eqn:Hshort.
  2: {
    destruct (addRuleToShortcutsTable_least_used e rule storageIdx (s :: l))
      as (w & _ & _ & Hadd); try done.
    unfold addRule. rewrite Hadd. cbn.
    destruct (useCount_consistent e (fastHash w) Hcons Hcount) as [Hw _].
    destruct Hcons as (Hpos & Hhist & Hlen & Hnodup).
    split; [| split; [| split]]; cbn; [lia | | | exact Hnodup].
    - intros hash. destruct (decide (fastHash w = hash)) as [<- | Hne].
      + rewrite !lookup_insert_eq. cbn. rewrite Hw, length_app. cbn.
        f_equal. lia.
      + rewrite !lookup_insert_ne by done. apply Hhist.
    - intros hash l'. destruct (decide (fastHash w = hash)) as [<- | Hne].
      + rewrite lookup_insert_eq. intros [= <-]. rewrite length_app. cbn.
        destruct (shortcutsLookupTable e !! fastHash w) as [l0 |] eqn:Hl0;
          cbn; [specialize (Hlen _ _ Hl0) |]; lia.
      + rewrite lookup_insert_ne by done. intros Hl'.
        specialize (Hlen _ _ Hl'). lia. }
  all: unfold addRule, addRuleToShortcutsTable; rewrite Hshort;
    unfold addRuleToDomainsTable;
    destruct Hcons as (Hpos & Hhist & Hlen & Hnodup);
    destruct (getPermittedDomains rule) as [[| d ds] |];
    try case_bool_decide; (split; [| split; [| split]]); cbn; try done;
    try lia;
    try (intros hash l' Hl'; specialize (Hlen _ _ Hl'); lia).
  all: apply NoDup_app; split; [done |]; split; [| apply NoDup_singleton];
    intros x Hx ->%list_elem_of_singleton; done.
Qed.

Lemma constructor_from (indexedRules : list (NetworkRule * Z))
    (e : t NetworkRule) :
  consistent e ->
  rulesCount e + Z.of_nat (length indexedRules) <= 2147483647 ->
  let e' := fold_left (fun e '(rule, index) => addRule e rule index)
                      indexedRules e in
  consistent e'
  /\ rulesCount e' = rulesCount e + Z.of_nat (length indexedRules).
Proof.
  revert e. induction indexedRules as [| [rule index] l IH]; intros e Hcons Hlen.
  - cbn. split; [done | lia].
  - cbn [fold_left]. cbn [length] in Hlen.
    destruct (IH (addRule e rule index)) as [Hcons' Hcount'].
    + apply addRule_consistent; [done | lia].
    + rewrite addRule_rulesCount. lia.
    + cbv zeta. split; [done |]. rewrite Hcount', addRule_rulesCount.
      cbn [length]. lia.
Qed.

Lemma empty_consistent : consistent (@empty NetworkRule).
Proof.
  split; [| split; [| split]]; cbn.
  - lia.
  - intros hash. by rewrite !lookup_empty.
  - intros hash l. by rewrite lookup_empty.
  - apply NoDup_nil_2.
Qed.

(** X7.  In an engine the constructor built from fewer than [2^31 - 1]
    rules, a rule with shortcuts is stored under the hash of one of its
    shortcuts, one under which the shortcuts table holds the fewest rule
    indexes, and nothing else of the table changes. *)
Theorem addRuleToShortcutsTable_picks_least_used
    (indexedRules : list (NetworkRule * Z)) (rule : NetworkRule)
    (storageIdx : Z) (shortcuts : list jsstring) :
  Z.of_nat (length indexedRules) < 2147483647 ->
  getRuleShortcuts rule = Some shortcuts -> shortcuts <> [] ->
  let e := constructor indexedRules in
  let stored hash := default [] (shortcutsLookupTable e !! hash) in
  exists w,
    w ∈ shortcuts
    /\ (forall s, s ∈ shortcuts ->
          (length (stored (fastHash w)) <= length (stored (fastHash s)))%nat)
    /\ fst (addRuleToShortcutsTable e rule storageIdx) = true
    /\ shortcutsLookupTable (snd (addRuleToShortcutsTable e rule storageIdx))
       = <[fastHash w := stored (fastHash w) ++ [storageIdx]]>
           (shortcutsLookupTable e).
Proof.
  intros Hlen Hshort Hne e stored.
  destruct (constructor_from indexedRules empty empty_consistent)
    as [Hcons Hcount]; [cbn; lia |].
  fold (constructor indexedRules) in Hcons, Hcount. fold e in Hcons, Hcount.
  assert (Hbound : rulesCount e < 2147483647) by (rewrite Hcount; cbn; lia).
  destruct (addRuleToShortcutsTable_least_used e rule storageIdx shortcuts)
    as (w & Hw & Hleast & Hadd); try done.
  exists w. split; [done |]. split; [| by rewrite Hadd].
  intros s Hs. specialize (Hleast s Hs).
  destruct (useCount_consistent e (fastHash w) Hcons Hbound) as [Hcw _].
  destruct (useCount_consistent e (fastHash s) Hcons Hbound) as [Hcs _].
  unfold stored. lia.
Qed.

(** X8.  The engine the constructor builds from at most [2^31 - 1] rules
    counts its rules, keeps in the histogram, for every hash, the number of
    rule indexes the shortcuts table holds under it, and has no rule twice
    in [otherRules]. *)
Theorem constructor_consistent (indexedRules : list (NetworkRule * Z)) :
  Z.of_nat (length indexedRules) <= 2147483647 ->
  rulesCount (constructor indexedRules) = Z.of_nat (length indexedRules)
  /\ (forall hash,
        useCount (shortcutsHistogram (constructor indexedRules)) hash
        = Z.of_nat (length (default []
            (shortcutsLookupTable (constructor indexedRules) !! hash))))
  /\ NoDup (otherRules (constructor indexedRules)).
Proof.
  intros Hlen.
  destruct (constructor_from indexedRules empty empty_consistent)
    as [Hcons Hcount]; [cbn; lia |].
  fold (constructor indexedRules) in Hcons, Hcount.
  split; [by rewrite Hcount |]. destruct Hcons as (_ & Hhist & _ & Hnodup).
  split; [| done]. intros hash. unfold useCount. rewrite Hhist.
  by destruct (shortcutsLookupTable _ !! hash).
Qed.


(** *** Every rule added is found again *)

Lemma addRule_keeps (e : t NetworkRule) (rule : NetworkRule)
    (storageIdx : Z) :
  consistent e -> rulesCount e < 2147483647 ->
  (forall h y, y ∈ default [] (shortcutsLookupTable e !! h) ->
     y ∈ default [] (shortcutsLookupTable (addRule e rule storageIdx) !! h))
  /\ (forall h y, y ∈ default [] (domainsLookupTable e !! h) ->
     y ∈ default [] (domainsLookupTable (addRule e rule storageIdx) !! h))
  /\ (forall r, r ∈ otherRules e -> r ∈ otherRules (addRule e rule storageIdx)).
Proof.
  intros Hcons Hcount.
  destruct (getRuleShortcuts rule) as [[| s l] |] eqn:Hshort.
  2: {
    destruct (addRuleToShortcutsTable_least_used e rule storageIdx (s :: l))
      as (w & _ & _ & Hadd); try done.
    unfold addRule. rewrite Hadd. cbn.
    split; [| done]. intros h y Hy. by apply push_index_kept. }
  all: unfold addRule, addRuleToShortcutsTable; rewrite Hshort;
    unfold addRuleToDomainsTable;
    destruct (getPermittedDomains rule) as [[| d ds] |];
    try case_bool_decide; cbn; (split; [done |]); (split; [| try done]);
    try done.
  all: try (intros h y Hy; by apply (push_domains_kept (d :: ds))).
  all: intros r Hr; apply elem_of_app; by left.
Qed.

Lemma addRule_placed (e : t NetworkRule) (rule : NetworkRule)
    (storageIdx : Z) :
  consistent e -> rulesCount e < 2147483647 ->
  placed (addRule e rule storageIdx) rule storageIdx.
Proof.
  intros Hcons Hcount. unfold placed.
  destruct (getRuleShortcuts rule) as [[| s l] |] eqn:Hshort.
  2: {
    destruct (addRuleToShortcutsTable_least_used e rule storageIdx (s :: l))
      as (w & Hw & _ & Hadd); try done.
    exists w. split; [done |]. unfold addRule. rewrite Hadd. cbn.
    apply push_index_added. }
  all: unfold addRule, addRuleToShortcutsTable; rewrite Hshort;
    unfold addRuleToDomainsTable;
    destruct (getPermittedDomains rule) as [[| d ds] |];
    try case_bool_decide; cbn; try done.
  all: try (intros d' Hd'; by apply (push_domains_added (d :: ds))).
  all: apply elem_of_app; right; by left.
Qed.

Lemma placed_kept (e : t NetworkRule) (rule rule' : NetworkRule)
    (storageIdx storageIdx' : Z) :
  consistent e -> rulesCount e < 2147483647 ->
  placed e rule storageIdx ->
  placed (addRule e rule' storageIdx') rule storageIdx.
Proof.
  intros Hcons Hcount.
  destruct (addRule_keeps e rule' storageIdx' Hcons Hcount)
    as (Hshort & Hdom & Hother).
  unfold placed.
  destruct (getRuleShortcuts rule) as [[| s l] |].
  2: { intros (w & Hw & Hin). exists w. split; [done | by apply Hshort]. }
  all: destruct (getPermittedDomains rule) as [[| d ds] |]; auto.
Qed.

Lemma constructor_placed_from (indexedRules : list (NetworkRule * Z))
    (e : t NetworkRule) (rule : NetworkRule) (storageIdx : Z) :
  consistent e ->
  rulesCount e + Z.of_nat (length indexedRules) <= 2147483647 ->
  placed e rule storageIdx \/ (rule, storageIdx) ∈ indexedRules ->
  placed (fold_left (fun e '(rule, index) => addRule e rule index)
                    indexedRules e) rule storageIdx.
Proof.
  revert e. induction indexedRules as [| [rule' index'] l IH];
    intros e Hcons Hlen Hin.
  - destruct Hin as [Hin | Hin]; [done | by apply elem_of_nil in Hin].
  - cbn [fold_left]. cbn [length] in Hlen. apply IH.
    + apply addRule_consistent; [done | lia].
    + rewrite addRule_rulesCount. lia.
    + destruct Hin as [Hin | Hin].
      * left. apply placed_kept; [done | lia | done].
      * apply elem_of_cons in Hin as [[= <- <-] | Hin]; [| by right].
        left. apply addRule_placed; [done | lia].
Qed.

(** A rule that is placed in the engine, held by the storage at its index,
    matching the request and findable for it, is among the results. *)
Lemma matchAll_placed (e : t NetworkRule) (request : Request)
    (rule : NetworkRule) (storageIdx : Z) :
  placed e rule storageIdx ->
  retrieveNetworkRule storageIdx = Some rule ->
  rule_match rule request = true ->
  findable rule request ->
  rule ∈ matchAll e request.
Proof.
  unfold placed, findable, matchAll. intros Hplaced Hret Hmatch Hfind.
  rewrite !elem_of_app.
  destruct (getRuleShortcuts rule) as [[| s l] |] eqn:Hshort.
  2: {
    left. destruct Hplaced as (w & Hw & Hidx).
    destruct Hfind as (p & Hp & Hocc).
    rewrite matchShortcutsLookupTable_candidates. apply elem_of_matchIndexes.
    exists storageIdx. split; [| by split].
    rewrite shortcutCandidates_positions. apply elem_of_flat_map.
    unfold getRuleShortcuts in Hshort.
    destruct (length (getShortcut rule) <? SHORTCUT_LENGTH)%nat; [done |].
    destruct (isAnyURLShortcut rule); [done |].
    injection Hshort as Hshort. rewrite <- Hshort in Hw.
    apply list_elem_of_fmap in Hw as (i & -> & Hi).
    apply elem_of_seq in Hi. unfold SHORTCUT_LENGTH in *.
    assert (Hwin : take 5 (drop (p + i) (urlLowercase request))
                   = substring (getShortcut rule) i (i + 5)).
    { rewrite substring_window.
      remember (length (getShortcut rule)) as n eqn:Hn. rewrite <- Hocc.
      rewrite skipn_firstn_comm, drop_drop, take_take.
      f_equal. lia. }
    assert (Hlen : length (substring (getShortcut rule) i (i + 5)) = 5%nat).
    { rewrite substring_window, length_take, length_drop. lia. }
    exists (p + i)%nat. split; [apply elem_of_seq; lia |].
    replace (fastHashBetween (urlLowercase request) (p + i) (p + i + 5))
      with (fastHash (substring (getShortcut rule) i (i + 5))); [done |].
    rewrite fastHashBetween_fold by lia.
    rewrite (substring_window _ (p + i) 5), Hwin.
    unfold fastHash.
    destruct (substring (getShortcut rule) i (i + 5)) as [| c w] eqn:Hsub;
      [done |].
    rewrite fastHashBetween_fold by lia.
    unfold substring at 1. by rewrite Nat.sub_0_r, drop_0, firstn_all. }
  all: destruct (getPermittedDomains rule) as [[| d ds] |];
    try (right; right; apply list_elem_of_filter; by split).
  all: right; left; destruct Hfind as (hostname & d' & Hhost & Hne & Hd' & Hsub);
    unfold matchDomainsLookupTable; rewrite Hhost;
    destruct hostname as [| c h]; [done |];
    apply elem_of_flat_map; exists d'; (split; [done |]); cbv zeta;
    specialize (Hplaced d' Hd');
    destruct (domainsLookupTable e !! fastHash d') as [idxs |];
    [| by apply elem_of_nil in Hplaced];
    apply elem_of_matchIndexes; by exists storageIdx.
Qed.

(** X9.  [matchAll] finds every rule the constructor was given, when the
    rule matches the request, the storage holds it at its index, and its
    shortcut occurs in the first 4096 characters of the URL, or, for a rule
    without shortcuts, one of its permitted domains is a subdomain of the
    source hostname; a rule with neither is always found. *)
Theorem matchAll_complete (indexedRules : list (NetworkRule * Z))
    (request : Request) (rule : NetworkRule) (storageIdx : Z) :
  Z.of_nat (length indexedRules) <= 2147483647 ->
  (rule, storageIdx) ∈ indexedRules ->
  retrieveNetworkRule storageIdx = Some rule ->
  rule_match rule request = true ->
  findable rule request ->
  rule ∈ matchAll (constructor indexedRules) request.
Proof.
  intros Hlen Hin Hret Hmatch Hfind.
  apply (matchAll_placed _ _ _ storageIdx); try done.
  apply constructor_placed_from; [apply empty_consistent | cbn; lia | by right].
Qed.

End EngineMatching.

Section EngineMatchingExamples.
Import JS Utils Model NetworkEngine Samples.

Lemma matchAll_sound_witness :
  rule_match rule_example_org (request_long 3) = true
  /\ (rule_example_org ∈ otherRules engine_example
      \/ exists idx hash,
           retrieveNetworkRule
             (RuleStorageApi := Sample.storageOf [rule_example_org]) idx
           = Some rule_example_org
           /\ (idx ∈ default [] (shortcutsLookupTable engine_example !! hash)
               \/ idx ∈ default [] (domainsLookupTable engine_example !! hash))).
Proof.
  apply (matchAll_sound (RuleStorageApi0 := Sample.storageOf [rule_example_org])
           engine_example (request_long 3) rule_example_org).
  apply list_elem_of_In. vm_compute. left. reflexivity.
Defined.

(** A second rule with the shortcut [example.org], added to the engine that
    holds [||example.org^]. *)
Lemma addRuleToShortcutsTable_picks_least_used_witness :
  let e := constructor [(rule_example_org, 0)] in
  let stored hash := default [] (shortcutsLookupTable e !! hash) in
  exists w,
    w ∈ [js "examp"; js "xampl"; js "ample"; js "mple."; js "ple.o"; js "le.or"]
    /\ (forall s,
          s ∈ [js "examp"; js "xampl"; js "ample"; js "mple."; js "ple.o";
               js "le.or"] ->
          (length (stored (fastHash w)) <= length (stored (fastHash s)))%nat)
    /\ fst (addRuleToShortcutsTable e rule_example_org 1) = true
    /\ shortcutsLookupTable (snd (addRuleToShortcutsTable e rule_example_org 1))
       = <[fastHash w := stored (fastHash w) ++ [1]]> (shortcutsLookupTable e).
Proof.
  apply (addRuleToShortcutsTable_picks_least_used
           [(rule_example_org, 0)] rule_example_org 1
           [js "examp"; js "xampl"; js "ample"; js "mple."; js "ple.o";
            js "le.or"]).
  - simpl. lia.
  - reflexivity.
  - discriminate.
Defined.

(** The rule stored first has taken [examp]; the second one goes under the
    next shortcut, [xampl]. *)
Example addRule_second_shortcut :
  shortcutsLookupTable
    (constructor [(rule_example_org, 0); (rule_example_org, 1)])
  = <[fastHash (js "xampl") := [1]]> (<[fastHash (js "examp") := [0]]> ∅).
Proof. vm_compute. reflexivity. Qed.

Lemma constructor_consistent_witness :
  let e := constructor [(rule_example_org, 0); (rule_abcde, 1)] in
  rulesCount e = 2
  /\ (forall hash,
        useCount (shortcutsHistogram e) hash
        = Z.of_nat (length (default [] (shortcutsLookupTable e !! hash))))
  /\ NoDup (otherRules e).
Proof.
  apply (constructor_consistent [(rule_example_org, 0); (rule_abcde, 1)]).
  simpl. lia.
Defined.

Lemma matchAll_complete_witness :
  rule_example_org
  ∈ matchAll (RuleStorageApi0 := Sample.storageOf [rule_example_org; rule_abcde])
      (constructor [(rule_example_org, 0); (rule_abcde, 1)]) (request_long 3).
Proof.
  apply (matchAll_complete
           (RuleStorageApi0 := Sample.storageOf [rule_example_org; rule_abcde])
           [(rule_example_org, 0); (rule_abcde, 1)] (request_long 3)
           rule_example_org 0).
  - simpl. lia.
  - left.
  - reflexivity.
  - vm_compute. reflexivity.
  - exists 12%nat. split; [apply Nat.leb_le |]; vm_compute; reflexivity.
Defined.

End EngineMatchingExamples.

(** ** The cosmetic lookup table: what a built table holds *)

Ltac break_hyps :=
  repeat match goal with
         | H : _ /\ _ |- _ => destruct H
         | H : exists _, _ |- _ => destruct H
         | H : _ \/ _ |- _ => destruct H
         end.

Ltac logic :=
  try split; intros; break_hyps; subst;
  repeat match goal with
         | H1 : ?a = Some ?x, H2 : ?a = Some ?y |- _ =>
             rewrite H1 in H2; injection H2 as <-
         end;
  try congruence; eauto 12.

Section CosmeticContents.
Import JS CosmeticLookupTable.
Context {CosmeticRule : Type} `{!CosmeticRuleApi CosmeticRule}.

Lemma fromRules_snoc (rules : list CosmeticRule) (rule : CosmeticRule) :
  fromRules (rules ++ [rule]) = addRule (fromRules rules) rule.
Proof. unfold fromRules. by rewrite fold_left_app. Qed.

Lemma byHostname_fold_elem (rule r : CosmeticRule) (domains : list jsstring)
    (m : gmap jsstring (list CosmeticRule)) (hostname : jsstring) :
  r ∈ default []
        (fold_left (fun m domain =>
                      let rules := default [] (m !! domain) in
                      <[domain := rules ++ [rule]]> m) domains m !! hostname)
  <-> r ∈ default [] (m !! hostname) \/ (r = rule /\ hostname ∈ domains).
Proof.
  revert m. induction domains as [| d ds IH]; intros m; cbn [fold_left].
  - split; [by left |]. intros [H | [_ H]]; [done | by apply elem_of_nil in H].
  - rewrite IH. cbv zeta. rewrite elem_of_cons.
    destruct (decide (d = hostname)) as [-> | Hne].
    + rewrite lookup_insert_eq. cbn. rewrite elem_of_app, list_elem_of_singleton.
      logic.
    + rewrite lookup_insert_ne by done. logic.
Qed.

Lemma fromRules_genericRules (rules : list CosmeticRule) :
  genericRules (fromRules rules)
  = filter (fun r => keptGeneric r = true) rules.
Proof.
  induction rules as [| rule rules IH] using rev_ind; [done |].
  rewrite fromRules_snoc, filter_app, <- IH.
  rewrite filter_cons, filter_nil. unfold addRule, keptGeneric.
  destruct (isWhitelist rule); cbn; [by rewrite app_nil_r |].
  destruct (isGeneric rule); cbn; [done |].
  destruct (getPermittedDomains rule) as [domains |]; cbn;
    [| by rewrite app_nil_r].
  destruct (existsb isWildcardDomain domains); cbn; by rewrite app_nil_r.
Qed.

Lemma fromRules_wildcardRules (rules : list CosmeticRule) :
  wildcardRules (fromRules rules)
  = filter (fun r => keptWildcard r = true) rules.
Proof.
  induction rules as [| rule rules IH] using rev_ind; [done |].
  rewrite fromRules_snoc, filter_app, <- IH.
  rewrite filter_cons, filter_nil. unfold addRule, keptWildcard.
  destruct (isWhitelist rule); cbn; [by rewrite app_nil_r |].
  destruct (isGeneric rule); cbn; [by rewrite app_nil_r |].
  destruct (getPermittedDomains rule) as [domains |]; cbn;
    [| by rewrite app_nil_r].
  destruct (existsb isWildcardDomain domains); cbn; by rewrite ?app_nil_r.
Qed.

(** X10.  The generic rules and the wildcard rules of a built table are the
    rules of these two kinds, in the order they were added. *)
Theorem fromRules_generic_wildcard (rules : list CosmeticRule) :
  genericRules (fromRules rules)
  = filter (fun r => keptGeneric r = true) rules
  /\ wildcardRules (fromRules rules)
     = filter (fun r => keptWildcard r = true) rules.
Proof.
  split; [apply fromRules_genericRules | apply fromRules_wildcardRules].
Qed.

Lemma fromRules_wildcard_elem (rules : list CosmeticRule) (r : CosmeticRule) :
  r ∈ wildcardRules (fromRules rules)
  <-> r ∈ rules /\ isWhitelist r = false /\ isGeneric r = false
      /\ exists domains, getPermittedDomains r = Some domains
                         /\ existsb isWildcardDomain domains = true.
Proof.
  rewrite fromRules_wildcardRules, list_elem_of_filter. unfold keptWildcard.
  destruct (isWhitelist r), (isGeneric r),
    (getPermittedDomains r) as [domains |]; cbn;
    try destruct (existsb isWildcardDomain domains) eqn:He; logic.
Qed.

Lemma fromRules_byHostname_elem (rules : list CosmeticRule)
    (hostname : jsstring) (r : CosmeticRule) :
  r ∈ default [] (byHostname (fromRules rules) !! hostname)
  <-> r ∈ rules /\ isWhitelist r = false /\ isGeneric r = false
      /\ exists domains, getPermittedDomains r = Some domains
                         /\ existsb isWildcardDomain domains = false
                         /\ hostname ∈ domains.
Proof.
  induction rules as [| rule rules IH] using rev_ind.
  - cbn. rewrite lookup_empty. cbn. split.
    + intros H. by apply elem_of_nil in H.
    + intros (H & _). by apply elem_of_nil in H.
  - rewrite fromRules_snoc, elem_of_app, list_elem_of_singleton.
    unfold addRule.
    destruct (isWhitelist rule) eqn:Hw; cbn; [rewrite IH; logic |].
    destruct (isGeneric rule) eqn:Hg; cbn; [rewrite IH; logic |].
    destruct (getPermittedDomains rule) as [domains |] eqn:Hd; cbn;
      [| rewrite IH; logic].
    destruct (existsb isWildcardDomain domains) eqn:He; cbn;
      [rewrite IH; logic |].
    rewrite byHostname_fold_elem, IH. logic.
Qed.

(** X11.  The first lookup in a built table returns exactly the rules added
    that are neither exceptions nor generic and that either have a wildcard
    domain and match the hostname, or have no wildcard domain and list the
    hostname among their permitted domains. *)
Theorem findByHostname_first_lookup (rules : list CosmeticRule)
    (hostname : jsstring) (r : CosmeticRule) :
  r ∈ fst (findByHostname (fromRules rules) hostname)
  <-> r ∈ rules /\ isWhitelist r = false /\ isGeneric r = false
      /\ exists domains,
           getPermittedDomains r = Some domains
           /\ if existsb isWildcardDomain domains
              then rule_match r hostname = true
              else hostname ∈ domains.
Proof.
  assert (Hfind : fst (findByHostname (fromRules rules) hostname)
    = filter (fun rule => isWhitelist rule = false)
        (default [] (byHostname (fromRules rules) !! hostname)
         ++ filter (fun r => rule_match r hostname = true)
                   (wildcardRules (fromRules rules)))).
  { unfold findByHostname.
    by destruct (byHostname (fromRules rules) !! hostname). }
  rewrite Hfind, list_elem_of_filter, elem_of_app, list_elem_of_filter.
  rewrite fromRules_byHostname_elem, fromRules_wildcard_elem. split.
  - intros (Hw & [(Hin & _ & Hg & ds & Hds & He & Hh)
                 | (Hm & Hin & _ & Hg & ds & Hds & He)]);
      (split; [done |]); (split; [done |]); (split; [done |]);
      exists ds; rewrite He; by split.
  - intros (Hin & Hw & Hg & ds & Hds & Hcase). split; [done |].
    destruct (existsb isWildcardDomain ds) eqn:He; [right | left]; logic.
Qed.

Lemma fromRules_whitelist_elem (rules : list CosmeticRule)
    (content : jsstring) (w : CosmeticRule) :
  w ∈ default [] (whitelist (fromRules rules) !! content)
  <-> w ∈ rules /\ isWhitelist w = true /\ getContent w = content.
Proof.
  induction rules as [| rule rules IH] using rev_ind.
  - cbn. rewrite lookup_empty. cbn. split.
    + intros H. by apply elem_of_nil in H.
    + intros (H & _). by apply elem_of_nil in H.
  - rewrite fromRules_snoc, elem_of_app, list_elem_of_singleton.
    unfold addRule.
    destruct (isWhitelist rule) eqn:Hw; cbn.
    + destruct (decide (getContent rule = content)) as [<- | Hne].
      * rewrite lookup_insert_eq. cbn.
        rewrite elem_of_app, list_elem_of_singleton, IH. logic.
      * rewrite lookup_insert_ne by done. rewrite IH. logic.
    + destruct (isGeneric rule); cbn; [rewrite IH; logic |].
      destruct (getPermittedDomains rule) as [domains |]; cbn;
        [| rewrite IH; logic].
      destruct (existsb isWildcardDomain domains); cbn; rewrite IH;
        logic.
Qed.

(** X12.  In a built table a rule is whitelisted on a hostname exactly when
    an exception rule with the same content that matches the hostname was
    added. *)
Theorem isWhitelisted_fromRules (rules : list CosmeticRule)
    (hostname : jsstring) (rule : CosmeticRule) :
  isWhitelisted (fromRules rules) hostname rule = true
  <-> exists w, w ∈ rules /\ isWhitelist w = true
                /\ getContent w = getContent rule
                /\ rule_match w hostname = true.
Proof.
  unfold isWhitelisted.
  pose proof (fun w => fromRules_whitelist_elem rules (getContent rule) w)
    as Hwl.
  destruct (whitelist (fromRules rules) !! getContent rule) as [ws |];
    cbn in Hwl.
  - rewrite existsb_exists. split.
    + intros (w & Hin & Hm). apply list_elem_of_In, Hwl in Hin.
      exists w. logic.
    + intros (w & Hin & Hw & Hc & Hm). exists w. split; [| done].
      apply list_elem_of_In, Hwl. logic.
  - split; [done |]. intros (w & Hin & Hw & Hc & _).
    assert (H : w ∈ @nil CosmeticRule) by (apply Hwl; logic).
    by apply elem_of_nil in H.
Qed.

End CosmeticContents.

Section CosmeticContentsExamples.
Import JS CosmeticLookupTable Samples.

(** The table of [example.org##.banner], [example.*##.ad] and
    [example.org#@#.banner]: the lookup returns the first two rules for
    [example.org] and only the wildcard rule for [example.com], and the
    exception whitelists [.banner] on [example.org]. *)
Example findByHostname_example :
  let tbl := fromRules [rule_banner; rule_ad; rule_banner_exception] in
  fst (findByHostname tbl (js "example.org")) = [rule_banner; rule_ad]
  /\ fst (findByHostname tbl (js "example.com")) = [rule_ad]
  /\ isWhitelisted tbl (js "example.org") rule_banner = true
  /\ isWhitelisted tbl (js "example.org") rule_ad = false.
Proof. vm_compute. by repeat split. Qed.

End CosmeticContentsExamples.

(** ** The rule scanner: what a sequence of scans reads *)

Section ScannerContents.
Import JS RuleScanner.
Context {IRule : Type} `{!RuleBuilderApi IRule}.

(** One line of the reader: [scan] stops at it when it yields a rule, and
    goes on with the rest of the reader otherwise. *)
Lemma scan_line (s : t IRule) (line : jsstring) (rest : list jsstring) :
  reader s = line :: rest ->
  scan s
  = match ruleOfLine (listId s) (ignoreCosmetic s) line with
    | Some r =>
        Some (true,
              {| listId := listId s; ignoreCosmetic := ignoreCosmetic s;
                 reader := rest; currentRule := Some r;
                 currentRuleIndex := currentPos s;
                 currentPos := (currentPos s + utf8Length line)%nat |})
    | None => scan (advance s line rest)
    end.
Proof.
  intros Hreader. unfold scan at 1. rewrite Hreader.
  cbn [length scan_loop]. rewrite (readNextLine_line s line rest Hreader).
  change (scan_loop (S (length rest)) (advance s line rest))
    with (scan (advance s line rest)).
  unfold ruleOfLine, isIgnored. cbn [listId ignoreCosmetic advance reader
                                     currentPos].
  destruct line as [| c line']; [reflexivity |].
  destruct (trim (c :: line')) as [| c' text]; [reflexivity |].
  destruct (createRule (c' :: text) (listId s)) as [r |]; [| reflexivity].
  destruct (ignoreCosmetic s); cbn; [| reflexivity].
  by destruct (isCosmetic r).
Qed.

Lemma scan_eof (s : t IRule) :
  reader s = [] -> scan s = Some (false, s).
Proof.
  intros Hreader. unfold scan. rewrite Hreader. cbn [length scan_loop].
  rewrite (readNextLine_eof s Hreader). reflexivity.
Qed.

(** [n] scans return the first [n] rules of the lines left in the reader. *)
Lemma scanMany_prefix (lines : list jsstring) (n : nat) (s : t IRule) :
  reader s = lines ->
  scanMany n s
  = take n (rulesOf (listId s) (ignoreCosmetic s) (currentPos s) lines).
Proof.
  revert n s. induction lines as [| line rest IH]; intros n s Hreader.
  - destruct n as [| n]; [reflexivity |]. cbn [scanMany rulesOf].
    by rewrite (scan_eof s Hreader).
  - destruct n as [| n]; [reflexivity |].
    cbn [scanMany rulesOf]. rewrite (scan_line s line rest Hreader).
    destruct (ruleOfLine (listId s) (ignoreCosmetic s) line) as [r |].
    + cbn [getRule currentRule currentRuleIndex app take]. f_equal.
      by rewrite IH.
    + change (match scan (advance s line rest) with
              | Some (true, s') =>
                  match getRule s' with
                  | Some ir => ir :: scanMany n s'
                  | None => scanMany n s'
                  end
              | _ => []
              end) with (scanMany (S n) (advance s line rest)).
      by rewrite IH.
Qed.

Lemma rulesOf_length (id : Z) (ignore : bool) (pos : nat)
    (lines : list jsstring) :
  (length (rulesOf id ignore pos lines) <= length lines)%nat.
Proof.
  revert pos. induction lines as [| line rest IH]; intros pos; [done |].
  cbn [rulesOf]. rewrite length_app. specialize (IH (pos + utf8Length line)%nat).
  destruct (ruleOfLine id ignore line); cbn [length] in *; lia.
Qed.

Lemma rulesOf_not_ignored (id : Z) (pos : nat) (lines : list jsstring) :
  Forall (fun ir => isCosmetic (rule ir) = false) (rulesOf id true pos lines).
Proof.
  revert pos. induction lines as [| line rest IH]; intros pos; [constructor |].
  cbn [rulesOf]. apply Forall_app_2; [| apply IH].
  destruct (ruleOfLine id true line) as [r |] eqn:Hr; [| constructor].
  constructor; [| constructor]. cbn. unfold ruleOfLine in Hr.
  destruct line; [done |]. destruct (trim _); [done |].
  destruct (createRule _ _) as [r' |]; [| done]. cbn in Hr.
  destruct (isCosmetic r') eqn:Hc; [done |]. by injection Hr as <-.
Qed.

(** X13.  As many scans as the reader has lines read every rule of the
    input: the rules of the non-empty lines that [createRule] accepts and
    the scanner does not ignore, in order, each with the byte offset of its
    line. *)
Theorem scanMany_reads_all (lines : list jsstring) (id : Z) (ignore : bool)
    (n : nat) :
  (length lines <= n)%nat ->
  scanMany n (new lines id ignore) = rulesOf id ignore 0 lines.
Proof.
  intros Hn. rewrite (scanMany_prefix lines n (new lines id ignore) eq_refl).
  cbn [new listId ignoreCosmetic currentPos].
  apply firstn_all2. pose proof (rulesOf_length id ignore 0 lines). lia.
Qed.

(** X14.  A scanner that ignores cosmetic rules never returns one. *)
Theorem scanMany_no_cosmetic (n : nat) (s : t IRule) :
  ignoreCosmetic s = true ->
  Forall (fun ir => isCosmetic (rule ir) = false) (scanMany n s).
Proof.
  intros Hignore. rewrite (scanMany_prefix (reader s) n s eq_refl), Hignore.
  apply Forall_take, rulesOf_not_ignored.
Qed.

Lemma scan_loop_false (fuel : nat) (s s' : t IRule) :
  scan_loop fuel s = Some (false, s') ->
  reader s' = [] /\ currentRule s' = currentRule s
  /\ currentRuleIndex s' = currentRuleIndex s.
Proof.
  revert s. induction fuel as [| fuel IH]; intros s; [done |].
  cbn [scan_loop]. destruct (reader s) as [| line rest] eqn:Hreader.
  - rewrite (readNextLine_eof s Hreader). intros [= <-]. by destruct s.
  - rewrite (readNextLine_line s line rest Hreader).
    assert (Hskip : scan_loop fuel (advance s line rest) = Some (false, s') ->
                    reader s' = [] /\ currentRule s' = currentRule s
                    /\ currentRuleIndex s' = currentRuleIndex s).
    { intros Hrec. by destruct (IH _ Hrec) as (? & ? & ?). }
    destruct (match line with [] => [] | _ => trim line end); [exact Hskip |].
    destruct (createRule _ _); [| exact Hskip].
    destruct (negb _); [done | exact Hskip].
Qed.

(** X15.  Once [scan] has returned [false] the reader is exhausted: every
    further [scan] returns [false] too, and [getRule] goes on returning the
    rule of the last successful scan. *)
Theorem scan_false_is_final (s s' : t IRule) :
  scan s = Some (false, s') ->
  reader s' = [] /\ getRule s' = getRule s /\ scan s' = Some (false, s').
Proof.
  intros Hscan. apply scan_loop_false in Hscan as (Hreader & Hrule & Hidx).
  split; [done |]. split; [| by apply scan_eof].
  unfold getRule. by rewrite Hrule, Hidx.
Qed.

End ScannerContents.

Section ScannerContentsExamples.
Import JS RuleScanner Samples.

(** The three lines [||example.org], [! test] and [##banner], read by a
    scanner that ignores cosmetic rules. *)
Lemma scanMany_reads_all_witness :
  scanMany 3 (new lines_example 1 true)
  = [ {| rule := js "||example.org"; index := 0 |} ].
Proof.
  etrans; [apply (scanMany_reads_all lines_example 1 true 3); simpl; lia |].
  reflexivity.
Defined.

Lemma scanMany_no_cosmetic_witness :
  Forall (fun ir => isCosmetic (rule ir) = false)
         (scanMany 2 (new lines_example 1 true)).
Proof.
  apply (scanMany_no_cosmetic 2 (new lines_example 1 true)). reflexivity.
Defined.

(** A scanner that holds the rule of the first line and has only a comment
    left to read. *)
Lemma scan_false_is_final_witness :
  let s := {| listId := 1; ignoreCosmetic := false;
              reader := [js "! test"];
              currentRule := Some (js "||example.org");
              currentRuleIndex := 0; currentPos := 14 |} in
  let s' := {| listId := 1; ignoreCosmetic := false; reader := [];
               currentRule := Some (js "||example.org");
               currentRuleIndex := 0; currentPos := 20 |} in
  reader s' = []
  /\ getRule s' = getRule s
  /\ scan s' = Some (false, s').
Proof.
  apply (scan_false_is_final
           {| listId := 1; ignoreCosmetic := false;
              reader := [js "! test"];
              currentRule := Some (js "||example.org");
              currentRuleIndex := 0; currentPos := 14 |}).
  vm_compute. reflexivity.
Defined.

End ScannerContentsExamples.

(** ** Cookie filtering: what [processRequestHeaders] does to the header *)

Section CookieHeader.
Import JS Model CookieFiltering.
Context {NetworkRule : Type} `{!NetworkRuleApi NetworkRule} `{!StringApi}.

Lemma entriesFor_scheduled (requestId : Z) (url : jsstring)
    (cookieRules : list NetworkRule) (cookieName : jsstring)
    (cookiesMap : gmap Z (list (Entry NetworkRule))) :
  let map1 :=
    match lookupNotModifyingRule cookieName cookieRules with
    | Some bRule =>
        scheduleProcessingCookie cookiesMap requestId cookieName url
                                 [bRule] true
    | None => cookiesMap
    end in
  let map2 :=
    match lookupModifyingRules cookieName cookieRules with
    | [] => map1
    | _ => scheduleProcessingCookie map1 requestId cookieName url
             (lookupModifyingRules cookieName cookieRules) false
    end in
  entriesOf map2 requestId
  = entriesOf cookiesMap requestId ++ entriesFor url cookieRules cookieName
  /\ forall other, other <> requestId -> map2 !! other = cookiesMap !! other.
Proof.
  unfold entriesFor.
  destruct (lookupNotModifyingRule cookieName cookieRules) as [bRule |];
    destruct (lookupModifyingRules cookieName cookieRules) as [| r rs];
    cbv zeta; rewrite ?scheduleProcessingCookie_entries, ?app_nil_r,
                <- ?app_assoc;
    (split; [reflexivity |]); intros other Hne;
    by rewrite ?scheduleProcessingCookie_other.
Qed.

(** The loop of [processRequestHeaders] over the cookies [pre], the ones
    after them being [post]: it never reads past the end, drops the blocked
    cookies of [pre], and schedules the entries of each, last cookie
    first. *)
Lemma processCookies_spec (requestId : Z) (url : jsstring)
    (cookieRules : list NetworkRule) (pre post : list CookieUtils.Cookie)
    (modified : bool) (cookiesMap : gmap Z (list (Entry NetworkRule))) :
  exists cookiesMap',
    processCookies requestId url cookieRules (length pre) (pre ++ post)
                   modified cookiesMap
    = Some (filter (fun c => blocked cookieRules (CookieUtils.name c) = false)
                   pre ++ post,
            modified
            || existsb (fun c => blocked cookieRules (CookieUtils.name c)) pre,
            cookiesMap')
    /\ entriesOf cookiesMap' requestId
       = entriesOf cookiesMap requestId
         ++ flat_map (fun c => entriesFor url cookieRules (CookieUtils.name c))
                     (rev pre)
    /\ forall other, other <> requestId ->
                     cookiesMap' !! other = cookiesMap !! other.
Proof.
  revert post modified cookiesMap.
  induction pre as [| c pre IH] using rev_ind; intros post modified cookiesMap.
  - exists cookiesMap. cbn. by rewrite orb_false_r, app_nil_r.
  - rewrite length_app, Nat.add_1_r. cbn [length processCookies].
    rewrite <- app_assoc. cbn [app].
    rewrite list_lookup_middle by reflexivity.
    pose proof (entriesFor_scheduled requestId url cookieRules
                  (CookieUtils.name c) cookiesMap) as Hsched.
    cbv zeta in Hsched. destruct Hsched as [Hent Hother].
    rewrite filter_app, existsb_app, rev_app_distr. cbn [rev app flat_map].
    rewrite filter_cons, filter_nil. cbn [existsb]. rewrite orb_false_r.
    set (b := blocked cookieRules (CookieUtils.name c)).
    assert (Hb : b = match lookupNotModifyingRule (CookieUtils.name c)
                                                  cookieRules with
                     | Some bRule => negb (isWhitelist bRule)
                     | None => false
                     end) by reflexivity.
    clearbody b.
    destruct (lookupNotModifyingRule (CookieUtils.name c) cookieRules)
      as [bRule |].
    2: subst b.
    1: destruct (isWhitelist bRule); cbn [negb] in *; subst b.
    + rewrite decide_True by reflexivity.
      edestruct (IH (c :: post) modified) as (map' & -> & Hent' & Hother').
      exists map'. rewrite orb_false_r, <- !app_assoc. cbn [app].
      split; [reflexivity |].
      split; [by rewrite Hent', Hent, <- app_assoc |].
      intros other Hne. by rewrite Hother', Hother.
    + rewrite decide_False by discriminate.
      replace (delete (length pre) (pre ++ c :: post)) with (pre ++ post)
        by (by rewrite delete_middle).
      edestruct (IH post true) as (map' & -> & Hent' & Hother').
      exists map'. rewrite app_nil_r, !orb_true_r. cbn [orb].
      split; [reflexivity |].
      split; [by rewrite Hent', Hent, <- app_assoc |].
      intros other Hne. by rewrite Hother', Hother.
    + rewrite decide_True by reflexivity.
      edestruct (IH (c :: post) modified) as (map' & -> & Hent' & Hother').
      exists map'. rewrite orb_false_r, <- !app_assoc. cbn [app].
      split; [reflexivity |].
      split; [by rewrite Hent', Hent, <- app_assoc |].
      intros other Hne. by rewrite Hother', Hother.
Qed.


Lemma processRequestHeaders_spec
    (cookiesMap : gmap Z (list (Entry NetworkRule))) (request : Request)
    (requestHeaders : list Header) (cookieRules : list NetworkRule)
    (pos : nat) (cookieHeader : Header) :
  findHeaderByName requestHeaders (js "Cookie") = Some (pos, cookieHeader) ->
  let cookies := CookieUtils.parseCookie (value cookieHeader) in
  let kept :=
    filter (fun c => blocked cookieRules (CookieUtils.name c) = false)
           cookies in
  let modified :=
    existsb (fun c => blocked cookieRules (CookieUtils.name c)) cookies in
  exists cookiesMap',
    processRequestHeaders cookiesMap request requestHeaders cookieRules
    = Some (modified,
            if modified
            then <[pos := {| name := name cookieHeader;
                             value := joinCookies kept |}]> requestHeaders
            else requestHeaders,
            cookiesMap')
    /\ entriesOf cookiesMap' (requestId request)
       = entriesOf cookiesMap (requestId request)
         ++ flat_map (fun c => entriesFor (url request) cookieRules
                                          (CookieUtils.name c))
                     (rev cookies)
    /\ forall other, other <> requestId request ->
                     cookiesMap' !! other = cookiesMap !! other.
Proof.
  intros Hfind. cbv zeta. unfold processRequestHeaders.
  destruct cookieRules as [| r0 rs].
  { generalize (CookieUtils.parseCookie (value cookieHeader)) as cookies.
    intros cookies. exists cookiesMap.
    assert (Hnone : existsb (fun c => blocked (@nil NetworkRule)
                                        (CookieUtils.name c)) cookies = false)
      by (by induction cookies).
    assert (Hno : flat_map (fun c => entriesFor (url request) []
                                       (CookieUtils.name c)) (rev cookies)
                  = []) by (by induction (rev cookies)).
    by rewrite Hnone, Hno, app_nil_r. }
  rewrite Hfind. cbv zeta.
  generalize (CookieUtils.parseCookie (value cookieHeader)) as cookies.
  intros [| c cs].
  { exists cookiesMap. cbn [existsb rev flat_map]. rewrite app_nil_r.
    by repeat split. }
  destruct (processCookies_spec (requestId request) (url request) (r0 :: rs)
              (c :: cs) [] false cookiesMap)
    as (map' & Hloop & Hent & Hother).
  rewrite !app_nil_r in Hloop. rewrite Hloop. cbn [orb].
  by exists map'.
Qed.

(** X16.  With a [Cookie] header, [processRequestHeaders] always returns; it
    reports a modification exactly when some cookie of the header is
    blocked, and then the header value is rewritten to the cookies that are
    not blocked, in their order; otherwise the headers stay as they are. *)
Theorem processRequestHeaders_drops_blocked
    (cookiesMap : gmap Z (list (Entry NetworkRule))) (request : Request)
    (requestHeaders : list Header) (cookieRules : list NetworkRule)
    (pos : nat) (cookieHeader : Header) :
  findHeaderByName requestHeaders (js "Cookie") = Some (pos, cookieHeader) ->
  let cookies := CookieUtils.parseCookie (value cookieHeader) in
  let kept :=
    filter (fun c => blocked cookieRules (CookieUtils.name c) = false)
           cookies in
  let modified :=
    existsb (fun c => blocked cookieRules (CookieUtils.name c)) cookies in
  fst <$> processRequestHeaders cookiesMap request requestHeaders cookieRules
  = Some (modified,
          if modified
          then <[pos := {| name := name cookieHeader;
                           value := joinCookies kept |}]> requestHeaders
          else requestHeaders).
Proof.
  intros Hfind cookies kept modified.
  destruct (processRequestHeaders_spec cookiesMap request requestHeaders
              cookieRules pos cookieHeader Hfind) as (map' & -> & _).
  reflexivity.
Qed.

(** X17.  With a [Cookie] header, [processRequestHeaders] schedules for the
    request the entries of every cookie of the header, those of the last
    cookie first: a removal entry with the first non-modifying rule that
    applies, and a modification entry with the modifying rules
    [lookupModifyingRules] finds. The entries of other requests are not
    touched. *)
Theorem processRequestHeaders_schedule
    (cookiesMap : gmap Z (list (Entry NetworkRule))) (request : Request)
    (requestHeaders : list Header) (cookieRules : list NetworkRule)
    (pos : nat) (cookieHeader : Header) :
  findHeaderByName requestHeaders (js "Cookie") = Some (pos, cookieHeader) ->
  exists cookiesMap',
    snd <$> processRequestHeaders cookiesMap request requestHeaders cookieRules
    = Some cookiesMap'
    /\ entriesOf cookiesMap' (requestId request)
       = entriesOf cookiesMap (requestId request)
         ++ flat_map (fun c => entriesFor (url request) cookieRules
                                          (CookieUtils.name c))
                     (rev (CookieUtils.parseCookie (value cookieHeader)))
    /\ forall other, other <> requestId request ->
                     cookiesMap' !! other = cookiesMap !! other.
Proof.
  intros Hfind.
  destruct (processRequestHeaders_spec cookiesMap request requestHeaders
              cookieRules pos cookieHeader Hfind)
    as (map' & Hres & Hent & Hother).
  exists map'. rewrite Hres. by split.
Qed.

End CookieHeader.

Section CookieHeaderExamples.
Import JS Model CookieFiltering Samples.

(** The header [tracker=1; JSESSIONID=x] under the blocking rule for
    [tracker]. *)
Lemma processRequestHeaders_drops_blocked_witness :
  fst <$> processRequestHeaders ∅ request_site headers_with_cookie
                                [rule_tracker]
  = Some (true,
          [ {| name := js "Accept"; value := js "*/*" |};
            {| name := js "cookie"; value := js "JSESSIONID=x" |} ]).
Proof.
  etrans;
    [apply (processRequestHeaders_drops_blocked ∅ request_site
              headers_with_cookie [rule_tracker] 1
              {| name := js "cookie"; value := js "tracker=1; JSESSIONID=x" |});
     reflexivity |].
  vm_compute. reflexivity.
Defined.

(** The same header under the rule that sets [sameSite] for [JSESSIONID] and
    the one that limits the lifetime of [tracker]: the entry of the last
    cookie comes first. *)
Lemma processRequestHeaders_schedule_witness :
  exists cookiesMap',
    snd <$> processRequestHeaders ∅ request_site headers_with_cookie
                                  [rule_session_lax; rule_tracker_maxAge]
    = Some cookiesMap'
    /\ entriesOf cookiesMap' 1
       = [ {| remove := false; cookie_name := js "JSESSIONID";
              cookie_url := js "https://site.com/";
              rules := [rule_session_lax] |};
           {| remove := false; cookie_name := js "tracker";
              cookie_url := js "https://site.com/";
              rules := [rule_tracker_maxAge] |} ]
    /\ forall other, other <> 1 -> cookiesMap' !! other = None.
Proof.
  destruct (processRequestHeaders_schedule ∅ request_site headers_with_cookie
              [rule_session_lax; rule_tracker_maxAge] 1
              {| name := js "cookie"; value := js "tracker=1; JSESSIONID=x" |})
    as (cookiesMap' & Hres & Hent & Hother); [reflexivity |].
  exists cookiesMap'. split; [exact Hres |].
  split; [etrans; [exact Hent | vm_compute; reflexivity] |].
  intros other Hne. etrans; [exact (Hother other Hne) | apply lookup_empty].
Defined.

End CookieHeaderExamples.

(** ** Cookie headers: parsing what was joined *)

Section CookieRoundTrip.
Import JS CookieUtils.

Lemma trimStart_length (s : jsstring) :
  (length (trimStart s) <= length s)%nat.
Proof.
  induction s as [| c s IH]; [done |]. cbn [trimStart].
  destruct (isWhiteSpace c); cbn [length]; lia.
Qed.

Lemma trim_length (s : jsstring) : (length (trim s) <= length (trimStart s))%nat.
Proof.
  unfold trim. rewrite length_rev.
  etrans; [apply trimStart_length |]. by rewrite length_rev.
Qed.

(** A trimmed string does not start with white space. *)
Lemma trimmed_head (c : N) (s : jsstring) :
  trim (c :: s) = c :: s -> isWhiteSpace c = false.
Proof.
  intros Htrim. destruct (isWhiteSpace c) eqn:Hc; [| reflexivity].
  pose proof (trim_length (c :: s)) as Hlen. rewrite Htrim in Hlen.
  cbn [trimStart] in Hlen. rewrite Hc in Hlen.
  pose proof (trimStart_length s). cbn [length] in Hlen. lia.
Qed.

Lemma splitPairs_not_skipping (s : jsstring) :
  head s <> Some 32%N -> splitPairs true s = splitPairs false s.
Proof.
  destruct s as [| c s]; [done |]. cbn [head splitPairs]. intros Hc.
  destruct (N.eqb_spec c 32) as [-> | _]; [done | reflexivity].
Qed.

Lemma splitPairs_head (skipping : bool) (s : jsstring) :
  splitPairs skipping s <> [].
Proof.
  revert skipping. induction s as [| c s IH]; intros skipping; [done |].
  cbn [splitPairs]. destruct (skipping && (c =? 32)%N); [apply IH |].
  destruct (c =? 59)%N; [done |].
  by destruct (splitPairs false s).
Qed.

(** A pair without semicolon is cut off at the separator that follows. *)
Lemma splitPairs_pair (pair rest : jsstring) :
  59%N ∉ pair ->
  splitPairs false (pair ++ js "; " ++ rest) = pair :: splitPairs true rest.
Proof.
  induction pair as [| c pair IH]; intros Hsemi.
  - reflexivity.
  - apply not_elem_of_cons in Hsemi as [Hc Hsemi].
    cbn [app splitPairs andb]. destruct (N.eqb_spec c 59) as [-> | _]; [done |].
    fold (pair ++ js "; " ++ rest).
    change (pair ++ 59%N :: 32%N :: rest) with (pair ++ js "; " ++ rest).
    by rewrite (IH Hsemi).
Qed.

Lemma splitPairs_last (pair : jsstring) :
  59%N ∉ pair -> splitPairs false pair = [pair].
Proof.
  induction pair as [| c pair IH]; intros Hsemi; [reflexivity |].
  apply not_elem_of_cons in Hsemi as [Hc Hsemi].
  cbn [splitPairs andb]. destruct (N.eqb_spec c 59) as [-> | _]; [done |].
  by rewrite (IH Hsemi).
Qed.

Lemma indexOf_equals (name value : jsstring) :
  61%N ∉ name ->
  indexOf (name ++ js "=" ++ value) (js "=") = Z.of_nat (length name).
Proof.
  induction name as [| c name IH]; intros Heq.
  - cbn. by rewrite N.eqb_refl.
  - apply not_elem_of_cons in Heq as [Hc Heq].
    cbn [app indexOf]. change (js "=") with [61%N] in *.
    cbn [startsWith]. destruct (N.eqb_spec 61 c) as [<- | _]; [done |].
    cbn [andb]. rewrite (IH Heq).
    destruct (Z.ltb_spec (Z.of_nat (length name)) 0); [lia |].
    cbn [length]. lia.
Qed.


(** The pair [name=value] of a clean cookie parses to that cookie. *)
Lemma parse_pair (c : Cookie) :
  clean c ->
  (let pair := name c ++ js "=" ++ value c in
   let eqIdx := indexOf pair (js "=") in
   if eqIdx <? 0 then []
   else [{| name := trim (substr pair 0 (Z.to_nat eqIdx));
            value := trim (substr pair (Z.to_nat (eqIdx + 1)) (length pair)) |}])
  = [c].
Proof.
  intros (Hname & Hvalue & _ & _ & Heq). cbv zeta.
  rewrite (indexOf_equals _ _ Heq).
  destruct (Z.ltb_spec (Z.of_nat (length (name c))) 0); [lia |].
  replace (Z.to_nat (Z.of_nat (length (name c)) + 1)) with (S (length (name c)))
    by lia.
  rewrite Nat2Z.id. unfold substr. rewrite drop_0, take_app_length.
  change (name c ++ js "=" ++ value c) with (name c ++ [61%N] ++ value c).
  rewrite (app_assoc (name c) [61%N]).
  replace (S (length (name c))) with (length (name c ++ [61%N]))
    by (rewrite length_app; cbn; lia).
  rewrite drop_app_length, firstn_all2
    by (rewrite !length_app; cbn; lia).
  rewrite Hname, Hvalue. by destruct c.
Qed.

Lemma pair_head (c : Cookie) (rest : jsstring) :
  clean c -> head (name c ++ js "=" ++ value c ++ rest) <> Some 32%N.
Proof.
  intros (Hname & _). destruct (name c) as [| x n]; [done |].
  cbn [app head]. intros [= ->]. by apply trimmed_head in Hname.
Qed.

Lemma splitPairs_joinCookies (c : Cookie) (cs : list Cookie) :
  Forall clean (c :: cs) ->
  splitPairs false (CookieFiltering.joinCookies (c :: cs))
  = map (fun c => name c ++ js "=" ++ value c) (c :: cs).
Proof.
  revert c. induction cs as [| c' cs IH]; intros c Hclean.
  - apply Forall_cons in Hclean as [(_ & _ & Hn & Hv & _) _].
    cbn [CookieFiltering.joinCookies map]. apply splitPairs_last.
    rewrite !not_elem_of_app. split; [done |]. split; [| done].
    by intros ?%list_elem_of_singleton.
  - apply Forall_cons in Hclean as [(_ & _ & Hn & Hv & _) Hclean].
    change (CookieFiltering.joinCookies (c :: c' :: cs))
      with (name c ++ js "=" ++ value c ++ js "; "
            ++ CookieFiltering.joinCookies (c' :: cs)).
    replace (name c ++ js "=" ++ value c ++ js "; "
             ++ CookieFiltering.joinCookies (c' :: cs))
      with ((name c ++ js "=" ++ value c) ++ js "; "
            ++ CookieFiltering.joinCookies (c' :: cs))
      by (by rewrite <- !app_assoc).
    rewrite splitPairs_pair.
    2: { rewrite !not_elem_of_app. split; [done |]. split; [| done].
         by intros ?%list_elem_of_singleton. }
    rewrite splitPairs_not_skipping, (IH c' Hclean); [reflexivity |].
    apply Forall_cons in Hclean as [Hc' _].
    destruct cs as [| c'' cs].
    + cbn [CookieFiltering.joinCookies].
      pose proof (pair_head c' [] Hc') as Hhead. by rewrite app_nil_r in Hhead.
    + change (CookieFiltering.joinCookies (c' :: c'' :: cs))
        with (name c' ++ js "=" ++ value c' ++ js "; "
              ++ CookieFiltering.joinCookies (c'' :: cs)).
      by apply pair_head.
Qed.

(** X18.  Parsing the header value that [processRequestHeaders] writes gives
    back the cookies it was written from, when their names and values are
    trimmed and hold no semicolon, and the names hold no equals sign. *)
Theorem parseCookie_joinCookies (cookies : list Cookie) :
  Forall clean cookies ->
  parseCookie (CookieFiltering.joinCookies cookies) = cookies.
Proof.
  intros Hclean. destruct cookies as [| c cs]; [reflexivity |].
  unfold parseCookie. cbv zeta. rewrite (splitPairs_joinCookies c cs Hclean).
  induction Hclean as [| c0 cs0 Hc0 _ IH]; [reflexivity |].
  cbn [map flat_map]. rewrite IH.
  pose proof (parse_pair c0 Hc0) as Hpair. cbv zeta in Hpair.
  by rewrite Hpair.
Qed.

End CookieRoundTrip.

Section CookieRoundTripExamples.
Import JS CookieUtils.

Lemma parseCookie_joinCookies_witness :
  parseCookie (js "tracker=1; JSESSIONID=a=b; =x")
  = [ {| name := js "tracker"; value := js "1" |};
      {| name := js "JSESSIONID"; value := js "a=b" |};
      {| name := []; value := js "x" |} ].
Proof.
  apply (parseCookie_joinCookies
           [ {| name := js "tracker"; value := js "1" |};
             {| name := js "JSESSIONID"; value := js "a=b" |};
             {| name := []; value := js "x" |} ]).
  repeat (apply Forall_cons; split); try apply Forall_nil_2;
    (split; [reflexivity |]); (split; [reflexivity |]);
    (split; [| split]); apply (bool_decide_unpack _); vm_compute; exact I.
Defined.

(** A value with a semicolon does not survive: the header is cut there. *)
Example parseCookie_semicolon :
  parseCookie (CookieFiltering.joinCookies
                 [ {| name := js "a"; value := js "1;2" |} ])
  = [ {| name := js "a"; value := js "1" |} ].
Proof. reflexivity. Qed.

End CookieRoundTripExamples.

(** ** Cookie filtering: applying the scheduled entries *)

Section CookieBrowser.
Import JS Model CookieFiltering.
Context {NetworkRule : Type} `{!NetworkRuleApi NetworkRule} `{!StringApi}.
Context {World : Type} `{!CookieManager.CookieApi World}.
Variable dateNow : nat -> Z.

Lemma updateSetCookieMaxAge_unchanged (now : Z) (setCookie : BrowserCookie)
    (maxAge' : double) :
  fst (updateSetCookieMaxAge now setCookie maxAge') = false ->
  snd (updateSetCookieMaxAge now setCookie maxAge') = setCookie.
Proof.
  unfold updateSetCookieMaxAge. cbv zeta.
  destruct (match _ with Some t => dgt _ _ | None => true end); [| done].
  by destruct (expires setCookie).
Qed.

Lemma updateSetCookieMaxAge_sameSite (now : Z) (setCookie : BrowserCookie)
    (maxAge' : double) :
  sameSite (snd (updateSetCookieMaxAge now setCookie maxAge'))
  = sameSite setCookie.
Proof.
  unfold updateSetCookieMaxAge. cbv zeta.
  destruct (match _ with Some t => dgt _ _ | None => true end); [| done].
  by destruct (expires setCookie).
Qed.

(** The loop of [applyRuleToBrowserCookie], from any list of rules applied
    so far. *)
Lemma applyRuleToBrowserCookie_loop_spec (reads : nat) (cookie : BrowserCookie)
    (rules appliedRules : list NetworkRule) :
  exists applied cookie' reads',
    applyRuleToBrowserCookie_loop dateNow reads cookie rules appliedRules
    = (appliedRules ++ applied, cookie', reads')
    /\ applied `sublist_of` rules
    /\ (applied = [] -> cookie' = cookie).
Proof.
  revert reads cookie appliedRules.
  induction rules as [| rule rest IH]; intros reads cookie appliedRules.
  - exists [], cookie, reads. cbn. by rewrite app_nil_r.
  - cbn [applyRuleToBrowserCookie_loop]. cbv zeta.
    set (step1 := match getSameSite (getAdvancedModifier rule) with
                  | Some ((_ :: _) as sameSite') =>
                      if bool_decide (sameSite cookie <> Some sameSite')
                      then ({| sameSite := Some sameSite';
                               maxAge := maxAge cookie;
                               expires := expires cookie |}, true)
                      else (cookie, false)
                  | _ => (cookie, false)
                  end).
    assert (H1 : snd step1 = false -> fst step1 = cookie).
    { subst step1. destruct (getSameSite _) as [[| x s] |]; try done.
      by case_bool_decide. }
    destruct step1 as [cookie1 modified1]. cbn [fst snd] in H1.
    set (step2 := match getMaxAge (getAdvancedModifier rule) with
                  | Some maxAge' =>
                      if Qeq_bool maxAge' 0 then (cookie1, modified1, reads)
                      else
                        let '(changed, cookie') :=
                          updateSetCookieMaxAge (dateNow reads) cookie1
                                                (double_of_Q maxAge')
                        in (cookie', if changed then true else modified1,
                            S reads)
                  | None => (cookie1, modified1, reads)
                  end).
    assert (H2 : snd (fst step2) = false -> fst (fst step2) = cookie).
    { subst step2. destruct (getMaxAge _) as [m |]; [| exact H1].
      destruct (Qeq_bool m 0); [exact H1 |].
      pose proof (updateSetCookieMaxAge_unchanged (dateNow reads) cookie1
                    (double_of_Q m)) as Hun.
      destruct (updateSetCookieMaxAge (dateNow reads) cookie1 (double_of_Q m))
        as [changed cookie'].
      cbn [fst snd] in *. destruct changed; [done |].
      intros Hm. rewrite (Hun eq_refl). by apply H1. }
    destruct step2 as [[cookie2 modified2] reads2]. cbn [fst snd] in H2.
    destruct modified2.
    + destruct (IH reads2 cookie2 (appliedRules ++ [rule]))
        as (applied & cookie' & reads' & -> & Hsub & _).
      exists (rule :: applied), cookie', reads'.
      rewrite <- app_assoc. split; [done |].
      split; [by apply sublist_skip | done].
    + destruct (IH reads2 cookie2 appliedRules)
        as (applied & cookie' & reads' & -> & Hsub & Hsame).
      exists applied, cookie', reads'. split; [done |].
      split; [by apply sublist_cons |].
      intros Hnil. rewrite (Hsame Hnil). by apply H2.
Qed.

(** X19.  [applyRuleToBrowserCookie] returns some of the rules, in their
    order, and it reports every change: when it returns no rule, the cookie
    is as it was. *)
Theorem applyRuleToBrowserCookie_reports_changes (reads : nat)
    (cookie : BrowserCookie) (rules : list NetworkRule) :
  let result := applyRuleToBrowserCookie dateNow reads cookie rules in
  fst (fst result) `sublist_of` rules
  /\ (fst (fst result) = [] -> snd (fst result) = cookie).
Proof.
  unfold applyRuleToBrowserCookie.
  destruct (applyRuleToBrowserCookie_loop_spec reads cookie rules [])
    as (applied & cookie' & reads' & -> & Hsub & Hsame).
  by cbn.
Qed.


Lemma applyRuleToBrowserCookie_loop_sameSite (reads : nat)
    (cookie : BrowserCookie) (rules appliedRules : list NetworkRule) :
  sameSite (snd (fst (applyRuleToBrowserCookie_loop dateNow reads cookie rules
                        appliedRules)))
  = fold_left (fun current rule =>
                 match getSameSite (getAdvancedModifier rule) with
                 | Some ((_ :: _) as sameSite') => Some sameSite'
                 | _ => current
                 end) rules (sameSite cookie).
Proof.
  revert reads cookie appliedRules.
  induction rules as [| rule rest IH]; intros reads cookie appliedRules;
    [reflexivity |].
  cbn [applyRuleToBrowserCookie_loop fold_left]. cbv zeta.
  set (step1 := match getSameSite (getAdvancedModifier rule) with
                | Some ((_ :: _) as sameSite') =>
                    if bool_decide (sameSite cookie <> Some sameSite')
                    then ({| sameSite := Some sameSite';
                             maxAge := maxAge cookie;
                             expires := expires cookie |}, true)
                    else (cookie, false)
                | _ => (cookie, false)
                end).
  assert (H1 : sameSite (fst step1)
               = match getSameSite (getAdvancedModifier rule) with
                 | Some ((_ :: _) as sameSite') => Some sameSite'
                 | _ => sameSite cookie
                 end).
  { subst step1. destruct (getSameSite _) as [[| x s] |]; try done.
    case_bool_decide as Hsame; [done |]. cbn [fst].
    by destruct (decide (sameSite cookie = Some (x :: s))). }
  destruct step1 as [cookie1 modified1]. cbn [fst] in H1. rewrite <- H1.
  set (step2 := match getMaxAge (getAdvancedModifier rule) with
                | Some maxAge' =>
                    if Qeq_bool maxAge' 0 then (cookie1, modified1, reads)
                    else
                      let '(changed, cookie') :=
                        updateSetCookieMaxAge (dateNow reads) cookie1
                                              (double_of_Q maxAge')
                      in (cookie', if changed then true else modified1,
                          S reads)
                | None => (cookie1, modified1, reads)
                end).
  assert (H2 : sameSite (fst (fst step2)) = sameSite cookie1).
  { subst step2. destruct (getMaxAge _) as [m |]; [| done].
    destruct (Qeq_bool m 0); [done |].
    pose proof (updateSetCookieMaxAge_sameSite (dateNow reads) cookie1
                  (double_of_Q m)) as Hsame.
    by destruct (updateSetCookieMaxAge (dateNow reads) cookie1
                   (double_of_Q m)). }
  destruct step2 as [[cookie2 modified2] reads2]. cbn [fst] in H2.
  rewrite <- H2. apply IH.
Qed.

(** X20.  After [applyRuleToBrowserCookie] the cookie has the [sameSite] of
    the last rule that carries a non-empty one, whatever the rules do to its
    lifetime; without such a rule its [sameSite] is as it was. *)
Theorem applyRuleToBrowserCookie_sameSite (reads : nat)
    (cookie : BrowserCookie) (rules : list NetworkRule) :
  let cookie' := snd (fst (applyRuleToBrowserCookie dateNow reads cookie
                             rules)) in
  let silent rule :=
    getSameSite (getAdvancedModifier rule) = None
    \/ getSameSite (getAdvancedModifier rule) = Some [] in
  (forall pre rule post s,
      rules = pre ++ rule :: post ->
      getSameSite (getAdvancedModifier rule) = Some s -> s <> [] ->
      Forall silent post ->
      sameSite cookie' = Some s)
  /\ (Forall silent rules -> sameSite cookie' = sameSite cookie).
Proof.
  cbv zeta. unfold applyRuleToBrowserCookie.
  rewrite applyRuleToBrowserCookie_loop_sameSite.
  assert (Hsilent : forall post current,
    Forall (fun rule => getSameSite (getAdvancedModifier rule) = None
                        \/ getSameSite (getAdvancedModifier rule) = Some [])
           post ->
    fold_left (fun current rule =>
                 match getSameSite (getAdvancedModifier rule) with
                 | Some ((_ :: _) as sameSite') => Some sameSite'
                 | _ => current
                 end) post current = current).
  { intros post current Hpost. revert current.
    induction Hpost as [| r post [Hr | Hr] _ IH]; intros current;
      [done | |]; cbn [fold_left]; by rewrite Hr, IH. }
  split.
  - intros pre rule post s -> Hs Hne Hpost.
    rewrite fold_left_app. cbn [fold_left]. rewrite Hs.
    destruct s as [| x s]; [done |]. by apply Hsilent.
  - apply Hsilent.
Qed.

(** X21.  [modifyCookies] leaves no entry of the request behind and does not
    touch the entries of other requests; calling it again changes nothing. *)
Theorem modifyCookies_drains (cookiesMap : gmap Z (list (Entry NetworkRule)))
    (world : World) (reads : nat) (requestId : Z) :
  let result := modifyCookies dateNow cookiesMap world reads requestId in
  let cookiesMap' := fst (fst result) in
  entriesOf cookiesMap' requestId = []
  /\ (forall other, other <> requestId ->
                    cookiesMap' !! other = cookiesMap !! other)
  /\ modifyCookies dateNow cookiesMap' (snd (fst result)) (snd result)
                   requestId
     = result.
Proof.
  cbv zeta. unfold modifyCookies, entriesOf.
  destruct (cookiesMap !! requestId) as [[| value values] |] eqn:Hentry.
  - cbn [fst snd]. by rewrite Hentry.
  - destruct (fold_left _ (value :: values) (world, reads))
      as [world' reads'].
    cbn [fst snd]. rewrite lookup_delete_eq. split; [done |].
    split; [| done]. intros other Hne. by rewrite lookup_delete_ne.
  - cbn [fst snd]. by rewrite Hentry.
Qed.

Lemma lookupModifyingRules_blocked (cookieName : jsstring)
    (cookieRules : list NetworkRule) :
  is_Some (lookupNotModifyingRule cookieName cookieRules) ->
  lookupModifyingRules cookieName cookieRules = [].
Proof.
  intros Hsome. unfold lookupModifyingRules.
  rewrite lookupModifyingRules_loop_spec.
  destruct (existsb _ cookieRules) eqn:Hex; [reflexivity |].
  apply lookupNotModifyingRule_None in Hex. rewrite Hex in Hsome.
  by destruct Hsome.
Qed.

(** X22.  A cookie that a non-modifying rule applies to is scheduled for
    removal and removed by [modifyCookies], whether the rule is a whitelist
    rule or not: a header whose cookies all have such a rule leads to one
    [removeCookie] per cookie, last cookie first, and the schedule is then
    as it was before the request. *)
Theorem modifyCookies_removes_whitelisted
    (cookiesMap : gmap Z (list (Entry NetworkRule))) (request : Request)
    (requestHeaders : list Header) (cookieRules : list NetworkRule)
    (pos : nat) (cookieHeader : Header) (world : World) (reads : nat) :
  cookiesMap !! requestId request = None ->
  findHeaderByName requestHeaders (js "Cookie") = Some (pos, cookieHeader) ->
  Forall (fun c => is_Some (lookupNotModifyingRule (CookieUtils.name c)
                                                   cookieRules))
         (CookieUtils.parseCookie (value cookieHeader)) ->
  exists cookiesMap',
    snd <$> processRequestHeaders cookiesMap request requestHeaders cookieRules
    = Some cookiesMap'
    /\ modifyCookies dateNow cookiesMap' world reads (requestId request)
       = (cookiesMap,
          fold_left (fun world c =>
                       CookieManager.removeCookie world (CookieUtils.name c)
                                                  (url request))
                    (rev (CookieUtils.parseCookie (value cookieHeader)))
                    world,
          reads).
Proof.
  intros Hfresh Hfind Hall.
  destruct (processRequestHeaders_spec cookiesMap request requestHeaders
              cookieRules pos cookieHeader Hfind)
    as (cookiesMap' & Hres & Hent & Hother).
  exists cookiesMap'. rewrite Hres. split; [reflexivity |].
  destruct (CookieUtils.parseCookie (value cookieHeader)) as [| c0 cs0]
    eqn:Hparse.
  { assert (Heq : cookiesMap' = cookiesMap).
    { unfold processRequestHeaders in Hres.
      destruct cookieRules; [| rewrite Hfind, Hparse in Hres];
        by injection Hres. }
    rewrite Heq. unfold modifyCookies. by rewrite Hfresh. }
  unfold entriesOf in Hent. rewrite Hfresh in Hent. cbn [default app] in Hent.
  apply Forall_rev in Hall.
  assert (Hne : rev (c0 :: cs0) <> []).
  { cbn [rev]. intros Hnil. by apply app_eq_nil in Hnil as [_ ?]. }
  revert Hent Hall Hne. clear Hres.
  generalize (rev (c0 :: cs0)) as cookies.
  intros cookies Hent Hall Hne.
  assert (Hentries :
    flat_map (fun c => entriesFor (url request) cookieRules
                                  (CookieUtils.name c)) cookies
    = map (fun c => {| remove := true; cookie_name := CookieUtils.name c;
                       cookie_url := url request;
                       rules := match lookupNotModifyingRule
                                        (CookieUtils.name c) cookieRules with
                                | Some bRule => [bRule]
                                | None => []
                                end |}) cookies).
  { clear Hent Hne. induction Hall as [| c cs Hc _ IH]; [reflexivity |].
    cbn [flat_map map]. rewrite IH. unfold entriesFor.
    rewrite (lookupModifyingRules_blocked _ _ Hc).
    by destruct Hc as [bRule ->]. }
  rewrite Hentries in Hent. clear Hentries Hall.
  unfold modifyCookies.
  destruct cookies as [| c cs]; [done |].
  assert (Hfold : forall cookies w,
    fold_left (fun '(world, reads) value =>
                 if remove value then
                   (CookieManager.removeCookie world (cookie_name value)
                                               (cookie_url value), reads)
                 else modifyCookie dateNow world reads (cookie_name value)
                                   (cookie_url value) (rules value))
              (map (fun c => {| remove := true;
                                cookie_name := CookieUtils.name c;
                                cookie_url := url request;
                                rules := match lookupNotModifyingRule
                                                 (CookieUtils.name c)
                                                 cookieRules with
                                         | Some bRule => [bRule]
                                         | None => []
                                         end |}) cookies) (w, reads)
    = (fold_left (fun world c =>
                    CookieManager.removeCookie world (CookieUtils.name c)
                                               (url request)) cookies w,
       reads)).
  { intros cookies. induction cookies as [| c1 cookies IH]; intros w;
      [reflexivity |].
    cbn [map fold_left remove cookie_name cookie_url]. apply IH. }
  destruct (cookiesMap' !! requestId request) as [[| value values] |];
    try discriminate Hent.
  cbn [from_option id] in Hent. rewrite Hent, (Hfold (c :: cs) world).
  f_equal. f_equal.
  apply map_eq. intros k. destruct (decide (k = requestId request))
    as [-> | Hk].
  - by rewrite lookup_delete_eq, Hfresh.
  - rewrite lookup_delete_ne by done. by apply Hother.
Qed.

End CookieBrowser.

Section CookieBrowserExamples.
Import JS Model CookieFiltering Samples.

(** The header [tracker=1] under the exception rule for [tracker]: the
    header is left alone, and [modifyCookies] removes the cookie from the
    browser all the same. *)
Lemma modifyCookies_removes_whitelisted_witness :
  processRequestHeaders ∅ request_site
    [ {| name := js "Cookie"; value := js "tracker=1" |} ]
    [rule_tracker_exception]
  = Some (false, [ {| name := js "Cookie"; value := js "tracker=1" |} ],
          {[ 1 := [ {| remove := true; cookie_name := js "tracker";
                       cookie_url := js "https://site.com/";
                       rules := [rule_tracker_exception] |} ] ]})
  /\ exists cookiesMap',
       snd <$> processRequestHeaders ∅ request_site
                 [ {| name := js "Cookie"; value := js "tracker=1" |} ]
                 [rule_tracker_exception]
       = Some cookiesMap'
       /\ modifyCookies (fun _ => 1000000) cookiesMap' browser_site 0 1
          = (∅,
             {| Sample.jar :=
                  [ (js "JSESSIONID",
                     {| sameSite := Some (js "strict"); maxAge := None;
                        expires := Some (DateValue 2000000) |}) ];
                Sample.calls :=
                  [Sample.RemoveCookie (js "tracker")
                                       (js "https://site.com/")] |},
             0%nat).
Proof.
  split; [vm_compute; reflexivity |].
  destruct (modifyCookies_removes_whitelisted (fun _ => 1000000) ∅ request_site
              [ {| name := js "Cookie"; value := js "tracker=1" |} ]
              [rule_tracker_exception] 0
              {| name := js "Cookie"; value := js "tracker=1" |}
              browser_site 0)
    as (cookiesMap' & Hres & Hmodify).
  - reflexivity.
  - reflexivity.
  - repeat constructor. by eexists.
  - exists cookiesMap'. split; [exact Hres |].
    etrans; [exact Hmodify |]. vm_compute. reflexivity.
Defined.

(** The rules [sameSite=lax] and [maxAge=60] applied to the [JSESSIONID]
    cookie of the browser at the time 1000000 ms: both are applied, and the
    cookie then expires at 1060000 ms. *)
Example applyRuleToBrowserCookie_example :
  applyRuleToBrowserCookie (fun _ => 1000000) 0
    {| sameSite := Some (js "strict"); maxAge := None;
       expires := Some (DateValue 2000000) |}
    [rule_session_lax; rule_tracker_maxAge]
  = ([rule_session_lax; rule_tracker_maxAge],
     {| sameSite := Some (js "lax"); maxAge := None;
        expires := Some (DateValue 1060000) |},
     1%nat).
Proof. vm_compute. reflexivity. Qed.

End CookieBrowserExamples.

(** ** Cookie filtering: the first match wins *)

Section CookieLookups.
Import JS Model CookieFiltering.
Context {NetworkRule : Type} `{!NetworkRuleApi NetworkRule} `{!StringApi}.

Lemma findHeaderByName_from_inv (i : nat) (headers : list Header)
    (headerName : jsstring) (pos : nat) (header : Header) :
  findHeaderByName_from i headers headerName = Some (pos, header) ->
  exists k, pos = (i + k)%nat
            /\ headers !! k = Some header
            /\ toLowerCase (name header) = toLowerCase headerName
            /\ Forall (fun h => toLowerCase (name h) <> toLowerCase headerName)
                      (take k headers).
Proof.
  revert i. induction headers as [| h hs IH]; intros i; [done |].
  cbn [findHeaderByName_from]. case_bool_decide as Hname.
  - intros [= <- <-]. exists 0%nat. rewrite Nat.add_0_r.
    repeat split; [done |]. constructor.
  - intros Hrest. destruct (IH _ Hrest) as (k & -> & Hk & Hh & Hbefore).
    exists (S k). split; [lia |]. repeat split; [done.. |].
    cbn [take]. by constructor.
Qed.

(** X23.  [findHeaderByName] returns the first header whose name equals the
    given one up to case, together with its position, and nothing when there
    is no such header. *)
Theorem findHeaderByName_first_match (headers : list Header)
    (headerName : jsstring) :
  (forall pos header,
      findHeaderByName headers headerName = Some (pos, header)
      <-> headers !! pos = Some header
          /\ toLowerCase (name header) = toLowerCase headerName
          /\ Forall (fun h => toLowerCase (name h) <> toLowerCase headerName)
                    (take pos headers))
  /\ (findHeaderByName headers headerName = None
      <-> Forall (fun h => toLowerCase (name h) <> toLowerCase headerName)
                 headers).
Proof.
  unfold findHeaderByName. split.
  - intros pos header. split.
    + intros Hfind. apply findHeaderByName_from_inv in Hfind
        as (k & -> & Hk & Hname & Hbefore). by cbn.
    + intros (Hpos & Hname & Hbefore).
      by rewrite (findHeaderByName_from_first 0 pos headers headerName header).
  - split; [| apply findHeaderByName_from_None].
    intros Hnone. apply Forall_forall. intros h Hin Hname.
    apply list_elem_of_lookup in Hin as [k Hk].
    assert (Hex : exists k h, headers !! k = Some h
                    /\ toLowerCase (name h) = toLowerCase headerName)
      by eauto.
    clear k h Hk Hname. revert Hnone Hex. generalize 0%nat.
    induction headers as [| h0 hs IH]; intros i Hnone (k & h & Hk & Hname);
      [done |].
    cbn [findHeaderByName_from] in Hnone. case_bool_decide as Hh0; [done |].
    destruct k as [| k]; [cbn in Hk; congruence |].
    apply (IH (S i) Hnone). by exists k, h.
Qed.

(** X24.  [lookupNotModifyingRule] returns the first rule of the list that
    applies to the cookie and is not modifying: a blocking rule listed
    before an exception wins over it, and the other way round. *)
Theorem lookupNotModifyingRule_first (cookieName : jsstring)
    (cookieRules : list NetworkRule) (rule : NetworkRule) :
  lookupNotModifyingRule cookieName cookieRules = Some rule
  <-> exists before after,
        cookieRules = before ++ rule :: after
        /\ appliesTo cookieName rule = true
        /\ isModifyingRule rule = false
        /\ Forall (fun r => appliesTo cookieName r = false
                            \/ isModifyingRule r = true) before.
Proof.
  induction cookieRules as [| r rs IH].
  - split; [done |]. intros ([| ? ?] & after & Heq & _); discriminate.
  - cbn [lookupNotModifyingRule]. unfold appliesTo in *.
    destruct (matches (getAdvancedModifier r) cookieName) eqn:Hm;
      [destruct (isModifyingRule r) eqn:Hmod |]; cbn [andb negb].
    2: { split.
         - intros [= <-]. exists [], rs. by repeat split.
         - intros ([| r0 before] & after & Heq & Hrm & Hrmod & Hbefore).
           + by injection Heq as <- _.
           + injection Heq as <- _. apply Forall_cons in Hbefore as [[? | ?] _];
               congruence. }
    all: rewrite IH; split;
      [ intros (before & after & -> & Hrm & Hrmod & Hbefore);
        exists (r :: before), after;
        repeat split; try done; constructor; [by auto | done]
      | intros ([| r0 before] & after & Heq & Hrm & Hrmod & Hbefore);
        [ injection Heq as <- _; congruence
        | injection Heq as <- ->; apply Forall_cons in Hbefore as [_ Hbefore];
          by exists before, after ] ].
Qed.

End CookieLookups.

Section CookieLookupsExamples.
Import JS Model CookieFiltering Samples.

(** The order of the rules decides: the exception for [tracker] protects
    the cookie only when it is listed before the blocking rule. *)
Example blocked_by_first_rule :
  blocked [rule_tracker; rule_tracker_exception] (js "tracker") = true
  /\ blocked [rule_tracker_exception; rule_tracker] (js "tracker") = false.
Proof. split; reflexivity. Qed.

End CookieLookupsExamples.

(** ** Cookie lifetimes: what a rule's [maxAge] guarantees *)

Section MaxAgeBound.
Import JS Model CookieFiltering.

(** X25.  For a cookie without [expires]: after [updateSetCookieMaxAge] the
    cookie has a [maxAge], and the expiry time the code computes from it,
    [Date.now() / 1000 + maxAge] in binary64, is not greater than the one
    it computes from the rule's [maxAge]; when the call returns [true] it
    has set the cookie's [maxAge] to the rule's and changed nothing else,
    and when it returns [false] the cookie is as it was. *)
Theorem updateSetCookieMaxAge_bounds_expiry (now : Z)
    (setCookie : BrowserCookie) (maxAge' : double) :
  expires setCookie = None ->
  let result := updateSetCookieMaxAge now setCookie maxAge' in
  let currentTimeSec := ddiv (double_of_Z now) (double_of_Z 1000) in
  (exists m, maxAge (snd result) = Some m
             /\ dgt (dadd currentTimeSec m) (dadd currentTimeSec maxAge')
                = false)
  /\ (fst result = true ->
      snd result = {| sameSite := sameSite setCookie;
                      maxAge := Some maxAge'; expires := None |})
  /\ (fst result = false -> snd result = setCookie).
Proof.
  intros Hexp. cbv zeta. unfold updateSetCookieMaxAge. rewrite Hexp.
  cbv zeta.
  set (currentTimeSec := ddiv (double_of_Z now) (double_of_Z 1000)).
  destruct (maxAge setCookie) as [m |] eqn:Hmax.
  - destruct (truthy m).
    + destruct (dgt (dadd currentTimeSec m) (dadd currentTimeSec maxAge'))
        eqn:Hgt; cbn [fst snd maxAge].
      * split; [| by split].
        exists maxAge'. split; [reflexivity | apply dgt_irrefl].
      * split; [| by split]. exists m. by rewrite Hmax.
    + cbn [fst snd maxAge]. split; [| by split].
      exists maxAge'. split; [reflexivity | apply dgt_irrefl].
  - cbn [fst snd maxAge]. split; [| by split].
    exists maxAge'. split; [reflexivity | apply dgt_irrefl].
Qed.

End MaxAgeBound.

Section MaxAgeBoundExamples.
Import JS Model CookieFiltering.

(** A session cookie with [maxAge = 3600] and a rule with [maxAge = 60], at
    [Date.now() = 1000006]: the cookie's [maxAge] becomes 60. *)
Lemma updateSetCookieMaxAge_bounds_expiry_witness :
  updateSetCookieMaxAge 1000006
    {| sameSite := None; maxAge := Some (double_of_Z 3600); expires := None |}
    (double_of_Z 60)
  = (true, {| sameSite := None; maxAge := Some (double_of_Z 60);
              expires := None |}).
Proof.
  destruct (updateSetCookieMaxAge_bounds_expiry 1000006
              {| sameSite := None; maxAge := Some (double_of_Z 3600);
                 expires := None |}
              (double_of_Z 60) eq_refl) as (_ & Hset & _).
  apply injective_projections; [reflexivity | apply Hset; reflexivity].
Defined.

End MaxAgeBoundExamples.
